(** * comedy: a shallow embedding of the actor runtime

  The development follows three source files of the repository:
  - [lib/actor.js] (class [Actor]): the dispatch of [send] and
    [sendAndReceive], the forwarding table and its registration by
    [forwardToParent] and [forwardToChild], the not-ready errors,
    [createChild], [tree], [metrics] and [destroy];
  - [lib/forked-actor.js] (class [ForkedActor]): the correlation of
    requests and responses, the timeout worker, the listener of the bus
    on the two sides of a call, and the marshalling of message
    arguments;
  - [lib/actor-system.js] (class [ActorSystem]): the marshaller registry
    and its initialization, and the default system.

  Definitions come first, one module per source class; the properties
  follow. *)

From Stdlib Require Import ZArith NArith List String Ascii Bool Lia.
From stdpp Require Import base option list gmap strings.

Local Open Scope string_scope.
Set Warnings "-register-all".

(** ** JavaScript values *)

Module JS.

(** The two kinds of listening server handles the transport knows. *)
Inductive server_kind := NetServer | HttpServer.

(** The values that travel as message arguments.  [VObj ctor fields] is
    an object whose constructor is named [ctor]; [VActor] is an instance
    of [Actor]; [VServer] is an instance of [net.Server] (an
    [http.Server] is a [net.Server] too). *)
Inductive value :=
| VUndefined
| VNull
| VBool (b : bool)
| VNum (n : Z)
| VStr (s : string)
| VArr (elems : list value)
| VObj (ctor : string) (fields : list (string * value))
| VActor (id : string)
| VServer (kind : server_kind) (fd : nat).

(** [!v] is [negb (truthy v)]. *)
Definition truthy (v : value) : bool :=
  match v with
  | VUndefined | VNull => false
  | VBool b => b
  | VNum n => negb (n =? 0)%Z
  | VStr s => negb (String.eqb s "")
  | VArr _ | VObj _ _ | VActor _ | VServer _ _ => true
  end.

(** [_.isArray(v)]. *)
Definition isArray (v : value) : bool :=
  match v with VArr _ => true | _ => false end.

(** [s1] occurs in [s2]: what a test [/s1/] of a literal pattern, or
    chai's [to.match], checks. *)
Fixpoint contains (s1 s2 : string) : bool :=
  if String.prefix s1 s2 then true
  else match s2 with
       | EmptyString => false
       | String _ rest => contains s1 rest
       end.

(** The double quote character, for messages that quote a word. *)
Definition dquote : string := String "034"%char EmptyString.

(** A plain object is the list of its own properties in insertion order.
    [obj_get] is [o[k]] and [obj_set] is [o[k] = v]. *)
Definition object := list (string * value).

Fixpoint obj_get (k : string) (o : object) : option value :=
  match o with
  | [] => None
  | (k', v) :: rest => if String.eqb k' k then Some v else obj_get k rest
  end.

Fixpoint obj_set (k : string) (v : value) (o : object) : object :=
  match o with
  | [] => [(k, v)]
  | (k', v') :: rest =>
      if String.eqb k' k then (k, v) :: rest else (k', v') :: obj_set k v rest
  end.

(** [_.isEmpty(o)] on a plain object. *)
Definition isEmpty (o : object) : bool :=
  match o with [] => true | _ => false end.

End JS.

(** ** [lib/actor.js] *)

Module Actor.
Import JS.

(** A regular expression, kept as far as the dispatch uses it: its
    source text and whether [topic.match(re)] finds a match. *)
Record RegExp := mkRegExp { re_source : string; re_test : string -> bool }.

(** A topic of the forward list: a string or a regular expression. *)
Inductive matcher :=
| MString (s : string)
| MRegExp (re : RegExp).

(** The objects a message can be forwarded to: the proxy that
    [getParent()] builds around the parent, or a child actor. *)
Inductive ref :=
| ParentActorProxy (id : string)
| ChildActor (id : string).

(** A property of the behaviour object, as [definition[topic]] sees it:
    a handler function or some other value, of which only the
    truthiness matters here. *)
Inductive property :=
| PFunction
| PValue (v : value).

Definition property_truthy (p : property) : bool :=
  match p with PFunction => true | PValue v => truthy v end.

(** How far the promise chain built by [destroy()] has come:
    [P.map(children, mapper).then(destroy0).then(last callback)]. *)
Inductive chain :=
| Mapping (children : list string)
    (** [P.map] holds the array of children, the mapper has not run *)
| Awaiting (children : list string)
    (** the mapper has called [destroy()] on every child *)
| InHook
    (** all the children's promises are settled, [destroy0()] is running *)
| Hooked
    (** [destroy0()] has resolved, the last callback has not run *)
| Fulfilled
    (** the last callback has run: state ['destroyed'], event emitted *)
| Failed.
    (** [destroy0()] has rejected, and so has the promise *)

(** A promise made by [destroy()]: its identity and its progress. *)
Record promise := mkPromise { pid : nat; progress : chain }.

(** An actor object.  Actors are referred to by their object identity,
    which is the key of the store below.  [definition] holds the
    properties that [definition[topic]] finds, inherited ones included.
    The children are the actors whose creation has completed: a child
    promise of [childPromises] is fulfilled and is named by the child it
    resolves to.  [parent] is the actor whose [createChild] made this
    one, and which listens to its ['destroyed'] event.  The hooks are
    those of the subclass or of the behaviour: [destroy0] says whether
    the promise of [destroy0()] resolves or rejects when it settles,
    [metrics0] is what [metrics0()] yields.  Whether and when the
    promise of [destroy0()] settles is for the schedule to say: see
    [LHookEnd] below. *)
Record t := mkActor {
  id : string;
  name : string;
  state : string;
  definition : gmap string property;
  forwardList : list (matcher * ref);
  forwardAllUnknown : option ref;
  parent : option string;
  childPromises : list string;
  destroyPromise : option promise;
  destroy0 : bool;
  metrics0 : object
}.

Definition _setState (newState : string) (a : t) : t :=
  mkActor (id a) (name a) newState (definition a) (forwardList a)
    (forwardAllUnknown a) (parent a) (childPromises a) (destroyPromise a)
    (destroy0 a) (metrics0 a).

Definition set_childPromises (cs : list string) (a : t) : t :=
  mkActor (id a) (name a) (state a) (definition a) (forwardList a)
    (forwardAllUnknown a) (parent a) cs (destroyPromise a)
    (destroy0 a) (metrics0 a).

Definition set_destroyPromise (p : option promise) (a : t) : t :=
  mkActor (id a) (name a) (state a) (definition a) (forwardList a)
    (forwardAllUnknown a) (parent a) (childPromises a) p
    (destroy0 a) (metrics0 a).

(** *** Dispatch *)

(** [this.definition[topic]], as a condition. *)
Definition has_handler (a : t) (topic : string) : bool :=
  match definition a !! topic with
  | Some p => property_truthy p
  | None => false
  end.

(** The predicate given to [_.find] in [_checkForward]. *)
Definition fw_matches (topic : string) (item : matcher * ref) : bool :=
  match fst item with
  | MRegExp re => re_test re topic
  | MString fwTopic => String.eqb fwTopic topic
  end.

Definition _checkForward (a : t) (topic : string) : option ref :=
  match forwardAllUnknown a with
  | Some fw =>
      if negb (has_handler a topic) then Some fw
      else snd <$> List.find (fw_matches topic) (forwardList a)
  | None => snd <$> List.find (fw_matches topic) (forwardList a)
  end.

(** Which of the two operations a call is. *)
Inductive operation := Send | SendAndReceive.

(** What a call of [send] or [sendAndReceive] comes to: a rejected
    promise, the same call on another actor with the same arguments, or
    the call of the mode-specific [send0] / [sendAndReceive0]. *)
Inductive outcome :=
| Rejected (message : string)
| Delegated (target : ref) (op : operation) (topic : string) (args : list value)
| Local (op : operation) (topic : string) (args : list value).

Definition _notReadyErrorPromise (a : t) : outcome :=
  if String.eqb (state a) "new" then
    Rejected "Actor has not yet been initialized."
  else if String.eqb (state a) "crashed" then
    Rejected "Actor crashed, no interaction possible."
  else if String.eqb (state a) "destroying" || String.eqb (state a) "destroyed" then
    Rejected "destroy() has been called for this actor, no further interaction possible"
  else
    Rejected ("Actor cannot accept messages, because it is in " +:+ dquote
              +:+ state a +:+ dquote +:+ " state.").

Definition send (a : t) (topic : string) (message : list value) : outcome :=
  if negb (String.eqb (state a) "ready") then _notReadyErrorPromise a
  else match _checkForward a topic with
       | Some fwActor => Delegated fwActor Send topic message
       | None => Local Send topic message
       end.

Definition sendAndReceive (a : t) (topic : string) (message : list value) : outcome :=
  if negb (String.eqb (state a) "ready") then _notReadyErrorPromise a
  else match _checkForward a topic with
       | Some fwActor => Delegated fwActor SendAndReceive topic message
       | None => Local SendAndReceive topic message
       end.

(** *** The actors of a system *)

(** The heap of actor objects, and the number of promises made so far. *)
Record store := mkStore { actors : gmap string t; nextPromise : nat }.

Definition update (a : string) (f : t -> t) (s : store) : store :=
  mkStore (alter f a (actors s)) (nextPromise s).

Definition progress_of (s : store) (a : string) : option chain :=
  A ← actors s !! a; progress <$> destroyPromise A.

Definition set_progress (c : chain) (a : t) : t :=
  set_destroyPromise ((fun p => mkPromise (pid p) c) <$> destroyPromise a) a.

(** *** Metrics *)

(** [metrics()].  The recursion follows the children through the store;
    [fuel] bounds its depth. *)
Fixpoint metrics (fuel : nat) (s : store) (a : string) : option object :=
  match fuel with
  | O => None
  | S fuel' =>
      A ← actors s !! a;
      let selfMetrics := metrics0 A in
      let ret := if negb (isEmpty selfMetrics) then selfMetrics else [] in
      foldl (fun memo child =>
               memo ← memo;
               C ← actors s !! child;
               childMetrics ← metrics fuel' s child;
               Some (obj_set (name C) (VObj "Object" childMetrics) memo))
            (Some ret) (childPromises A)
  end.

(** *** Destruction *)

(** What can be observed of a destruction, in the order it happens. *)
Inductive event :=
| EvDestroying (a : string)
    (** [a.destroy()] runs for the first time: state ['destroying'] *)
| EvMapper (a child : string)
    (** the mapper of [a] calls [child.destroy()] *)
| EvHookInvoked (a : string)
    (** [a.destroy0()] is called *)
| EvHookCompleted (a : string) (resolved : bool)
    (** the promise of [a.destroy0()] is settled *)
| EvDestroyed (a : string).
    (** state ['destroyed'], and ['destroyed'] is emitted *)

(** The body of [destroy()], up to the promise it returns: the rest of
    the chain runs later, in the steps below. *)
Definition destroy (a : string) (s : store) : option (nat * store * list event) :=
  A ← actors s !! a;
  match destroyPromise A with
  | Some p => Some (pid p, s, [])
  | None =>
      let p := mkPromise (nextPromise s) (Mapping (childPromises A)) in
      Some (pid p,
            mkStore (<[a := set_destroyPromise (Some p) (_setState "destroying" A)]>
                       (actors s))
                    (S (nextPromise s)),
            [EvDestroying a])
  end.

(** [P.map] over the children of the store, whose promises are
    fulfilled: the mapper is called on them in the order of the array,
    in one turn; it calls [child.destroy()] and returns the promise
    without waiting for it.  A promise of [childPromises] that is still
    pending when [destroy()] runs, for which [P.map] would call the
    mapper once it is fulfilled, is not an actor of the store: the
    model speaks of actors whose children have all been created. *)
Fixpoint map_children (a : string) (children : list string) (s : store)
  : option (store * list event) :=
  match children with
  | [] => Some (s, [])
  | child :: rest =>
      '(_, s1, ev1) ← destroy child s;
      '(s2, ev2) ← map_children a rest s1;
      Some (s2, (EvMapper a child :: ev1 ++ ev2)%list)
  end.

(** The promise of [child.destroy()], with its [catch], is settled. *)
Definition settled (s : store) (child : string) : bool :=
  match progress_of s child with
  | Some Fulfilled | Some Failed => true
  | _ => false
  end.

(** [_.without(array, x)]. *)
Definition without (x : string) (array : list string) : list string :=
  filter (fun y => y ≠ x) array.

(** The listener that [createChild] registers on the child: the parent
    drops the child's promise from [childPromises]. *)
Definition on_destroyed (child : string) (s : store) : store :=
  match actors s !! child with
  | Some C =>
      match parent C with
      | Some p => update p (fun P => set_childPromises (without child (childPromises P)) P) s
      | None => s
      end
  | None => s
  end.

(** The callbacks of the chain run one at a time, each when the promise
    before it is settled, and callbacks of different actors in any
    order.  A label names the callback that runs next; [LCall] is a call
    of [destroy()] from outside the chain.  [LHookEnd a] is the
    settlement of the promise that [a.destroy0()] has returned: a hook
    whose promise never settles is one whose [LHookEnd] no schedule
    holds, and the chain of its actor then stays at [InHook]. *)
Inductive label :=
| LCall (a : string)
| LMap (a : string)
| LHookStart (a : string)
| LHookEnd (a : string)
| LFinish (a : string).

Definition step (l : label) (s : store) : option (store * list event) :=
  match l with
  | LCall a =>
      '(_, s', ev) ← destroy a s; Some (s', ev)
  | LMap a =>
      match progress_of s a with
      | Some (Mapping children) =>
          '(s', ev) ← map_children a children s;
          Some (update a (set_progress (Awaiting children)) s', ev)
      | _ => None
      end
  | LHookStart a =>
      match progress_of s a with
      | Some (Awaiting children) =>
          if forallb (settled s) children
          then Some (update a (set_progress InHook) s, [EvHookInvoked a])
          else None
      | _ => None
      end
  | LHookEnd a =>
      A ← actors s !! a;
      match progress_of s a with
      | Some InHook =>
          Some (update a (set_progress (if destroy0 A then Hooked else Failed)) s,
                [EvHookCompleted a (destroy0 A)])
      | _ => None
      end
  | LFinish a =>
      match progress_of s a with
      | Some Hooked =>
          Some (on_destroyed a
                  (update a (fun A => set_progress Fulfilled (_setState "destroyed" A)) s),
                [EvDestroyed a])
      | _ => None
      end
  end.

(** A schedule is run from the left; the events are collected. *)
Fixpoint run (ls : list label) (s : store) : option (store * list event) :=
  match ls with
  | [] => Some (s, [])
  | l :: rest =>
      '(s1, ev1) ← step l s;
      '(s2, ev2) ← run rest s1;
      Some (s2, (ev1 ++ ev2)%list)
  end.

End Actor.

(** ** Views of the store, and what the properties speak of *)

Module Lifecycle.
Import JS Actor.

(** The fields of the actor [a] of the store. *)
Definition kids (s : store) (a : string) : option (list string) :=
  childPromises <$> actors s !! a.

Definition state_of (s : store) (a : string) : option string :=
  state <$> actors s !! a.

Definition name_of (s : store) (a : string) : option string :=
  name <$> actors s !! a.

Definition parent_of (s : store) (c : string) : option (option string) :=
  parent <$> actors s !! c.

(** The identity of [a.destroyPromise]. *)
Definition pid_of (s : store) (a : string) : option nat :=
  A ← actors s !! a; pid <$> destroyPromise A.

(** No actor of the system is being destroyed or is destroyed, and the
    child promises of an actor differ from one another. *)
Definition fresh (s : store) : Prop :=
  ∀ a A, actors s !! a = Some A →
    destroyPromise A = None ∧ state A ≠ "destroyed" ∧ NoDup (childPromises A).

(** The same, as a test on one actor. *)
Definition fresh_actor (A : Actor.t) : bool :=
  match destroyPromise A with None => true | Some _ => false end
  && negb (String.eqb (state A) "destroyed")
  && bool_decide (NoDup (childPromises A)).

(** The children of an actor are the actors it is the parent of. *)
Definition wf_parents (s : store) : Prop :=
  ∀ a cs c, kids s a = Some cs → c ∈ cs → parent_of s c = Some (Some a).

Definition child_of (s : store) (a c : string) : Prop :=
  ∃ cs, kids s a = Some cs ∧ c ∈ cs.

(** [d] is below [a] in the tree of the actors. *)
Inductive descendant (s : store) : string → string → Prop :=
| desc_child a c : child_of s a c → descendant s a c
| desc_step a c d : child_of s a c → descendant s c d → descendant s a d.

(** The children on which the mapper of [a] has called [destroy()], in
    the order of the calls. *)
Definition mapper_children (a : string) (ev : list event) : list string :=
  omap (fun e => match e with
                 | EvMapper b c => if String.eqb b a then Some c else None
                 | _ => None
                 end) ev.

(** The last child of the list, in its order, that is named [k]. *)
Fixpoint last_named (s : store) (k : string) (children : list string) : option string :=
  match children with
  | [] => None
  | c :: rest =>
      match last_named s k rest with
      | Some c' => Some c'
      | None =>
          match name_of s c with
          | Some n => if String.eqb n k then Some c else None
          | None => None
          end
      end
  end.

(** The depth of the hierarchy below [a] is less than [n], and every
    child promise resolves to an actor of the store. *)
Fixpoint hierarchy (n : nat) (s : store) (a : string) : bool :=
  match n with
  | O => false
  | S n' =>
      match actors s !! a with
      | Some A => forallb (hierarchy n' s) (childPromises A)
      | None => false
      end
  end.

(** The function that [P.reduce] folds over the children. *)
Definition collect (fuel : nat) (s : store) (memo : option object) (child : string)
  : option object :=
  memo ← memo;
  C ← actors s !! child;
  childMetrics ← metrics fuel s child;
  Some (obj_set (name C) (VObj "Object" childMetrics) memo).

End Lifecycle.

(** ** What a run preserves *)

Module Trace.
Import JS Actor Lifecycle.

(** How far a chain has come, as a number. *)
Definition rank (c : option chain) : nat :=
  match c with
  | None => 0
  | Some (Mapping _) => 1
  | Some (Awaiting _) => 2
  | Some InHook => 3
  | Some Hooked => 4
  | Some Fulfilled | Some Failed => 5
  end.

(** How the chain of an actor [b] moves in one step, and the event that
    goes with the move. *)
Inductive move (s : store) (ev : list event) (b : string)
  : option chain → option chain → Prop :=
| mv_same c : move s ev b c c
| mv_call cs :
    kids s b = Some cs → EvDestroying b ∈ ev →
    move s ev b None (Some (Mapping cs))
| mv_map cs :
    (∀ c, c ∈ cs → EvMapper b c ∈ ev) →
    move s ev b (Some (Mapping cs)) (Some (Awaiting cs))
| mv_hook cs :
    forallb (settled s) cs = true → EvHookInvoked b ∈ ev →
    move s ev b (Some (Awaiting cs)) (Some InHook)
| mv_end (ok : bool) :
    EvHookCompleted b ok ∈ ev →
    move s ev b (Some InHook) (Some (if ok then Hooked else Failed))
| mv_finish :
    EvDestroyed b ∈ ev → move s ev b (Some Hooked) (Some Fulfilled).

(** What an event of a step says about the chain of its actor, before
    and after the step. *)
Definition fired (s s' : store) (e : event) : Prop :=
  match e with
  | EvDestroying b => progress_of s b = None ∧ progress_of s' b ≠ None
  | EvMapper b c =>
      ∃ cs, progress_of s b = Some (Mapping cs) ∧ c ∈ cs ∧
            progress_of s' b = Some (Awaiting cs)
  | EvHookInvoked b =>
      ∃ cs, progress_of s b = Some (Awaiting cs) ∧ forallb (settled s) cs = true ∧
            progress_of s' b = Some InHook
  | EvHookCompleted b ok =>
      progress_of s b = Some InHook ∧
      progress_of s' b = Some (if ok then Hooked else Failed)
  | EvDestroyed b => progress_of s b = Some Hooked ∧ progress_of s' b = Some Fulfilled
  end.

(** The actor an event is about. *)
Definition subject (e : event) : string :=
  match e with
  | EvDestroying a | EvMapper a _ | EvHookInvoked a
  | EvHookCompleted a _ | EvDestroyed a => a
  end.

(** What an event of the trace says about the chain of its actor from
    then on. *)
Definition reached (c : option chain) (e : event) : Prop :=
  match e with
  | EvDestroying _ => c ≠ None
  | EvMapper _ _ => (2 ≤ rank c)%nat
  | EvHookInvoked _ => (3 ≤ rank c)%nat
  | EvHookCompleted _ true => c = Some Hooked ∨ c = Some Fulfilled
  | EvHookCompleted _ false => c = Some Failed
  | EvDestroyed _ => c = Some Fulfilled
  end.

(** Every occurrence of [e] in the trace comes after an event that
    satisfies [P]. *)
Definition preceded (P : event → Prop) (e : event) (tr : list event) : Prop :=
  ∀ tr1 tr2, tr = (tr1 ++ e :: tr2)%list → ∃ e', e' ∈ tr1 ∧ P e'.

(** The hook of [d] has completed; the destruction of [c] is settled. *)
Definition hook_completed (d : string) (e : event) : Prop :=
  ∃ ok, e = EvHookCompleted d ok.

Definition child_settled (c : string) (e : event) : Prop :=
  e = EvDestroyed c ∨ e = EvHookCompleted c false.

(** What can happen in the turn of the mapper of [a]: the mapper is
    called on a child, and a child on which [destroy()] runs for the
    first time enters ['destroying'].  No hook is invoked or settled,
    and no actor emits ['destroyed']. *)
Definition mapper_turn (a : string) (e : event) : Prop :=
  match e with
  | EvMapper b _ => b = a
  | EvDestroying _ => True
  | _ => False
  end.

(** What holds of the store [s] and of the trace [tr] after any run from
    the store [s0]. *)
Record inv (s0 s : store) (tr : list event) : Prop := mkInv {
  inv_dom : ∀ a, kids s0 a = None → kids s a = None ∧ progress_of s a = None;
  inv_kids : ∀ a cs0, kids s0 a = Some cs0 →
    ∃ cs, kids s a = Some cs ∧ sublist cs cs0 ∧
          ∀ c, c ∈ cs0 → c ∈ cs ∨ progress_of s c = Some Fulfilled;
  inv_snap : ∀ a cs0 cs, kids s0 a = Some cs0 →
    progress_of s a = Some (Mapping cs) ∨ progress_of s a = Some (Awaiting cs) →
    sublist cs cs0 ∧ ∀ c, c ∈ cs0 → c ∈ cs ∨ progress_of s c = Some Fulfilled;
  inv_hook : ∀ a cs0 c, kids s0 a = Some cs0 →
    (3 ≤ rank (progress_of s a))%nat → c ∈ cs0 → settled s c = true;
  inv_state : ∀ a, state_of s a = Some "destroyed" → progress_of s a = Some Fulfilled;
  inv_reached : ∀ e, e ∈ tr → reached (progress_of s (subject e)) e;
  inv_invoked : ∀ a, (3 ≤ rank (progress_of s a))%nat → EvHookInvoked a ∈ tr;
  inv_resolved : ∀ a,
    progress_of s a = Some Hooked ∨ progress_of s a = Some Fulfilled →
    EvHookCompleted a true ∈ tr;
  inv_rejected : ∀ a, progress_of s a = Some Failed → EvHookCompleted a false ∈ tr;
  inv_emitted : ∀ a, progress_of s a = Some Fulfilled → EvDestroyed a ∈ tr;
  inv_NoDup : NoDup tr;
  inv_mapper : ∀ a cs0, kids s0 a = Some cs0 → sublist (mapper_children a tr) cs0;
  inv_mapped : ∀ a cs0 c, kids s0 a = Some cs0 →
    (2 ≤ rank (progress_of s a))%nat → c ∈ cs0 →
    EvMapper a c ∈ tr ∨ EvDestroyed c ∈ tr;
  inv_post : ∀ a d, descendant s0 a d →
    preceded (hook_completed d) (EvHookInvoked a) tr;
  inv_before : ∀ a c, child_of s0 a c →
    preceded (child_settled c) (EvHookInvoked a) tr;
  inv_own : ∀ a, preceded (eq (EvHookCompleted a true)) (EvDestroyed a) tr
}.

End Trace.

(** ** [lib/actor-system.js] *)

Module ActorSystem.
Import JS.

(** A marshaller as the registry holds it after [_initializeMarshallers]:
    [type] is a type name it is registered under, the last of its
    types. *)
Record marshaller := mkMarshaller {
  type : string;
  marshall : value -> value;
  unmarshall : value -> value
}.

(** The system, as far as the transport uses it.  The two reference
    marshallers are parameters of the system: what their [marshall] and
    [unmarshall] do is left open. *)
Record t := mkSystem {
  marshallers : gmap string marshaller;
  forkedActorReferenceMarshaller : marshaller;
  remoteActorReferenceMarshaller : marshaller
}.

(** The name of the class of a message.  [_.result(type.constructor,
    'typeName') || type.constructor.name] is the constructor name of the
    model; a falsy message has no type name. *)
Definition _typeName (message : value) : option string :=
  if negb (truthy message) then None
  else match message with
       | VBool _ => Some "Boolean"
       | VNum _ => Some "Number"
       | VStr _ => Some "String"
       | VArr _ => Some "Array"
       | VObj ctor _ => Some ctor
       | VActor _ => Some "Actor"
       | VServer _ _ => Some "Server"
       | VUndefined | VNull => None
       end.

(** [this.marshallers[typeName]]; only strings name a type. *)
Definition getMarshaller (sys : t) (typeName : value) : option marshaller :=
  match typeName with
  | VStr n => marshallers sys !! n
  | _ => None
  end.

Definition getMarshallerForMessage (sys : t) (message : value) : option marshaller :=
  n ← _typeName message; marshallers sys !! n.

Definition getForkedActorReferenceMarshaller (sys : t) : marshaller :=
  mkMarshaller "InterProcessReference"
    (marshall (forkedActorReferenceMarshaller sys))
    (unmarshall (forkedActorReferenceMarshaller sys)).

Definition getRemoteActorReferenceMarshaller (sys : t) : marshaller :=
  mkMarshaller "InterHostReference"
    (marshall (remoteActorReferenceMarshaller sys))
    (unmarshall (remoteActorReferenceMarshaller sys)).

(** The module variable [defaultSystem] and the number of systems
    constructed so far; a system is known by its number. *)
Record globals := mkGlobals { defaultSystem : option nat; constructed : nat }.

(** [ActorSystem.default()]: the new globals and what is returned
    ([None] is [undefined]). *)
Definition default (g : globals) : globals * option nat :=
  match defaultSystem g with
  | Some _ =>
      let fresh := constructed g in
      (mkGlobals (Some fresh) (S fresh), Some fresh)
  | None => (g, None)
  end.

(** The globals when the module has just been loaded. *)
Definition loaded : globals := mkGlobals None 0.

(** [n] calls of [default()], and what each of them returned. *)
Fixpoint defaults (n : nat) (g : globals) : globals * list (option nat) :=
  match n with
  | O => (g, [])
  | S n' =>
      let '(g1, r) := default g in
      let '(g2, rs) := defaults n' g1 in
      (g2, r :: rs)
  end.

End ActorSystem.

(** ** [lib/forked-actor.js] *)

Module ForkedActor.
Import JS.

(** *** Envelopes *)

(** The body of an envelope: the properties the proxy reads. *)
Record body := mkBody {
  topic : option string;
  message : value;
  marshalledType : value;
  receive : bool;
  response : value;
  error : option string
}.

(** An envelope.  [id] is [None] when the property is absent. *)
Record envelope := mkEnvelope {
  type : string;
  id : option N;
  actorId : option string;
  body_of : option body
}.

(** [!msg.id] is [negb (has_id msg)]. *)
Definition has_id (msg : envelope) : bool :=
  match id msg with
  | Some n => negb (n =? 0)%N
  | None => false
  end.

(** The options of [_send0]. *)
Record options := mkOptions {
  opt_receive : bool;
  opt_timeout : option Z;
  opt_actorId : option string;
  opt_socketHandle : option value
}.

(** [{}] *)
Definition no_options : options := mkOptions false None None None.

(** *** The proxy *)

(** A promise made by [P.pending()]. *)
Inductive settlement :=
| Pending
| Resolved (v : value)
| RejectedWith (message : string).

Record TimeoutObject := mkTimeout { timeout : Z; msgId : N }.

(** The proxy object.  [actor_id] is [getId()] and [parent_id] is the
    identifier of [this.parent], [None] for an actor without parent, on
    which [getParent().getId()] throws; [pendings] holds the promises made by
    [P.pending()], by their identity, [timeoutWorkerInterval] says
    whether the interval of the timeout worker is set, and [sent] are
    the calls of [bus.send], the latest first. *)
Record t := mkForked {
  actor_id : string;
  parent_id : option string;
  idCounter : N;
  responsePromises : gmap N nat;
  timeouts : list TimeoutObject;
  timeoutWorkerInterval : bool;
  lastReceiveTimestamp : option Z;
  pendings : gmap nat settlement;
  nextPending : nat;
  sent : list (envelope * option value)
}.

(** The fields set by the constructor. *)
Definition constructor (i : string) (parent : option string) : t :=
  mkForked i parent 1 ∅ [] true None ∅ 0 [].

(** [promise.resolve(v)] and [promise.reject(e)]: a settled promise does
    not change. *)
Definition settle (d : nat) (outcome : settlement) (ps : gmap nat settlement)
  : gmap nat settlement :=
  match ps !! d with
  | Some Pending => <[d := outcome]> ps
  | _ => ps
  end.

(** The body of the timeout worker, after [now = _.now()]. *)
Fixpoint timeoutWorker (now : Z) (ts : list TimeoutObject)
  (rp : gmap N nat) (ps : gmap nat settlement)
  : list TimeoutObject * gmap N nat * gmap nat settlement :=
  match ts with
  | [] => ([], rp, ps)
  | timeoutObject :: rest =>
      if (timeout timeoutObject <=? now)%Z then
        let promise := rp !! msgId timeoutObject in
        let rp' := delete (msgId timeoutObject) rp in
        let ps' := match promise with
                   | Some d => settle d (RejectedWith "Response timed out.") ps
                   | None => ps
                   end in
        timeoutWorker now rest rp' ps'
      else (ts, rp, ps)
  end.

Definition tick (now : Z) (st : t) : t :=
  let '(ts, rp, ps) := timeoutWorker now (timeouts st) (responsePromises st) (pendings st) in
  mkForked (actor_id st) (parent_id st) (idCounter st) rp ts (timeoutWorkerInterval st)
    (lastReceiveTimestamp st) ps (nextPending st) (sent st).

(** [_.sortedIndex(array, obj, 'timeout')]: a binary search for the
    lowest index at which [obj] can be inserted. *)
Fixpoint sortedIndex_loop (fuel : nat) (array : list TimeoutObject) (value : Z)
  (low high : nat) : nat :=
  match fuel with
  | O => low
  | S fuel' =>
      if (low <? high)%nat then
        let mid := ((low + high) / 2)%nat in
        match array !! mid with
        | Some x =>
            if (timeout x <? value)%Z
            then sortedIndex_loop fuel' array value (mid + 1) high
            else sortedIndex_loop fuel' array value low mid
        | None => low
        end
      else low
  end.

Definition sortedIndex (array : list TimeoutObject) (obj : TimeoutObject) : nat :=
  sortedIndex_loop (length array) array (timeout obj) 0 (length array).

(** [array.splice(idx, 0, obj)] *)
Definition splice (idx : nat) (obj : TimeoutObject) (array : list TimeoutObject)
  : list TimeoutObject :=
  (take idx array ++ obj :: drop idx array)%list.

(** [_send0(msg, options)] at the time [now].  The result is the new
    state, the identifier of the envelope and [ret]: the promise that
    [_send0] returns settles with the acknowledgement of the bus, and on
    success follows the pending promise [ret], or yields [undefined]
    when [ret] is [None]. *)
Definition _send0 (now : Z) (msg : envelope) (opts : options) (st : t)
  : t * N * option nat :=
  let '(msgId, counter) :=
    match id msg with
    | Some n => if (n =? 0)%N then (idCounter st, (idCounter st + 1)%N)
                else (n, idCounter st)
    | None => (idCounter st, (idCounter st + 1)%N)
    end in
  let target :=
    match opt_actorId opts with
    | Some a => if String.eqb a "" then actor_id st else a
    | None => actor_id st
    end in
  let msg' := mkEnvelope (type msg) (Some msgId) (Some target) (body_of msg) in
  let out := (msg', opt_socketHandle opts) :: sent st in
  if opt_receive opts then
    let pending := nextPending st in
    let ts :=
      match opt_timeout opts with
      | Some t =>
          if (0 <? t)%Z then
            let timeoutObject := mkTimeout (now + t)%Z msgId in
            splice (sortedIndex (timeouts st) timeoutObject) timeoutObject (timeouts st)
          else timeouts st
      | None => timeouts st
      end in
    (mkForked (actor_id st) (parent_id st) counter
       (<[msgId := pending]> (responsePromises st)) ts
       (timeoutWorkerInterval st) (lastReceiveTimestamp st)
       (<[pending := Pending]> (pendings st)) (S pending) out,
     msgId, Some pending)
  else
    (mkForked (actor_id st) (parent_id st) counter (responsePromises st) (timeouts st)
       (timeoutWorkerInterval st) (lastReceiveTimestamp st)
       (pendings st) (nextPending st) out,
     msgId, None).

Definition _sendErrorResponse (now : Z) (msgId : N) (errorText : string) (st : t) : t :=
  fst (fst (_send0 now
              (mkEnvelope "actor-response" (Some msgId) None
                 (Some (mkBody None VUndefined VUndefined false VUndefined (Some errorText))))
              no_options st)).

(** *** The listener of the bus *)

(** What the listener asks of the wrapped actor and of the system; the
    answers are sent by later calls of [_send0]. *)
Inductive action :=
| Warn (text : string)
| Deliver (toParent : bool) (msg : envelope) (handle : option value)
    (** decode the body, then [send] or [sendAndReceive] on the wrapped
        actor or on the parent *)
| Tree (msgId : N)
| Metrics (msgId : N)
| DestroyWrapped (msgId : N)
| RemoveAllListeners
| DestroySystem
| Throws (text : string).
    (** the listener throws: nothing is sent, and nothing is asked of
        the wrapped actor *)

Definition set_received (now : Z) (st : t) : t :=
  mkForked (actor_id st) (parent_id st) (idCounter st) (responsePromises st)
    (timeouts st) (timeoutWorkerInterval st) (Some now) (pendings st)
    (nextPending st) (sent st).

(** [delete this.responsePromises[msgId]], and the promise settled. *)
Definition answer (msgId : N) (d : nat) (outcome : settlement) (st : t) : t :=
  mkForked (actor_id st) (parent_id st) (idCounter st)
    (delete msgId (responsePromises st)) (timeouts st) (timeoutWorkerInterval st)
    (lastReceiveTimestamp st) (settle d outcome (pendings st)) (nextPending st) (sent st).

Definition clearInterval (st : t) : t :=
  mkForked (actor_id st) (parent_id st) (idCounter st) (responsePromises st)
    (timeouts st) false (lastReceiveTimestamp st) (pendings st) (nextPending st) (sent st).

Definition is_self (msg : envelope) (st : t) : bool :=
  match actorId msg with
  | Some a => String.eqb a (actor_id st)
  | None => false
  end.

(** [parent.getId() == msg.actorId], where [parent] is [getParent()]:
    a new proxy around [this.parent], which is truthy also when the
    actor has no parent.  [getId()] of the proxy asks the parent for its
    identifier, so that on an actor without parent it throws a
    [TypeError]: this is [None]. *)
Definition is_parent (msg : envelope) (st : t) : option bool :=
  match parent_id st with
  | Some p =>
      Some (match actorId msg with
            | Some a => String.eqb p a
            | None => false
            end)
  | None => None
  end.

(** The listener of ['message'], at the time [now]. *)
Definition on_message (now : Z) (msg : envelope) (handle : option value) (st : t)
  : t * list action :=
  let st := set_received now st in
  match id msg with
  | None => (st, [Warn "Missing ID in actor message (ignoring):"])
  | Some msgId =>
    if (msgId =? 0)%N then (st, [Warn "Missing ID in actor message (ignoring):"])
    else if String.eqb (type msg) "actor-message" then
      match body_of msg with
      | None => (_sendErrorResponse now msgId "Missing message body" st, [])
      | Some b =>
          match topic b with
          | None => (_sendErrorResponse now msgId "Missing message topic" st, [])
          | Some tp =>
              if String.eqb tp "" then
                (_sendErrorResponse now msgId "Missing message topic" st, [])
              else if is_self msg st then (st, [Deliver false msg handle])
              else match is_parent msg st with
                   | Some true => (st, [Deliver true msg handle])
                   | Some false =>
                       (_sendErrorResponse now msgId
                          "Target actor ID doesn't match neither self nor parent" st, [])
                   | None =>
                       (st, [Throws "TypeError"])
                   end
          end
      end
    else if negb (is_self msg st) then (st, [])
    else if String.eqb (type msg) "actor-tree" then (st, [Tree msgId])
    else if String.eqb (type msg) "actor-metrics" then (st, [Metrics msgId])
    else if String.eqb (type msg) "actor-response"
            || String.eqb (type msg) "parent-pong" then
      match responsePromises st !! msgId with
      | None => (st, [Warn "No pending promise for"])
      | Some respPromise =>
          match body_of msg with
          | Some b =>
              match error b with
              | Some e =>
                  if String.eqb e "" then (answer msgId respPromise (Resolved (response b)) st, [])
                  else (answer msgId respPromise (RejectedWith e) st, [])
              | None => (answer msgId respPromise (Resolved (response b)) st, [])
              end
          | None => (answer msgId respPromise (Resolved VUndefined) st, [])
          end
      end
    else if String.eqb (type msg) "destroy-actor" then (st, [DestroyWrapped msgId])
    else if String.eqb (type msg) "actor-destroyed" then
      let st := clearInterval st in
      let st :=
        match responsePromises st !! msgId with
        | Some respPromise0 => answer msgId respPromise0 (Resolved VUndefined) st
        | None => st
        end in
      (fst (fst (_send0 now (mkEnvelope "actor-destroyed-ack" None None None) no_options st)),
       [])
    else if String.eqb (type msg) "actor-destroyed-ack" then
      (st, [RemoveAllListeners; DestroySystem])
    else if String.eqb (type msg) "parent-ping" then
      (fst (fst (_send0 now (mkEnvelope "parent-pong" (Some msgId) None None) no_options st)),
       [])
    else (st, [Warn "Ignoring message of an unknown type:"])
  end.

(** *** What happens to a proxy *)

Inductive input :=
| ISend (now : Z) (msg : envelope) (opts : options)
    (** a call of [_send0] *)
| IMessage (now : Z) (msg : envelope) (handle : option value)
    (** the bus emits ['message'] *)
| ITick (now : Z).
    (** a second has passed since the last run of the timeout worker *)

Definition react (st : t) (i : input) : t :=
  match i with
  | ISend now msg opts => fst (fst (_send0 now msg opts st))
  | IMessage now msg handle => fst (on_message now msg handle st)
  | ITick now => if timeoutWorkerInterval st then tick now st else st
  end.

Definition run (inputs : list input) (st : t) : t := foldl react st inputs.

(** *** Marshalling *)

(** [array[idx] = v] on an array that may be shorter than [idx]. *)
Fixpoint js_set (idx : nat) (v : value) (array : list value) : list value :=
  match idx, array with
  | O, [] => [v]
  | O, _ :: rest => v :: rest
  | S idx', [] => VUndefined :: js_set idx' v []
  | S idx', x :: rest => x :: js_set idx' v rest
  end.

(** The character of [s] at [idx], as a string. *)
Fixpoint char_at (idx : nat) (s : string) : value :=
  match s, idx with
  | EmptyString, _ => VUndefined
  | String c _, O => VStr (String c EmptyString)
  | String _ rest, S idx' => char_at idx' rest
  end.

(** [v[idx]]; [None] is the [TypeError] of reading a property of
    [undefined] or [null]. *)
Definition js_index (v : value) (idx : nat) : option value :=
  match v with
  | VUndefined | VNull => None
  | VArr elems => Some (nth idx elems VUndefined)
  | VStr s => Some (char_at idx s)
  | _ => Some VUndefined
  end.

Definition instanceof_Actor (v : value) : bool :=
  match v with VActor _ => true | _ => false end.

(** [v == s] for a string [s], on the values that name a type. *)
Definition is_string (v : value) (s : string) : bool :=
  match v with VStr x => String.eqb x s | _ => false end.

Section Marshalling.

Variable sys : ActorSystem.t.

Definition _getReferenceMarshaller : ActorSystem.marshaller :=
  ActorSystem.getForkedActorReferenceMarshaller sys.

(** The mapper of [P.map] in [_sendActorMessage], from the index [idx]
    on: the message parts and [marshalledTypes]. *)
Fixpoint marshall_parts (idx : nat) (message : list value) (marshalledTypes : list value)
  : list value * list value :=
  match message with
  | [] => ([], marshalledTypes)
  | subMessage :: rest =>
      let marshaller :=
        if instanceof_Actor subMessage then Some _getReferenceMarshaller
        else ActorSystem.getMarshallerForMessage sys subMessage in
      match marshaller with
      | Some m =>
          let '(parts, types) :=
            marshall_parts (S idx) rest
              (js_set idx (VStr (ActorSystem.type m)) marshalledTypes) in
          (ActorSystem.marshall m subMessage :: parts, types)
      | None =>
          let '(parts, types) := marshall_parts (S idx) rest marshalledTypes in
          (subMessage :: parts, types)
      end
  end.

(** The envelope that [_sendActorMessage] hands to [_send0], and the
    socket handle that goes with it. *)
Definition actorMessage (tp : string) (message : list value) (rcv : bool)
  : envelope * option value :=
  match message with
  | [VServer HttpServer fd] =>
      (mkEnvelope "actor-message" None None
         (Some (mkBody (Some tp) (VObj "Object" [("handleType", VStr "http.Server")])
                  VUndefined rcv VUndefined None)),
       Some (VServer HttpServer fd))
  | [VServer NetServer fd] =>
      (mkEnvelope "actor-message" None None
         (Some (mkBody (Some tp) (VObj "Object" [("handleType", VStr "net.Server")])
                  VUndefined rcv VUndefined None)),
       Some (VServer NetServer fd))
  | _ =>
      let '(messageParts, marshalledTypes) := marshall_parts 0 message [] in
      let '(parts, types) :=
        if (length messageParts =? 1)%nat
        then (nth 0 messageParts VUndefined, nth 0 marshalledTypes VUndefined)
        else (VArr messageParts, VArr marshalledTypes) in
      (mkEnvelope "actor-message" None None
         (Some (mkBody (Some tp) parts types rcv VUndefined None)),
       None)
  end.

Definition _sendActorMessage (now : Z) (tp : string) (message : list value)
  (opts : options) (st : t) : t * N * option nat :=
  let '(msg, socketHandle) := actorMessage tp message (opt_receive opts) in
  match socketHandle with
  | Some h =>
      _send0 now msg
        (mkOptions (opt_receive opts) (opt_timeout opts) (opt_actorId opts) (Some h)) st
  | None => _send0 now msg opts st
  end.

(** A decoded message, or the error the promise is rejected with. *)
Inductive decoded :=
| Arguments (args : list value)
| UnknownHandleType
| TypeError.

(** The mapper of [P.map] in [_decodeMessageBody], from the index [idx]
    on. *)
Fixpoint unmarshall_parts (idx : nat) (message : list value) (marshalledTypes : value)
  : option (list value) :=
  match message with
  | [] => Some []
  | subMessage :: rest =>
      tp ← js_index marshalledTypes idx;
      part ←
        (if truthy tp then
           let marshaller :=
             if is_string tp "InterProcessReference" then
               Some (ActorSystem.getForkedActorReferenceMarshaller sys)
             else if is_string tp "InterHostReference" then
               Some (ActorSystem.getRemoteActorReferenceMarshaller sys)
             else ActorSystem.getMarshaller sys tp in
           m ← marshaller; Some (ActorSystem.unmarshall m subMessage)
         else Some subMessage);
      parts ← unmarshall_parts (S idx) rest marshalledTypes;
      Some (part :: parts)
  end.

Definition _decodeMessageBody (b : body) (handle : option value) : decoded :=
  match handle with
  | Some h =>
      match message b with
      | VUndefined | VNull => TypeError
      | VObj _ fields =>
          match obj_get "handleType" fields with
          | Some (VStr "net.Server") => Arguments [h]
          | Some (VStr "http.Server") =>
              match h with
              | VServer _ fd => Arguments [VServer HttpServer fd]
              | _ => Arguments [h]
              end
          | _ => UnknownHandleType
          end
      | _ => UnknownHandleType
      end
  | None =>
      let '(msg, marshalledTypes) :=
        if negb (truthy (message b)) then (VArr [], VArr [])
        else (message b, marshalledType b) in
      let '(msg, marshalledTypes) :=
        match msg with
        | VArr elems => (elems, marshalledTypes)
        | _ => ([msg], VArr [marshalledTypes])
        end in
      match unmarshall_parts 0 msg marshalledTypes with
      | Some args => Arguments args
      | None => TypeError
      end
  end.

End Marshalling.

End ForkedActor.


(** ** Requests and their responses: what the properties speak of *)

Module Correlation.
Import JS ForkedActor.

(** The deadlines of the list do not decrease. *)
Fixpoint sorted (ts : list TimeoutObject) : Prop :=
  match ts with
  | [] => True
  | x :: rest => Forall (fun y => (timeout x ≤ timeout y)%Z) rest ∧ sorted rest
  end.

(** An input as the proxy causes them: [_send0] is called with an
    identifier already in the envelope only to answer the peer, without
    [receive]. *)
Definition from_source (i : input) : Prop :=
  match i with
  | ISend _ msg opts => has_id msg = false ∨ opt_receive opts = false
  | _ => True
  end.

(** What holds of a proxy after any such inputs. *)
Record wf (st : t) : Prop := mkWf {
  wf_keys : ∀ k d, responsePromises st !! k = Some d →
                   (k < idCounter st)%N ∧ (d < nextPending st)%nat;
  wf_inj : ∀ k1 k2 d, responsePromises st !! k1 = Some d →
                      responsePromises st !! k2 = Some d → k1 = k2;
  wf_timeouts : ∀ e, e ∈ timeouts st → (msgId e < idCounter st)%N;
  wf_sorted : sorted (timeouts st);
  wf_counter : (0 < idCounter st)%N
}.

(** The identifier that [_send0] gives to an envelope. *)
Definition assigned (msg : envelope) (st : t) : N :=
  match id msg with
  | Some n => if (n =? 0)%N then idCounter st else n
  | None => idCounter st
  end.




(** The marshaller that [_decodeMessageBody] takes for a type name. *)
Definition decoder (sys : ActorSystem.t) (tp : string) : option ActorSystem.marshaller :=
  if String.eqb tp "InterProcessReference" then
    Some (ActorSystem.getForkedActorReferenceMarshaller sys)
  else if String.eqb tp "InterHostReference" then
    Some (ActorSystem.getRemoteActorReferenceMarshaller sys)
  else ActorSystem.marshallers sys !! tp.

(** The marshaller [m] is undone on the other side: its type name is not
    empty, and the marshaller found there under this name restores what
    [m] has marshalled. *)
Definition undone (sys : ActorSystem.t) (m : ActorSystem.marshaller) : Prop :=
  ActorSystem.type m ≠ "" ∧
  ∃ m', decoder sys (ActorSystem.type m) = Some m' ∧
        ∀ v, ActorSystem.unmarshall m' (ActorSystem.marshall m v) = v.

(** Every marshaller of the system is undone on the other side. *)
Definition consistent (sys : ActorSystem.t) : Prop :=
  undone sys (ActorSystem.getForkedActorReferenceMarshaller sys) ∧
  ∀ n m, ActorSystem.marshallers sys !! n = Some m → undone sys m.

(** The message is not a single server handle, which travels beside the
    envelope. *)
Definition no_handle (message : list value) : Prop :=
  match message with
  | [VServer _ _] => False
  | _ => True
  end.

End Correlation.

(** ** Sample actors *)

Module Samples.
Import JS Actor.

(** An actor without behaviour of its own, in state [st]. *)
Definition plain (i st : string) : Actor.t :=
  mkActor i "" st ∅ [] None None [] None true [].

(** A ready actor with no handler that forwards ["plus"] to a child and,
    after [forwardToParent(true)], everything unknown to its parent. *)
Definition relay : Actor.t :=
  mkActor "relay" "" "ready" ∅
    [(MString "plus", ChildActor "calc")]
    (Some (ParentActorProxy "root")) (Some "root") ["calc"] None true [].

(** The same actor with a handler for ["plus"] and a forward list that
    starts with a regular expression matching topics that begin with
    ["math"]. *)
Definition relay_with_handler : Actor.t :=
  mkActor "relay" "" "ready" {[ "plus" := PFunction ]}
    [(MRegExp (mkRegExp "^math" (String.prefix "math")), ChildActor "math");
     (MString "plus", ChildActor "calc");
     (MString "plus", ChildActor "other")]
    (Some (ParentActorProxy "root")) (Some "root") ["math"; "calc"; "other"] None true [].

(** An actor named [nm] with children, in state ['ready']. *)
Definition node (i nm : string) (par : option string) (children : list string)
  (hook : bool) (own : object) : Actor.t :=
  mkActor i nm "ready" ∅ [] None par children None hook own.

(** A root, its child and its grandchild. *)
Definition tree3 : store :=
  mkStore (<["root" := node "root" "Root" None ["child"] true []]>
           (<["child" := node "child" "Child" (Some "root") ["grandchild"] true []]>
            {["grandchild" := node "grandchild" "Grandchild" (Some "child") [] true []]}))
          0.

(** The callbacks of the three chains, taken as they become ready, with
    two more calls of [destroy()] on the way. *)
Definition tree3_schedule : list label :=
  [LCall "root"; LMap "root"; LCall "root"; LMap "child"; LMap "grandchild";
   LHookStart "grandchild"; LHookEnd "grandchild"; LFinish "grandchild";
   LCall "child";
   LHookStart "child"; LHookEnd "child"; LFinish "child";
   LHookStart "root"; LHookEnd "root"; LFinish "root"].

(** A parent with the metrics [{parentMetric: 111}] and two children,
    made in this order, that yield [{childMetric: 222}] and
    [{childMetric: 333}]. *)
Definition family (name1 name2 : string) : store :=
  mkStore (<["parent" := node "parent" "Parent" None ["first"; "second"] true
                           [("parentMetric", VNum 111)]]>
           (<["first" := node "first" name1 (Some "parent") [] true
                           [("childMetric", VNum 222)]]>
            {["second" := node "second" name2 (Some "parent") [] true
                            [("childMetric", VNum 333)]]}))
          0.

(** Every callback that is ready runs before the callbacks it makes
    ready: the order of a queue. *)
Definition family_schedule : list label :=
  [LCall "parent"; LMap "parent"; LMap "first"; LMap "second";
   LHookStart "first"; LHookStart "second"; LHookEnd "first"; LHookEnd "second";
   LFinish "first"; LFinish "second";
   LHookStart "parent"; LHookEnd "parent"; LFinish "parent"].

(** A system without marshallers of its own; its reference marshaller
    wraps the reference. *)
Definition plain_system : ActorSystem.t :=
  ActorSystem.mkSystem ∅
    (ActorSystem.mkMarshaller "InterProcessReference"
       (fun v => VObj "Reference" [("actor", v)])
       (fun v => match v with VObj _ [(_, a)] => a | _ => v end))
    (ActorSystem.mkMarshaller "InterHostReference"
       (fun v => VObj "Reference" [("actor", v)])
       (fun v => match v with VObj _ [(_, a)] => a | _ => v end)).

(** A request to the peer, and what [sendAndReceive0] would pass with a
    timeout. *)
Definition request : ForkedActor.envelope :=
  ForkedActor.mkEnvelope "actor-message" None None
    (Some (ForkedActor.mkBody (Some "hello") (VNum 123) VUndefined true VUndefined None)).

Definition with_timeout (t : Z) : ForkedActor.options :=
  ForkedActor.mkOptions true (Some t) None None.


End Samples.


(** ** [lib/actor.js]: registering forwards *)

Module Forwarding.
Import JS Actor.

Definition set_forwardList (fl : list (matcher * ref)) (a : t) : t :=
  mkActor (id a) (name a) (state a) (definition a) fl
    (forwardAllUnknown a) (parent a) (childPromises a) (destroyPromise a)
    (destroy0 a) (metrics0 a).

Definition set_forwardAllUnknown (fw : option ref) (a : t) : t :=
  mkActor (id a) (name a) (state a) (definition a) (forwardList a)
    fw (parent a) (childPromises a) (destroyPromise a)
    (destroy0 a) (metrics0 a).

(** [getParent()]: a new proxy around [this.parent].  An actor without
    parent gives [None]: the proxy then wraps [undefined]. *)
Definition getParent (a : t) : option ref := ParentActorProxy <$> parent a.

(** The arguments of [forwardToParent]: the single [true], or topics
    that are strings or regular expressions. *)
Inductive topics :=
| AllUnknown
| Topics (ts : list matcher).

(** [_.each(topics, topic => this.forwardList.push([topic, target]))] *)
Definition push_topics (ts : list matcher) (target : ref) (a : t) : t :=
  set_forwardList (forwardList a ++ map (fun topic => (topic, target)) ts) a.

Definition forwardToParent (tps : topics) (a : t) : option t :=
  match tps with
  | AllUnknown => p ← getParent a; Some (set_forwardAllUnknown (Some p) a)
  | Topics [] => Some a
  | Topics ts => p ← getParent a; Some (push_topics ts p a)
  end.

(** The callback of [forwardToChild(childActor, ...topics)], run on the
    array [children] that [P.all(this.childPromises)] has resolved to.
    [None] is the error "Cannot forward ... because it's not a child of
    ...", with which the promise is rejected. *)
Definition forwardToChild_then (children : list string) (childActor : string)
  (ts : list matcher) (a : t) : option t :=
  if bool_decide (childActor ∈ children)
  then Some (push_topics ts (ChildActor childActor) a)
  else None.

(** The call and its callback, with nothing in between. *)
Definition forwardToChild (childActor : string) (ts : list matcher) (a : t) : option t :=
  forwardToChild_then (childPromises a) childActor ts a.

(** A topic of the forward list matches the topic of a message: the
    test of [_checkForward] on the first component of an item. *)
Definition topic_matches (topic : string) (m : matcher) : bool :=
  match m with
  | MRegExp re => re_test re topic
  | MString fwTopic => String.eqb fwTopic topic
  end.

(** What a call that the actor would handle itself becomes when the
    topics [ts] are forwarded to [target]; other calls stay. *)
Definition redirected (ts : list matcher) (target : ref) (out : outcome) : outcome :=
  match out with
  | Local op topic args =>
      if existsb (topic_matches topic) ts then Delegated target op topic args
      else Local op topic args
  | _ => out
  end.

End Forwarding.

(** ** [lib/actor.js]: the state and the forwards during a destruction *)

Module Lifetime.
Import JS Actor Lifecycle.

(** The state an actor is in, by how far its destruction has come:
    [st0] while [destroy()] has not been called. *)
Definition state_at (c : option chain) (st0 : option string) : option string :=
  match c with
  | None => st0
  | Some Fulfilled => Some "destroyed"
  | Some _ => Some "destroying"
  end.

(** What the dispatch of an actor reads besides its state. *)
Definition table_of (s : store) (a : string)
  : option (gmap string property * list (matcher * ref) * option ref) :=
  (fun A => (definition A, forwardList A, forwardAllUnknown A)) <$> actors s !! a.

(** What holds of the states and of the forwarding tables after any run
    from the store [s0]. *)
Record standing (s0 s : store) (tr : list event) : Prop := mkStanding {
  st_state : ∀ b, state_of s b = state_at (progress_of s b) (state_of s0 b);
  st_table : ∀ b, table_of s b = table_of s0 b;
  st_called : ∀ b, progress_of s b ≠ None → EvDestroying b ∈ tr
}.

End Lifetime.

(** ** [lib/actor.js]: [tree()] and the children of an actor *)

Module Hierarchy.
Import JS Actor Lifecycle.

Section Tree.

(** The [location0()] hook of each actor: what it yields, or [None]
    when it throws or its promise is rejected. *)
Variable location0 : string -> option value.

(** [tree()].  The recursion follows the children through the store;
    [fuel] bounds its depth. *)
Fixpoint tree (fuel : nat) (s : store) (a : string) : option value :=
  match fuel with
  | O => None
  | S fuel' =>
      A ← actors s !! a;
      location ← location0 a;
      childTrees ← mapM (tree fuel' s) (childPromises A);
      Some (VObj "Object"
              ([("id", VStr (id A)); ("name", VStr (name A)); ("location", location)]
               ++ match childTrees with
                  | [] => []
                  | _ => [("children", VArr childTrees)]
                  end))
  end.

End Tree.

(** The children of the actor have it as their parent: a test. *)
Definition parented (s : store) (a : string) (A : Actor.t) : bool :=
  forallb (fun c => bool_decide (parent_of s c = Some (Some a))) (childPromises A).

(** The child has not emitted ['destroyed']. *)
Definition live (s : store) (c : string) : Prop := state_of s c ≠ Some "destroyed".

End Hierarchy.

(** ** [lib/actor.js]: the end of a destruction *)

Module Ending.
Import JS Actor Lifecycle.

(** A [destroy0()] hook may return a promise that never settles: the
    callback [LHookEnd] of its actor then never runs.  [hangs] tells
    the actors with such a hook; a schedule is possible when it settles
    the hook of none of them. *)
Definition possible (hangs : string → bool) (ls : list label) : bool :=
  forallb (fun l => match l with
                    | LHookEnd a => negb (hangs a)
                    | _ => true
                    end) ls.

(** The actor [a] and the actors below it. *)
Definition below (s0 : store) (a d : string) : Prop :=
  d = a ∨ descendant s0 a d.

(** From every state that a run from [s0] has led to and in which
    [destroy()] has been called on [a], callbacks can run, without the
    settlement of a hook that hangs, that settle the promise of [a]. *)
Definition can_settle (hangs : string → bool) (s0 : store) (a : string) : Prop :=
  ∀ ls s tr, Actor.run ls s0 = Some (s, tr) → progress_of s a ≠ None →
    ∃ ls' s' tr',
      possible hangs ls' = true ∧
      Actor.run ls' s = Some (s', tr') ∧ settled s' a = true.

End Ending.

(** ** [lib/actor.js]: [createChild] *)

Module Creation.
Import JS Actor Lifecycle.

(** What a call of [createChild] comes to. *)
Inductive creation :=
| NotReady (out : outcome)
    (** the actor is neither ['new'] nor ['ready'] *)
| NotCreated (s : store)
    (** the creation or the initialization of the child has failed: the
        promise is rejected and taken out of [childPromises] again *)
| Created (s : store).
    (** the promise is fulfilled with the child *)

(** [createChild], with the creation of the child run to its end.
    [child] is the identity of the new actor object, and [made] is the
    actor that [system.createActor] has made with [this] as its parent
    and that [initialize()] has readied, or [None] when one of the two
    has failed.  The listener of ['destroyed'] that is registered on the
    child is [on_destroyed], which finds the parent in the child. *)
Definition createChild (child : string) (made : option Actor.t) (a : string) (s : store)
  : option creation :=
  A ← actors s !! a;
  if negb (String.eqb (state A) "new") && negb (String.eqb (state A) "ready")
  then Some (NotReady (_notReadyErrorPromise A))
  else match made with
       | Some C =>
           Some (Created
                   (mkStore (<[child := C]>
                               (<[a := set_childPromises (childPromises A ++ [child])%list A]>
                                  (actors s)))
                            (nextPromise s)))
       | None => Some (NotCreated s)
       end.

(** A new child of [a] as the constructor makes it, with [a] as its
    parent, whose [initialize()] has created no children of its own and
    has not called [destroy()] on it. *)
Definition newborn (a : string) (C : Actor.t) : Prop :=
  parent C = Some a ∧ childPromises C = [] ∧ destroyPromise C = None ∧
  state C ≠ "destroyed".

End Creation.

(** ** [lib/forked-actor.js]: the calls of the actor, and the two sides of a bus *)

Module Transport.
Import JS ForkedActor Correlation.

Section Calls.

Variable sys : ActorSystem.t.


Definition sendAndReceive0 (now : Z) (tp : string) (message : list value) (st : t)
  : t * N * option nat :=
  _sendActorMessage sys now tp message (mkOptions true None None None) st.

End Calls.

(** [options.actorId || this.getId()] *)
Definition addressee (target : option string) (st : t) : string :=
  match target with
  | Some a => if String.eqb a "" then actor_id st else a
  | None => actor_id st
  end.

(** The envelope with which the listener answers a request once the
    call on the actor has resolved with [resp]. *)
Definition response_envelope (msgId : N) (resp : value) : envelope :=
  mkEnvelope "actor-response" (Some msgId) None
    (Some (mkBody None VUndefined VUndefined false resp None)).

Definition respond (now : Z) (msgId : N) (resp : value) (st : t) : t :=
  fst (fst (_send0 now (response_envelope msgId resp) no_options st)).

(** What the listener settles the promise of a request with, by the
    body of the response. *)
Definition outcome_of (msg : envelope) : settlement :=
  match body_of msg with
  | Some b =>
      match error b with
      | Some e => if String.eqb e "" then Resolved (response b) else RejectedWith e
      | None => Resolved (response b)
      end
  | None => Resolved VUndefined
  end.


(** The request [k] has been answered: its promise is settled with [o]. *)
Record answered (k : N) (d : nat) (o : settlement) (st : t) : Prop := mkAnswered {
  n_entry : responsePromises st !! k = None;
  n_settled : pendings st !! d = Some o;
  n_final : o ≠ Pending;
  n_id : (k < idCounter st)%N;
  n_promise : (d < nextPending st)%nat
}.


(** What [bus.send] has been called with is an envelope that the
    listener of the peer does not set aside. *)
Definition identified (out : envelope * option value) : Prop :=
  has_id (fst out) = true ∧ is_Some (actorId (fst out)).

End Transport.

(** ** [lib/actor-system.js]: the registration of marshallers *)

Module Registry.
Import JS ActorSystem.

(** A type that a marshaller names: a function (a class), with its
    [typeName] property ([""] when it has none) and its name, or any
    other value, a string among them. *)
Inductive type_ref :=
| RFunction (typeName name : string)
| RValue (v : value).

(** The value of the [type] property of a marshaller, or of its
    [getType()]: one type or an array of types. *)
Inductive type_property :=
| Single (r : type_ref)
| Several (rs : list type_ref).

(** The instance that a marshaller definition gives, once it is loaded
    and instantiated or cloned: its [type] property
    ([Single (RValue VUndefined)] when it has none), what its
    [getType()] returns when it has this getter, and its two methods. *)
Record instance := mkInstance {
  i_type : type_property;
  i_getType : option type_property;
  i_marshall : value -> value;
  i_unmarshall : value -> value
}.

(** An entry of [options.marshallers]: the result of [typeof] on it, and
    the instance it gives. *)
Record marshallerDef := mkDef {
  def_typeof : string;
  def_instance : instance
}.

Definition type_truthy (p : type_property) : bool :=
  match p with
  | Single (RValue v) => truthy v
  | _ => true
  end.

(** [_readProperty(object, 'type')] *)
Definition _readProperty (object : instance) : type_property :=
  if type_truthy (i_type object) then i_type object
  else match i_getType object with
       | Some ret => ret
       | None => i_type object
       end.

(** [_.isString(type) ? type : this._typeName(type)], and [None] when
    the result is falsy. *)
Definition typeName_of (type : type_ref) : option string :=
  let typeName :=
    match type with
    | RValue (VStr s) => Some s
    | RValue v => _typeName v
    | RFunction tn nm => Some (if String.eqb tn "" then nm else tn)
    end in
  match typeName with
  | Some s => if String.eqb s "" then None else Some s
  | None => None
  end.

(** [_.isArray(types) || (types = [types])] *)
Definition types_of (object : instance) : list type_ref :=
  match _readProperty object with
  | Single (RValue (VArr elems)) => map RValue elems
  | Single r => [r]
  | Several rs => rs
  end.

(** The instances are objects: [memo] maps a type name to the instance
    registered under it, known by the index of its definition, and
    [type_of] holds the [type] property that the registration has
    written into each instance. *)
Record heap := mkHeap { memo : gmap string nat; type_of : gmap nat string }.

(** The body of [_.each(types, ...)] for the instance [idx]; [None] is
    the error "Failed to determine type name for marshaller". *)
Fixpoint each_type (idx : nat) (types : list type_ref) (h : heap) : option heap :=
  match types with
  | [] => Some h
  | type :: rest =>
      typeName ← typeName_of type;
      each_type idx rest
        (mkHeap (<[typeName := idx]> (memo h)) (<[idx := typeName]> (type_of h)))
  end.

(** [P.reduce(marshallerDefs, ..., {})], from the definition [idx] on. *)
Fixpoint reduce (idx : nat) (defs : list marshallerDef) (h : heap) : option heap :=
  match defs with
  | [] => Some h
  | def :: rest =>
      h' ← each_type idx (types_of (def_instance def)) h;
      reduce (S idx) rest h'
  end.

(** [_.keys(_.countBy(defs, def => typeof def)).length > 1] *)
Definition mixed (defs : list marshallerDef) : bool :=
  match defs with
  | [] => false
  | def :: rest =>
      negb (forallb (fun d => String.eqb (def_typeof d) (def_typeof def)) rest)
  end.

Inductive initialized :=
| Marshallers (sys : ActorSystem.t)
    (** the promise resolves, and [this.marshallers] is set *)
| MixedTypes
    (** "Mixed types in marshallers configuration array are not allowed." *)
| NoTypeName.
    (** "Failed to determine type name for marshaller: ..." *)

(** The marshaller that the registry holds for an entry of [memo]. *)
Definition entry (defs : list marshallerDef) (h : heap) (idx : nat) : option marshaller :=
  def ← defs !! idx;
  type ← type_of h !! idx;
  Some (mkMarshaller type (i_marshall (def_instance def)) (i_unmarshall (def_instance def))).

Definition _initializeMarshallers (defs : list marshallerDef) (sys : ActorSystem.t)
  : initialized :=
  if mixed defs then MixedTypes
  else match reduce 0 defs (mkHeap ∅ ∅) with
       | Some h =>
           Marshallers (mkSystem (omap (entry defs h) (memo h))
                          (forkedActorReferenceMarshaller sys)
                          (remoteActorReferenceMarshaller sys))
       | None => NoTypeName
       end.

(** The type names of a definition, when each of them is determined. *)
Definition names (def : marshallerDef) : option (list string) :=
  mapM typeName_of (types_of (def_instance def)).

(** The last definition, from [idx] on, that names the type [n]. *)
Fixpoint holder (n : string) (idx : nat) (defs : list marshallerDef) : option nat :=
  match defs with
  | [] => None
  | def :: rest =>
      match holder n (S idx) rest with
      | Some j => Some j
      | None =>
          match names def with
          | Some ns => if bool_decide (n ∈ ns) then Some idx else None
          | None => None
          end
      end
  end.

(** The definition restores what it has marshalled. *)
Definition inverse (def : marshallerDef) : Prop :=
  ∀ v, i_unmarshall (def_instance def) (i_marshall (def_instance def) v) = v.

(** No two definitions name the same type, and none names a type of the
    two reference marshallers. *)
Definition apart (defs : list marshallerDef) : Prop :=
  (∀ i j di dj nsi nsj n,
     defs !! i = Some di → defs !! j = Some dj →
     names di = Some nsi → names dj = Some nsj → n ∈ nsi → n ∈ nsj → i = j) ∧
  (∀ d ns, d ∈ defs → names d = Some ns →
     ("InterProcessReference" ∉ ns) ∧ ("InterHostReference" ∉ ns)).

End Registry.

(** ** More sample actors *)

Module Cases.
Import JS Actor.

(** A ready actor with a handler for ["ping"], the children ["calc"] and
    ["log"], and ["plus"] forwarded to ["calc"]. *)
Definition hub : Actor.t :=
  mkActor "hub" "Hub" "ready" {[ "ping" := PFunction ]}
    [(MString "plus", ChildActor "calc")]
    None (Some "root") ["calc"; "log"] None true [].

(** A parent and its child, whose [destroy0()] hook rejects. *)
Definition stubborn : store :=
  mkStore (<["parent" := Samples.node "parent" "Parent" None ["child"] true []]>
           {["child" := Samples.node "child" "Child" (Some "parent") [] false []]})
          0.

(** The destruction of the parent, to its end. *)
Definition stubborn_schedule : list label :=
  [LCall "parent"; LMap "parent"; LMap "child"; LHookStart "child"; LHookEnd "child";
   LHookStart "parent"; LHookEnd "parent"; LFinish "parent"].

(** The first child of the family is destroyed, the second is not. *)
Definition first_schedule : list label :=
  [LCall "first"; LMap "first"; LHookStart "first"; LHookEnd "first"; LFinish "first"].

(** A marshaller for the messages of the class [TestMessage], which
    names its type by a getter, and wraps what it marshalls. *)
Definition wrapper : Registry.marshallerDef :=
  Registry.mkDef "object"
    (Registry.mkInstance (Registry.Single (Registry.RValue VUndefined))
       (Some (Registry.Single (Registry.RValue (VStr "TestMessage"))))
       (fun v => VObj "Object" [("wrapped", v)])
       (fun v => match v with VObj _ [(_, a)] => a | _ => v end)).

End Cases.

(** * Properties *)

(** ** Dispatch: forwarding and the not-ready errors *)

Section Dispatch.
Import JS Actor.

Variable a : Actor.t.
Variable topic : string.
Variable message : list value.

Lemma ready_send :
  state a = "ready" →
  send a topic message =
    match _checkForward a topic with
    | Some fwActor => Delegated fwActor Send topic message
    | None => Local Send topic message
    end.
Proof. intros Hst. unfold send. by rewrite Hst. Qed.

Lemma ready_sendAndReceive :
  state a = "ready" →
  sendAndReceive a topic message =
    match _checkForward a topic with
    | Some fwActor => Delegated fwActor SendAndReceive topic message
    | None => Local SendAndReceive topic message
    end.
Proof. intros Hst. unfold sendAndReceive. by rewrite Hst. Qed.

Lemma not_ready_send :
  state a ≠ "ready" → send a topic message = _notReadyErrorPromise a.
Proof.
  intros Hst. unfold send.
  by destruct (String.eqb_spec (state a) "ready").
Qed.

Lemma not_ready_sendAndReceive :
  state a ≠ "ready" → sendAndReceive a topic message = _notReadyErrorPromise a.
Proof.
  intros Hst. unfold sendAndReceive.
  by destruct (String.eqb_spec (state a) "ready").
Qed.

(** [_.find] returns the first item, in the order of the list, that the
    predicate accepts. *)
Lemma find_first {A} (f : A → bool) (l1 l2 : list A) (x : A) :
  Forall (fun y => f y = false) l1 → f x = true →
  List.find f (l1 ++ x :: l2)%list = Some x.
Proof.
  induction 1 as [|y l1 Hy _ IH]; intros Hx; simpl.
  - by rewrite Hx.
  - rewrite Hy. by apply IH.
Qed.

Lemma find_none {A} (f : A → bool) (l : list A) :
  Forall (fun y => f y = false) l → List.find f l = None.
Proof. induction 1 as [|y l Hy _ IH]; simpl; [done|by rewrite Hy]. Qed.

Lemma checkForward_unknown fw :
  forwardAllUnknown a = Some fw → has_handler a topic = false →
  _checkForward a topic = Some fw.
Proof. intros Hfw Hh. unfold _checkForward. by rewrite Hfw, Hh. Qed.

Lemma checkForward_list :
  forwardAllUnknown a = None ∨ has_handler a topic = true →
  _checkForward a topic = snd <$> List.find (fw_matches topic) (forwardList a).
Proof.
  intros H. unfold _checkForward.
  destruct (forwardAllUnknown a) as [fw|]; [|done].
  destruct H as [H|H]; [done|]. by rewrite H.
Qed.

End Dispatch.

(** C1.  For an actor in state ['ready'], [send] and
    [sendAndReceive] with a topic hand the call, with the same topic and
    the same arguments, to
    - [forwardAllUnknown] when it is set and the behaviour has no
      handler for the topic, whether or not an entry of [forwardList]
      matches;
    - otherwise the target of the first entry of [forwardList], in
      insertion order, that matches the topic (a string by equality, a
      regular expression by its test);
    and when neither applies the call goes to the actor's own [send0] /
    [sendAndReceive0], so that [forwardAllUnknown] receives the message
    exactly when it is set and the behaviour has no handler for the
    topic. *)
Theorem forwarding_precedence (a : Actor.t) (topic : string) (message : list JS.value) :
  Actor.state a = "ready" →
  (∀ fw, Actor.forwardAllUnknown a = Some fw → Actor.has_handler a topic = false →
     Actor.send a topic message = Actor.Delegated fw Actor.Send topic message ∧
     Actor.sendAndReceive a topic message
       = Actor.Delegated fw Actor.SendAndReceive topic message) ∧
  (Actor.forwardAllUnknown a = None ∨ Actor.has_handler a topic = true →
     (∀ before m target after,
        Actor.forwardList a = (before ++ (m, target) :: after)%list →
        Forall (fun item => Actor.fw_matches topic item = false) before →
        match m with
        | Actor.MString s => s = topic
        | Actor.MRegExp re => Actor.re_test re topic = true
        end →
        Actor.send a topic message = Actor.Delegated target Actor.Send topic message ∧
        Actor.sendAndReceive a topic message
          = Actor.Delegated target Actor.SendAndReceive topic message) ∧
     (Forall (fun item => Actor.fw_matches topic item = false) (Actor.forwardList a) →
        Actor.send a topic message = Actor.Local Actor.Send topic message ∧
        Actor.sendAndReceive a topic message
          = Actor.Local Actor.SendAndReceive topic message)).
Proof.
  intros Hready. split; [|intros Hlist; split].
  - intros fw Hfw Hh.
    rewrite ready_send, ready_sendAndReceive by done.
    by rewrite (checkForward_unknown a topic fw).
  - intros before m target after Hfl Hbefore Hm.
    rewrite ready_send, ready_sendAndReceive by done.
    rewrite checkForward_list by done.
    rewrite Hfl, (find_first _ before after (m, target)); [done|done|].
    unfold Actor.fw_matches; simpl. destruct m; [by apply String.eqb_eq|done].
  - intros Hnone.
    rewrite ready_send, ready_sendAndReceive by done.
    rewrite checkForward_list by done.
    by rewrite find_none.
Qed.

Lemma forwarding_precedence_witness :
  Actor.state Samples.relay_with_handler = "ready" ∧
  Actor.send Samples.relay_with_handler "plus" [JS.VNum 2]
    = Actor.Delegated (Actor.ChildActor "calc") Actor.Send "plus" [JS.VNum 2].
Proof.
  split; [reflexivity|].
  destruct (forwarding_precedence Samples.relay_with_handler "plus" [JS.VNum 2] eq_refl)
    as [_ Hlist].
  destruct (Hlist (or_intror eq_refl)) as [Hfirst _].
  apply (Hfirst [(Actor.MRegExp (Actor.mkRegExp "^math" (String.prefix "math")),
                  Actor.ChildActor "math")]
                (Actor.MString "plus") (Actor.ChildActor "calc")
                [(Actor.MString "plus", Actor.ChildActor "other")]).
  - reflexivity.
  - repeat constructor.
  - reflexivity.
Defined.

(** The first case on a sample: the topic ["plus"] matches the only
    entry of the forward list, the behaviour has no handler for it and
    [forwardAllUnknown] is set; the message goes to [forwardAllUnknown],
    over which no entry of the forward list takes precedence. *)
Lemma forward_list_entry_shadowed :
  Actor.state Samples.relay = "ready" ∧
  List.find (Actor.fw_matches "plus") (Actor.forwardList Samples.relay)
    = Some (Actor.MString "plus", Actor.ChildActor "calc") ∧
  Actor.send Samples.relay "plus" [JS.VNum 2]
    = Actor.Delegated (Actor.ParentActorProxy "root") Actor.Send "plus" [JS.VNum 2] ∧
  Actor.send Samples.relay "plus" [JS.VNum 2]
    ≠ Actor.Delegated (Actor.ChildActor "calc") Actor.Send "plus" [JS.VNum 2] ∧
  Actor.sendAndReceive Samples.relay "plus" [JS.VNum 2]
    ≠ Actor.Delegated (Actor.ChildActor "calc") Actor.SendAndReceive "plus" [JS.VNum 2].
Proof. repeat split; discriminate. Qed.

(** C3.  Outside the state ['ready'], [send] and [sendAndReceive] reject
    with an error whose message is chosen by the state: one for
    ['new'], which contains "Actor has not yet been initialized", one
    for ['crashed'], one shared by ['destroying'] and ['destroyed'], and
    for any other state a message that quotes the state. *)
Theorem not_ready_rejected (a : Actor.t) (topic : string) (message : list JS.value) :
  Actor.state a ≠ "ready" →
  ∃ msg,
    Actor.send a topic message = Actor.Rejected msg ∧
    Actor.sendAndReceive a topic message = Actor.Rejected msg ∧
    (Actor.state a = "new" →
       msg = "Actor has not yet been initialized." ∧
       JS.contains "Actor has not yet been initialized" msg = true) ∧
    (Actor.state a = "crashed" → msg = "Actor crashed, no interaction possible.") ∧
    (Actor.state a = "destroying" ∨ Actor.state a = "destroyed" →
       msg = "destroy() has been called for this actor, no further interaction possible") ∧
    (Actor.state a ≠ "new" → Actor.state a ≠ "crashed" →
     Actor.state a ≠ "destroying" → Actor.state a ≠ "destroyed" →
       msg = "Actor cannot accept messages, because it is in " +:+ JS.dquote
             +:+ Actor.state a +:+ JS.dquote +:+ " state.").
Proof.
  intros Hst.
  rewrite not_ready_send, not_ready_sendAndReceive by done.
  unfold Actor._notReadyErrorPromise.
  destruct (String.eqb_spec (Actor.state a) "new") as [Hnew|Hnew].
  { eexists; repeat split; try done; rewrite Hnew; try done.
    intros [?|?]; done. }
  destruct (String.eqb_spec (Actor.state a) "crashed") as [Hcr|Hcr].
  { eexists; repeat split; try done; rewrite Hcr; try done.
    intros [?|?]; done. }
  destruct (String.eqb_spec (Actor.state a) "destroying") as [Hd1|Hd1];
    destruct (String.eqb_spec (Actor.state a) "destroyed") as [Hd2|Hd2]; simpl;
    eexists; repeat split; try done; intros [?|?]; done.
Qed.

Lemma not_ready_rejected_witness :
  Actor.state (Samples.plain "a1" "new") ≠ "ready" ∧
  Actor.sendAndReceive (Samples.plain "a1" "new") "hello" [JS.VStr "Child"]
    = Actor.Rejected "Actor has not yet been initialized.".
Proof.
  split; [discriminate|].
  destruct (not_ready_rejected (Samples.plain "a1" "new") "hello" [JS.VStr "Child"])
    as (msg & _ & Hsr & Hnew & _); [discriminate|].
  destruct (Hnew eq_refl) as [-> _]. exact Hsr.
Defined.

(** ** Destruction: the steps of the promise chains *)

Import JS Actor Lifecycle Trace.

Lemma progress_of_update_eq a f s :
  progress_of (update a f s) a = A ← actors s !! a; progress <$> destroyPromise (f A).
Proof.
  unfold progress_of, update; simpl. rewrite lookup_alter_eq.
  by destruct (actors s !! a).
Qed.

Lemma progress_of_update_ne a b f s :
  a ≠ b → progress_of (update a f s) b = progress_of s b.
Proof.
  intros Hne. unfold progress_of, update; simpl. by rewrite lookup_alter_ne.
Qed.

Lemma kids_update_eq a f s :
  kids (update a f s) a = (fun A => childPromises (f A)) <$> actors s !! a.
Proof.
  unfold kids, update; simpl. rewrite lookup_alter_eq.
  by destruct (actors s !! a).
Qed.

Lemma kids_update_ne a b f s :
  a ≠ b → kids (update a f s) b = kids s b.
Proof. intros Hne. unfold kids, update; simpl. by rewrite lookup_alter_ne. Qed.

Lemma progress_set_progress c A :
  progress <$> destroyPromise (set_progress c A) = (fun _ => c) <$> destroyPromise A.
Proof. unfold set_progress; simpl. by destruct (destroyPromise A). Qed.

Lemma progress_of_set_progress a c s b :
  progress_of (update a (set_progress c) s) b =
    if decide (a = b) then (fun _ => c) <$> progress_of s b else progress_of s b.
Proof.
  case_decide as Hab.
  - subst b. rewrite progress_of_update_eq. unfold progress_of.
    destruct (actors s !! a) as [A|]; simpl; [|done].
    by destruct (destroyPromise A).
  - by apply progress_of_update_ne.
Qed.

Lemma kids_set_progress a c s b :
  kids (update a (set_progress c) s) b = kids s b.
Proof.
  destruct (decide (a = b)) as [->|Hab].
  - rewrite kids_update_eq. unfold kids. by destruct (actors s !! b).
  - by apply kids_update_ne.
Qed.

Lemma state_of_set_progress a c s b :
  state_of (update a (set_progress c) s) b = state_of s b.
Proof.
  unfold state_of, update; simpl.
  destruct (decide (a = b)) as [->|Hab].
  - rewrite lookup_alter_eq. by destruct (actors s !! b).
  - by rewrite lookup_alter_ne.
Qed.

(** The two cases of [destroy]. *)
Lemma destroy_spec a s p s' ev :
  destroy a s = Some (p, s', ev) →
  (∃ c, progress_of s a = Some c ∧ s' = s ∧ ev = []) ∨
  (∃ cs, progress_of s a = None ∧ kids s a = Some cs ∧ ev = [EvDestroying a] ∧
         p = nextPromise s ∧
         (∀ b, progress_of s' b =
                 if decide (a = b) then Some (Mapping cs) else progress_of s b) ∧
         (∀ b, kids s' b = kids s b) ∧
         (∀ b, state_of s' b =
                 if decide (a = b) then Some "destroying" else state_of s b)).
Proof.
  unfold destroy, progress_of, kids, state_of. intros H.
  destruct (actors s !! a) as [A|] eqn:HA; simpl in *; [|done].
  destruct (destroyPromise A) as [q|] eqn:Hq; simpl in *.
  - left. exists (progress q). by simplify_eq.
  - right. exists (childPromises A). simplify_eq. repeat split; try done.
    + intros b; simpl. case_decide as Hab.
      * subst b. by rewrite lookup_insert_eq.
      * by rewrite lookup_insert_ne.
    + intros b; simpl. destruct (decide (a = b)) as [->|Hab].
      * rewrite lookup_insert_eq, HA. done.
      * by rewrite lookup_insert_ne.
    + intros b; simpl. case_decide as Hab.
      * subst b. by rewrite lookup_insert_eq.
      * by rewrite lookup_insert_ne.
Qed.

Lemma mapper_children_app a ev1 ev2 :
  mapper_children a (ev1 ++ ev2)%list = (mapper_children a ev1 ++ mapper_children a ev2)%list.
Proof. unfold mapper_children. by rewrite omap_app. Qed.

Lemma map_children_unfold a c rest s s' ev :
  map_children a (c :: rest) s = Some (s', ev) →
  ∃ p s1 ev1 ev2,
    destroy c s = Some (p, s1, ev1) ∧ map_children a rest s1 = Some (s', ev2) ∧
    ev = (EvMapper a c :: ev1 ++ ev2)%list.
Proof.
  simpl. intros H.
  destruct (destroy c s) as [[[p s1] ev1]|] eqn:Hd; simpl in H; [|done].
  destruct (map_children a rest s1) as [[s2 ev2]|] eqn:Hm; simpl in H; [|done].
  simplify_eq. by exists p, s1, ev1, ev2.
Qed.

Lemma map_children_kids a cs s s' ev :
  map_children a cs s = Some (s', ev) → ∀ b, kids s' b = kids s b.
Proof.
  revert s s' ev. induction cs as [|c rest IH]; intros s s' ev H b.
  - simpl in H. by simplify_eq.
  - apply map_children_unfold in H as (p & s1 & ev1 & ev2 & Hd & Hm & ->).
    rewrite (IH _ _ _ Hm b).
    apply destroy_spec in Hd as [(ch & _ & -> & _)|(cs' & _ & _ & _ & _ & _ & Hk & _)]; done.
Qed.

Lemma map_children_progress a cs s s' ev :
  map_children a cs s = Some (s', ev) →
  ∀ b, progress_of s' b = progress_of s b ∨
       (b ∈ cs ∧ progress_of s b = None ∧ EvDestroying b ∈ ev ∧
        ∃ cs', kids s b = Some cs' ∧ progress_of s' b = Some (Mapping cs')).
Proof.
  revert s s' ev. induction cs as [|c rest IH]; intros s s' ev H b.
  - simpl in H. simplify_eq. by left.
  - apply map_children_unfold in H as (p & s1 & ev1 & ev2 & Hd & Hm & ->).
    pose proof (map_children_kids _ _ _ _ _ Hm) as Hk2.
    destruct (IH _ _ _ Hm b) as [Heq|(Hin & Hnone & Hev & cs' & Hk & Hp)];
      apply destroy_spec in Hd
        as [(ch & Hch & -> & ->)|(cs1 & Hn1 & Hk1 & -> & _ & Hp1 & Hkk & _)].
    + by left.
    + rewrite Heq, Hp1. case_decide as Hcb; [|by left].
      subst b. right. split_and!; [set_solver|done|set_solver|].
      exists cs1. by rewrite Hk1.
    + right. split_and!; [set_solver|done|set_solver|]. by exists cs'.
    + rewrite Hp1 in Hnone. case_decide as Hcb; [done|].
      right. split_and!; [set_solver|done|set_solver|].
      exists cs'. by rewrite <-Hkk.
Qed.

Lemma map_children_events a cs s s' ev :
  map_children a cs s = Some (s', ev) →
  ∀ e, e ∈ ev →
    (∃ c, c ∈ cs ∧ e = EvMapper a c) ∨
    (∃ c, c ∈ cs ∧ e = EvDestroying c ∧ progress_of s c = None ∧ progress_of s' c ≠ None).
Proof.
  revert s s' ev. induction cs as [|c rest IH]; intros s s' ev H e He.
  - simpl in H. simplify_eq. by apply elem_of_nil in He.
  - apply map_children_unfold in H as (p & s1 & ev1 & ev2 & Hd & Hm & ->).
    apply elem_of_cons in He as [->|He]; [left; exists c; set_solver|].
    apply elem_of_app in He as [He|He].
    + apply destroy_spec in Hd
        as [(ch & Hch & -> & ->)|(cs1 & Hn1 & Hk1 & -> & _ & Hp1 & Hkk & _)];
        [by apply elem_of_nil in He|].
      apply list_elem_of_singleton in He as ->.
      right. exists c. split_and!; [set_solver|done|done|].
      destruct (map_children_progress _ _ _ _ _ Hm c) as [->|(_ & Hnone & _)].
      * rewrite Hp1. by rewrite decide_True.
      * rewrite Hp1 in Hnone. by rewrite decide_True in Hnone.
    + destruct (IH _ _ _ Hm e He) as [(c' & Hc' & ->)|(c' & Hc' & -> & Hn & Hs)].
      * left. exists c'. set_solver.
      * right. exists c'. split_and!; [set_solver|done| |done].
        apply destroy_spec in Hd
          as [(ch & Hch & -> & ->)|(cs1 & Hn1 & Hk1 & -> & _ & Hp1 & Hkk & _)];
          [done|].
        rewrite Hp1 in Hn. by case_decide.
Qed.

Lemma destroy_mapper_children b c s p s1 ev1 :
  destroy c s = Some (p, s1, ev1) → mapper_children b ev1 = [].
Proof.
  intros Hd. apply destroy_spec in Hd
    as [(ch & Hch & -> & ->)|(cs1 & Hn1 & Hk1 & -> & _)]; done.
Qed.

Lemma map_children_mapper a cs s s' ev b :
  map_children a cs s = Some (s', ev) →
  mapper_children b ev = if String.eqb a b then cs else [].
Proof.
  revert s s' ev. induction cs as [|c rest IH]; intros s s' ev H.
  - simpl in H. simplify_eq. by destruct (String.eqb a b).
  - apply map_children_unfold in H as (p & s1 & ev1 & ev2 & Hd & Hm & ->).
    change (EvMapper a c :: ev1 ++ ev2)%list with ([EvMapper a c] ++ ev1 ++ ev2)%list.
    rewrite !mapper_children_app, (destroy_mapper_children _ _ _ _ _ _ Hd), (IH _ _ _ Hm).
    simpl. by destruct (String.eqb a b).
Qed.

Lemma map_children_NoDup a cs s s' ev :
  map_children a cs s = Some (s', ev) → NoDup cs → NoDup ev.
Proof.
  revert s s' ev. induction cs as [|c rest IH]; intros s s' ev H Hnd.
  - simpl in H. simplify_eq. constructor.
  - pose proof H as Hall.
    apply map_children_unfold in H as (p & s1 & ev1 & ev2 & Hd & Hm & ->).
    apply NoDup_cons in Hnd as [Hc Hrest].
    pose proof (map_children_events _ _ _ _ _ Hm) as Hev2.
    apply destroy_spec in Hd
      as [(ch & Hch & -> & ->)|(cs1 & Hn1 & Hk1 & -> & _ & Hp1 & _)]; simpl.
    + apply NoDup_cons. split; [|by eapply IH].
      intros Hin. destruct (Hev2 _ Hin) as [(c' & Hc' & ?)|(c' & _ & ? & _)]; by simplify_eq.
    + apply NoDup_cons. split.
      * intros [?|Hin]%elem_of_cons; [done|].
        destruct (Hev2 _ Hin) as [(c' & Hc' & ?)|(c' & _ & ? & _)]; by simplify_eq.
      * apply NoDup_cons. split; [|by eapply IH].
        intros Hin. destruct (Hev2 _ Hin) as [(c' & Hc' & ?)|(c' & _ & ? & Hn & _)];
          simplify_eq.
        rewrite Hp1 in Hn. by rewrite decide_True in Hn.
Qed.

Lemma map_children_state a cs s s' ev :
  map_children a cs s = Some (s', ev) →
  ∀ b, state_of s' b = state_of s b ∨ state_of s' b = Some "destroying".
Proof.
  revert s s' ev. induction cs as [|c rest IH]; intros s s' ev H b.
  - simpl in H. simplify_eq. by left.
  - apply map_children_unfold in H as (p & s1 & ev1 & ev2 & Hd & Hm & ->).
    destruct (IH _ _ _ Hm b) as [->|?]; [|by right].
    apply destroy_spec in Hd
      as [(ch & Hch & -> & ->)|(cs1 & Hn1 & Hk1 & -> & _ & _ & _ & Hst)]; [by left|].
    rewrite Hst. case_decide; [by right|by left].
Qed.

(** The mapper is called on every child. *)
Lemma map_children_all a cs s s' ev :
  map_children a cs s = Some (s', ev) → ∀ c, c ∈ cs → EvMapper a c ∈ ev.
Proof.
  revert s s' ev. induction cs as [|c rest IH]; intros s s' ev H c' Hc'.
  - by apply elem_of_nil in Hc'.
  - apply map_children_unfold in H as (p & s1 & ev1 & ev2 & Hd & Hm & ->).
    apply elem_of_cons in Hc' as [->|Hc']; [set_solver|].
    specialize (IH _ _ _ Hm _ Hc'). set_solver.
Qed.

(** *** What each step does *)

Lemma step_LCall a s s' ev :
  step (LCall a) s = Some (s', ev) → ∃ p, destroy a s = Some (p, s', ev).
Proof.
  simpl. destruct (destroy a s) as [[[p s1] ev1]|]; simpl; [|done].
  intros; simplify_eq. by exists p.
Qed.

Lemma step_LMap a s s' ev :
  step (LMap a) s = Some (s', ev) →
  ∃ cs s1, progress_of s a = Some (Mapping cs) ∧
           map_children a cs s = Some (s1, ev) ∧
           s' = update a (set_progress (Awaiting cs)) s1.
Proof.
  simpl. destruct (progress_of s a) as [[cs| | | | | ] | ]; try done.
  destruct (map_children a cs s) as [[s1 ev1]|] eqn:Hm; simpl; [|done].
  intros; simplify_eq. by exists cs, s1.
Qed.

Lemma step_LHookStart a s s' ev :
  step (LHookStart a) s = Some (s', ev) →
  ∃ cs, progress_of s a = Some (Awaiting cs) ∧ forallb (settled s) cs = true ∧
        s' = update a (set_progress InHook) s ∧ ev = [EvHookInvoked a].
Proof.
  simpl. destruct (progress_of s a) as [[ | cs | | | | ] | ]; try done.
  destruct (forallb (settled s) cs) eqn:Hs; [|done].
  intros; simplify_eq. by exists cs.
Qed.

Lemma step_LHookEnd a s s' ev :
  step (LHookEnd a) s = Some (s', ev) →
  ∃ ok : bool, progress_of s a = Some InHook ∧
        s' = update a (set_progress (if ok then Hooked else Failed)) s ∧
        ev = [EvHookCompleted a ok].
Proof.
  simpl. destruct (actors s !! a) as [A|]; simpl; [|done].
  destruct (progress_of s a) as [[ | | | | | ] | ]; try done.
  intros; simplify_eq. by exists (destroy0 A).
Qed.

Lemma step_LFinish a s s' ev :
  step (LFinish a) s = Some (s', ev) →
  progress_of s a = Some Hooked ∧
  s' = on_destroyed a (update a (fun A => set_progress Fulfilled (_setState "destroyed" A)) s) ∧
  ev = [EvDestroyed a].
Proof.
  simpl. destruct (progress_of s a) as [[ | | | | | ] | ]; try done.
  intros; by simplify_eq.
Qed.

Lemma progress_of_on_destroyed a s b :
  progress_of (on_destroyed a s) b = progress_of s b.
Proof.
  unfold on_destroyed. destruct (actors s !! a) as [A|]; [|done].
  destruct (parent A) as [p|]; [|done].
  destruct (decide (p = b)) as [->|Hne].
  - rewrite progress_of_update_eq. unfold progress_of.
    by destruct (actors s !! b).
  - by apply progress_of_update_ne.
Qed.

Lemma state_of_on_destroyed a s b :
  state_of (on_destroyed a s) b = state_of s b.
Proof.
  unfold on_destroyed. destruct (actors s !! a) as [A|]; [|done].
  destruct (parent A) as [p|]; [|done].
  unfold state_of, update; simpl.
  destruct (decide (p = b)) as [->|Hne].
  - rewrite lookup_alter_eq. by destruct (actors s !! b).
  - by rewrite lookup_alter_ne.
Qed.

Lemma kids_on_destroyed a s b :
  kids (on_destroyed a s) b = kids s b ∨
  kids (on_destroyed a s) b = without a <$> kids s b.
Proof.
  unfold on_destroyed. destruct (actors s !! a) as [A|]; [|by left].
  destruct (parent A) as [p|]; [|by left].
  destruct (decide (p = b)) as [->|Hne].
  - right. rewrite kids_update_eq. unfold kids. by destruct (actors s !! b).
  - left. by apply kids_update_ne.
Qed.

Lemma progress_of_finish a s b :
  progress_of (update a (fun A => set_progress Fulfilled (_setState "destroyed" A)) s) b =
    if decide (a = b) then (fun _ => Fulfilled) <$> progress_of s b else progress_of s b.
Proof.
  case_decide as Hab.
  - subst b. rewrite progress_of_update_eq. unfold progress_of.
    destruct (actors s !! a) as [A|]; simpl; [|done].
    by destruct (destroyPromise A).
  - by apply progress_of_update_ne.
Qed.

Lemma kids_finish a s b :
  kids (update a (fun A => set_progress Fulfilled (_setState "destroyed" A)) s) b = kids s b.
Proof.
  destruct (decide (a = b)) as [->|Hab].
  - rewrite kids_update_eq. unfold kids. by destruct (actors s !! b).
  - by apply kids_update_ne.
Qed.

Lemma state_of_finish a s b :
  a ≠ b →
  state_of (update a (fun A => set_progress Fulfilled (_setState "destroyed" A)) s) b
    = state_of s b.
Proof. intros Hab. unfold state_of, update; simpl. by rewrite lookup_alter_ne. Qed.

Lemma step_move l s s' ev :
  step l s = Some (s', ev) → ∀ b, move s ev b (progress_of s b) (progress_of s' b).
Proof.
  intros H b. destruct l as [a|a|a|a|a].
  - apply step_LCall in H as [p Hd].
    apply destroy_spec in Hd
      as [(ch & Hch & -> & ->)|(cs1 & Hn1 & Hk1 & -> & _ & Hp1 & _)]; [constructor|].
    rewrite Hp1. case_decide as Hab; [|constructor].
    subst b. rewrite Hn1. constructor; [done|set_solver].
  - apply step_LMap in H as (cs & s1 & Hp & Hm & ->).
    rewrite progress_of_set_progress.
    destruct (map_children_progress _ _ _ _ _ Hm b)
      as [Heq|(Hin & Hnone & Hev & cs' & Hk & Hp')].
    + rewrite Heq. case_decide as Hab; [|constructor].
      subst b. rewrite Hp. constructor. by eapply map_children_all.
    + rewrite Hp', Hnone. case_decide as Hab.
      * subst b. congruence.
      * by constructor.
  - apply step_LHookStart in H as (cs & Hp & Hs & -> & ->).
    rewrite progress_of_set_progress. case_decide as Hab; [|constructor].
    subst b. rewrite Hp. constructor; [done|set_solver].
  - apply step_LHookEnd in H as (ok & Hp & -> & ->).
    rewrite progress_of_set_progress. case_decide as Hab; [|constructor].
    subst b. rewrite Hp. constructor. set_solver.
  - apply step_LFinish in H as (Hp & -> & ->).
    rewrite progress_of_on_destroyed, progress_of_finish.
    case_decide as Hab; [|constructor].
    subst b. rewrite Hp. constructor. set_solver.
Qed.

Lemma step_events l s s' ev :
  step l s = Some (s', ev) → ∀ e, e ∈ ev → fired s s' e.
Proof.
  intros H e He. destruct l as [a|a|a|a|a].
  - apply step_LCall in H as [p Hd].
    apply destroy_spec in Hd
      as [(ch & Hch & -> & ->)|(cs1 & Hn1 & Hk1 & -> & _ & Hp1 & _)];
      [by apply elem_of_nil in He|].
    apply list_elem_of_singleton in He as ->. simpl. split; [done|].
    rewrite Hp1. by rewrite decide_True.
  - apply step_LMap in H as (cs & s1 & Hp & Hm & ->).
    destruct (map_children_events _ _ _ _ _ Hm e He)
      as [(c & Hc & ->)|(c & Hc & -> & Hn & Hs)]; simpl.
    + exists cs. split_and!; [done|done|].
      rewrite progress_of_set_progress, decide_True by done.
      destruct (map_children_progress _ _ _ _ _ Hm a) as [->|(_ & Hnone & _)];
        [by rewrite Hp|congruence].
    + split; [done|]. rewrite progress_of_set_progress.
      case_decide; [|done]. subst c. congruence.
  - apply step_LHookStart in H as (cs & Hp & Hs & -> & ->).
    apply list_elem_of_singleton in He as ->. simpl.
    exists cs. split_and!; [done|done|].
    by rewrite progress_of_set_progress, decide_True, Hp.
  - apply step_LHookEnd in H as (ok & Hp & -> & ->).
    apply list_elem_of_singleton in He as ->. simpl. split; [done|].
    by rewrite progress_of_set_progress, decide_True, Hp.
  - apply step_LFinish in H as (Hp & -> & ->).
    apply list_elem_of_singleton in He as ->. simpl. split; [done|].
    by rewrite progress_of_on_destroyed, progress_of_finish, decide_True, Hp.
Qed.

Lemma step_kids l s s' ev :
  step l s = Some (s', ev) →
  ∀ b, kids s' b = kids s b ∨
       ∃ x, progress_of s' x = Some Fulfilled ∧ kids s' b = without x <$> kids s b.
Proof.
  intros H b. destruct l as [a|a|a|a|a].
  - apply step_LCall in H as [p Hd].
    apply destroy_spec in Hd
      as [(ch & Hch & -> & ->)|(cs1 & Hn1 & Hk1 & -> & _ & _ & Hk & _)]; by left.
  - apply step_LMap in H as (cs & s1 & Hp & Hm & ->).
    left. by rewrite kids_set_progress, (map_children_kids _ _ _ _ _ Hm).
  - apply step_LHookStart in H as (cs & Hp & Hs & -> & ->).
    left. by rewrite kids_set_progress.
  - apply step_LHookEnd in H as (ok & Hp & -> & ->).
    left. by rewrite kids_set_progress.
  - apply step_LFinish in H as (Hp & -> & ->).
    destruct (kids_on_destroyed a
                (update a (fun A => set_progress Fulfilled (_setState "destroyed" A)) s) b)
      as [->| ->]; rewrite kids_finish; [by left|right].
    exists a. split; [|done].
    by rewrite progress_of_on_destroyed, progress_of_finish, decide_True, Hp.
Qed.

Lemma step_state l s s' ev :
  step l s = Some (s', ev) →
  ∀ b, state_of s' b = Some "destroyed" →
       state_of s b = Some "destroyed" ∨ progress_of s' b = Some Fulfilled.
Proof.
  intros H b Hst. destruct l as [a|a|a|a|a].
  - apply step_LCall in H as [p Hd].
    apply destroy_spec in Hd
      as [(ch & Hch & -> & ->)|(cs1 & Hn1 & Hk1 & -> & _ & _ & _ & Hs)]; [by left|].
    rewrite Hs in Hst. case_decide; [done|by left].
  - apply step_LMap in H as (cs & s1 & Hp & Hm & ->).
    rewrite state_of_set_progress in Hst.
    destruct (map_children_state _ _ _ _ _ Hm b) as [Heq|Heq]; [|congruence].
    left. by rewrite <-Heq.
  - apply step_LHookStart in H as (cs & Hp & Hs & -> & ->).
    left. by rewrite state_of_set_progress in Hst.
  - apply step_LHookEnd in H as (ok & Hp & -> & ->).
    left. by rewrite state_of_set_progress in Hst.
  - apply step_LFinish in H as (Hp & -> & ->).
    rewrite state_of_on_destroyed in Hst.
    destruct (decide (a = b)) as [->|Hab].
    + right. by rewrite progress_of_on_destroyed, progress_of_finish, decide_True, Hp.
    + left. by rewrite state_of_finish in Hst.
Qed.

Lemma step_mapper l s s' ev :
  step l s = Some (s', ev) →
  ∀ b, mapper_children b ev = [] ∨
       progress_of s b = Some (Mapping (mapper_children b ev)).
Proof.
  intros H b. destruct l as [a|a|a|a|a].
  - apply step_LCall in H as [p Hd]. left. by eapply destroy_mapper_children.
  - apply step_LMap in H as (cs & s1 & Hp & Hm & ->).
    rewrite (map_children_mapper _ _ _ _ _ b Hm).
    destruct (String.eqb_spec a b) as [->|Hab]; [by right|by left].
  - apply step_LHookStart in H as (cs & Hp & Hs & -> & ->). by left.
  - apply step_LHookEnd in H as (ok & Hp & -> & ->). by left.
  - apply step_LFinish in H as (Hp & -> & ->). by left.
Qed.

Lemma step_NoDup l s s' ev :
  step l s = Some (s', ev) →
  (∀ b cs, progress_of s b = Some (Mapping cs) → NoDup cs) → NoDup ev.
Proof.
  intros H Hnd. destruct l as [a|a|a|a|a].
  - apply step_LCall in H as [p Hd].
    apply destroy_spec in Hd
      as [(ch & Hch & -> & ->)|(cs1 & Hn1 & Hk1 & -> & _)];
      [constructor|apply NoDup_singleton].
  - apply step_LMap in H as (cs & s1 & Hp & Hm & ->).
    eapply map_children_NoDup; eauto.
  - apply step_LHookStart in H as (cs & Hp & Hs & -> & ->). apply NoDup_singleton.
  - apply step_LHookEnd in H as (ok & Hp & -> & ->). apply NoDup_singleton.
  - apply step_LFinish in H as (Hp & -> & ->). apply NoDup_singleton.
Qed.

(** *** Runs from a system in which no actor is being destroyed *)

Lemma preceded_nil P e : preceded P e [].
Proof. intros tr1 tr2 H. by destruct tr1. Qed.

Lemma preceded_app P e tr ev :
  preceded P e tr → (e ∈ ev → ∃ e', e' ∈ tr ∧ P e') → preceded P e (tr ++ ev)%list.
Proof.
  intros Hold Hnew tr1 tr2 Heq.
  apply app_eq_app in Heq as [l [[-> Hl]|[-> Hl]]].
  - destruct l as [|x l]; simpl in Hl.
    + rewrite app_nil_r in *. destruct Hnew as (e' & He' & HP); [set_solver|].
      exists e'. split; [|done]. set_solver.
    + simplify_eq. by eapply Hold.
  - destruct Hnew as (e' & He' & HP); [set_solver|].
    exists e'. split; [|done]. set_solver.
Qed.

Lemma move_rank s ev b c c' : move s ev b c c' → (rank c ≤ rank c')%nat.
Proof. destruct 1; simpl; try lia. destruct ok; simpl; lia. Qed.

Lemma move_fulfilled s ev b c' : move s ev b (Some Fulfilled) c' → c' = Some Fulfilled.
Proof. by inversion 1. Qed.

Lemma move_failed s ev b c' : move s ev b (Some Failed) c' → c' = Some Failed.
Proof. by inversion 1. Qed.

Lemma move_reached s ev b c c' e : move s ev b c c' → reached c e → reached c' e.
Proof.
  intros Hm. pose proof (move_rank _ _ _ _ _ Hm) as Hr.
  destruct e as [a|a x|a|a [|]|a]; simpl.
  - destruct Hm; try done.
  - lia.
  - lia.
  - intros [->| ->]; [|right; by eapply move_fulfilled].
    inversion Hm; [by left|by right].
  - intros ->. by eapply move_failed.
  - intros ->. by eapply move_fulfilled.
Qed.

Lemma step_settled l s s' ev c :
  step l s = Some (s', ev) → settled s c = true → settled s' c = true.
Proof.
  intros H. pose proof (step_move _ _ _ _ H c) as Hm. unfold settled.
  destruct (progress_of s c) as [[]|] eqn:Hp; try done; intros _.
  - by rewrite (move_fulfilled _ _ _ _ Hm).
  - by rewrite (move_failed _ _ _ _ Hm).
Qed.

Lemma settled_rank s c : settled s c = true → rank (progress_of s c) = 5.
Proof. unfold settled. by destruct (progress_of s c) as [[]|]. Qed.

Lemma fired_reached s s' e : fired s s' e → reached (progress_of s' (subject e)) e.
Proof.
  destruct e as [a|a x|a|a [|]|a]; simpl.
  - by intros [_ ?].
  - intros (cs & _ & _ & ->). simpl. lia.
  - intros (cs & _ & _ & ->). simpl. lia.
  - intros [_ ->]. by left.
  - by intros [_ ->].
  - by intros [_ ->].
Qed.

Lemma fired_not_reached s s' e :
  fired s s' e → ¬ reached (progress_of s (subject e)) e.
Proof.
  destruct e as [a|a x|a|a [|]|a]; simpl.
  - intros [-> _] H. by apply H.
  - intros (cs & -> & _). simpl. lia.
  - intros (cs & -> & _). simpl. lia.
  - intros [-> _] [?|?]; done.
  - by intros [-> _].
  - by intros [-> _].
Qed.

Lemma mapper_children_nil a tr :
  (∀ c, EvMapper a c ∉ tr) → mapper_children a tr = [].
Proof.
  induction tr as [|e tr IH]; intros H; [done|].
  change (e :: tr) with ([e] ++ tr)%list.
  rewrite mapper_children_app, IH by set_solver.
  destruct e as [b|b c|b|b ok|b]; try done.
  unfold mapper_children; simpl.
  destruct (String.eqb_spec b a) as [->|]; [|done].
  exfalso. apply (H c). set_solver.
Qed.

Lemma fresh_progress s a : fresh s → progress_of s a = None.
Proof.
  intros Hf. unfold progress_of.
  destruct (actors s !! a) as [A|] eqn:HA; [|done]; simpl.
  by destruct (Hf a A HA) as [-> _].
Qed.

Lemma fresh_NoDup s a cs : fresh s → kids s a = Some cs → NoDup cs.
Proof.
  intros Hf. unfold kids.
  destruct (actors s !! a) as [A|] eqn:HA; [|done]; simpl.
  intros; simplify_eq. by destruct (Hf a A HA) as (_ & _ & ?).
Qed.

Lemma inv_init s0 : fresh s0 → inv s0 s0 [].
Proof.
  intros Hf. split; try (intros; by apply preceded_nil).
  - intros a Hk. split; [done|by apply fresh_progress].
  - intros a cs0 Hk. exists cs0. split_and!; [done|done|by left].
  - intros a cs0 cs _. rewrite fresh_progress by done. by intros [?|?].
  - intros a cs0 c _. rewrite fresh_progress by done. simpl. lia.
  - intros a. unfold state_of.
    destruct (actors s0 !! a) as [A|] eqn:HA; [|done]; simpl.
    destruct (Hf a A HA) as (_ & Hst & _). congruence.
  - intros e He. by apply elem_of_nil in He.
  - intros a. rewrite fresh_progress by done. simpl. lia.
  - intros a. rewrite fresh_progress by done. by intros [?|?].
  - intros a. by rewrite fresh_progress.
  - intros a. by rewrite fresh_progress.
  - constructor.
  - intros a cs0 _. apply sublist_nil_l.
  - intros a cs0 c _. rewrite fresh_progress by done. simpl. lia.
Qed.

(** Once the hook of an actor has been invoked, the whole tree below the
    actor is settled. *)
Lemma inv_descendants s0 s tr a d :
  inv s0 s tr → descendant s0 a d →
  (∀ c, child_of s0 a c → settled s c = true) → settled s d = true.
Proof.
  intros Hinv Hd. induction Hd as [a c Hc|a c d Hc Hd IH]; intros Hall.
  - by apply Hall.
  - apply IH. intros c' (cs0 & Hk & Hc').
    eapply (inv_hook _ _ _ Hinv c); [done| |done].
    rewrite settled_rank; [lia|]. by apply Hall.
Qed.

Lemma settled_cases s c :
  settled s c = true →
  progress_of s c = Some Fulfilled ∨ progress_of s c = Some Failed.
Proof. unfold settled. destruct (progress_of s c) as [[]|]; auto; done. Qed.

(** The guard of [LHookStart] with the invariant: every child that the
    actor had at the start is settled. *)
Lemma guard_children s0 s tr a cs :
  inv s0 s tr → progress_of s a = Some (Awaiting cs) →
  forallb (settled s) cs = true →
  ∀ c, child_of s0 a c → settled s c = true.
Proof.
  intros Hinv Hp Hg c (cs0 & Hk & Hc).
  destruct (inv_snap _ _ _ Hinv a cs0 cs Hk (or_intror Hp)) as [_ Hcov].
  destruct (Hcov c Hc) as [Hin|Hful].
  - rewrite forallb_forall in Hg. apply Hg. by apply list_elem_of_In.
  - unfold settled. by rewrite Hful.
Qed.

Lemma without_sublist x cs : sublist (without x cs) cs.
Proof. apply sublist_filter. Qed.

Lemma move_inv s ev b c c' :
  move s ev b c c' →
  c' = c ∨
  (∃ cs, c = None ∧ c' = Some (Mapping cs) ∧ kids s b = Some cs ∧ EvDestroying b ∈ ev) ∨
  (∃ cs, c = Some (Mapping cs) ∧ c' = Some (Awaiting cs) ∧
         ∀ x, x ∈ cs → EvMapper b x ∈ ev) ∨
  (∃ cs, c = Some (Awaiting cs) ∧ c' = Some InHook ∧
         forallb (settled s) cs = true ∧ EvHookInvoked b ∈ ev) ∨
  (c = Some InHook ∧ c' = Some Hooked ∧ EvHookCompleted b true ∈ ev) ∨
  (c = Some InHook ∧ c' = Some Failed ∧ EvHookCompleted b false ∈ ev) ∨
  (c = Some Hooked ∧ c' = Some Fulfilled ∧ EvDestroyed b ∈ ev).
Proof.
  destruct 1 as [c|cs Hk He|cs He|cs Hg He|ok He|He].
  - by left.
  - right; left. by exists cs.
  - do 2 right; left. by exists cs.
  - do 3 right; left. by exists cs.
  - destruct ok; [do 4 right; left|do 5 right; left]; done.
  - do 6 right. done.
Qed.

Ltac move_cases Hmove a :=
  destruct (move_inv _ _ _ _ _ (Hmove a))
    as [Hsame|[(cs2 & Hpre & Hpost & Hk2 & He)|[(cs2 & Hpre & Hpost & He)
       |[(cs2 & Hpre & Hpost & Hg & He)|[(Hpre & Hpost & He)
       |[(Hpre & Hpost & He)|(Hpre & Hpost & He)]]]]]].

Lemma inv_step s0 s tr l s' ev :
  fresh s0 → inv s0 s tr → step l s = Some (s', ev) → inv s0 s' (tr ++ ev)%list.
Proof.
  intros Hf Hinv Hstep.
  pose proof (step_move _ _ _ _ Hstep) as Hmove.
  pose proof (step_events _ _ _ _ Hstep) as Hev.
  assert (Hful : ∀ c, progress_of s c = Some Fulfilled → progress_of s' c = Some Fulfilled).
  { intros c Hc. specialize (Hmove c). rewrite Hc in Hmove.
    by eapply move_fulfilled. }
  assert (Hcov : ∀ (cs cs0 : list string),
             (∀ c, c ∈ cs0 → c ∈ cs ∨ progress_of s c = Some Fulfilled) →
             ∀ c, c ∈ cs0 → c ∈ cs ∨ progress_of s' c = Some Fulfilled).
  { intros cs cs0 H c Hc. destruct (H c Hc); auto. }
  split.
  - (* inv_dom *)
    intros a Hk0. destruct (inv_dom _ _ _ Hinv a Hk0) as [Hk Hp].
    assert (kids s' a = None) as Hk'.
    { destruct (step_kids _ _ _ _ Hstep a) as [->|(x & _ & ->)]; by rewrite Hk. }
    split; [done|].
    move_cases Hmove a; rewrite ?Hsame; congruence.
  - (* inv_kids *)
    intros a cs0 Hk0.
    destruct (inv_kids _ _ _ Hinv a cs0 Hk0) as (cs & Hk & Hsub & Hc).
    destruct (step_kids _ _ _ _ Hstep a) as [Hk'|(x & Hx & Hk')]; rewrite Hk' , Hk.
    + exists cs. split_and!; [done|done|by eapply Hcov].
    + exists (without x cs). split_and!; [done| |].
      * etrans; [apply without_sublist|done].
      * intros c Hcin. destruct (Hc c Hcin) as [Hin|Hfu]; [|by right; apply Hful].
        destruct (decide (c = x)) as [->|Hne]; [by right|left].
        unfold without. by apply list_elem_of_filter.
  - (* inv_snap *)
    intros a cs0 cs Hk0 Hp'.
    destruct (inv_kids _ _ _ Hinv a cs0 Hk0) as (cs1 & Hk & Hsub & Hc).
    move_cases Hmove a; rewrite ?Hpost in Hp'.
    + rewrite Hsame in Hp'.
      destruct (inv_snap _ _ _ Hinv a cs0 cs Hk0 Hp') as [? ?].
      split; [done|by eapply Hcov].
    + destruct Hp' as [?|?]; simplify_eq.
      split; [done|by eapply Hcov].
    + destruct Hp' as [?|?]; simplify_eq.
      destruct (inv_snap _ _ _ Hinv a cs0 cs Hk0) as [? ?]; [by left|].
      split; [done|by eapply Hcov].
    + by destruct Hp'.
    + by destruct Hp'.
    + by destruct Hp'.
    + by destruct Hp'.
  - (* inv_hook *)
    intros a cs0 c Hk0 Hr Hc.
    destruct (decide (3 ≤ rank (progress_of s a))%nat) as [Hold|Hnew].
    { eapply step_settled; [done|]. by eapply (inv_hook _ _ _ Hinv). }
    move_cases Hmove a; rewrite ?Hsame, ?Hpre, ?Hpost in *; simpl in *; try lia.
    eapply step_settled; [done|].
    eapply guard_children; [done|done|done|by exists cs0].
  - (* inv_state *)
    intros a Hst.
    destruct (step_state _ _ _ _ Hstep a Hst) as [Hold|?]; [|done].
    apply Hful. by apply (inv_state _ _ _ Hinv).
  - (* inv_reached *)
    intros e [He|He]%elem_of_app.
    + eapply move_reached; [apply Hmove|]. by apply (inv_reached _ _ _ Hinv).
    + apply fired_reached with s. by apply Hev.
  - (* inv_invoked *)
    intros a Hr. apply elem_of_app.
    destruct (decide (3 ≤ rank (progress_of s a))%nat) as [Hold|Hnew].
    { left. by apply (inv_invoked _ _ _ Hinv). }
    move_cases Hmove a; rewrite ?Hsame, ?Hpre, ?Hpost in *; simpl in *; try lia.
    by right.
  - (* inv_resolved *)
    intros a Hp. apply elem_of_app.
    move_cases Hmove a; rewrite ?Hpost in Hp; try (by destruct Hp); try (by right).
    + left. apply (inv_resolved _ _ _ Hinv). by rewrite <-Hsame.
    + left. apply (inv_resolved _ _ _ Hinv). by left.
  - (* inv_rejected *)
    intros a Hp. apply elem_of_app.
    move_cases Hmove a; rewrite ?Hpost in Hp; try done; try (by right).
    left. apply (inv_rejected _ _ _ Hinv). by rewrite <-Hsame.
  - (* inv_emitted *)
    intros a Hp. apply elem_of_app.
    move_cases Hmove a; rewrite ?Hpost in Hp; try done; try (by right).
    left. apply (inv_emitted _ _ _ Hinv). by rewrite <-Hsame.
  - (* inv_NoDup *)
    apply NoDup_app. split_and!.
    + apply (inv_NoDup _ _ _ Hinv).
    + intros e He1 He2. apply (fired_not_reached s s' e); [by apply Hev|].
      by apply (inv_reached _ _ _ Hinv).
    + eapply step_NoDup; [done|]. intros b cs Hp.
      destruct (kids s0 b) as [cs0|] eqn:Hk0.
      * destruct (inv_snap _ _ _ Hinv b cs0 cs Hk0 (or_introl Hp)) as [Hsub _].
        eapply sublist_NoDup; [|done]. by eapply fresh_NoDup.
      * destruct (inv_dom _ _ _ Hinv b Hk0). congruence.
  - (* inv_mapper *)
    intros a cs0 Hk0. rewrite mapper_children_app.
    destruct (step_mapper _ _ _ _ Hstep a) as [->|Hp].
    + rewrite app_nil_r. by apply (inv_mapper _ _ _ Hinv).
    + rewrite mapper_children_nil.
      * by destruct (inv_snap _ _ _ Hinv a cs0 _ Hk0 (or_introl Hp)).
      * intros c Hc. apply (inv_reached _ _ _ Hinv) in Hc. simpl in Hc.
        rewrite Hp in Hc. simpl in Hc. lia.
  - (* inv_mapped *)
    intros a cs0 c Hk0 Hr Hc. rewrite !elem_of_app.
    destruct (decide (2 ≤ rank (progress_of s a))%nat) as [Hold|Hnew].
    { destruct (inv_mapped _ _ _ Hinv a cs0 c Hk0 Hold Hc); auto. }
    move_cases Hmove a; rewrite ?Hsame, ?Hpre, ?Hpost in *; simpl in *; try lia.
    destruct (inv_snap _ _ _ Hinv a cs0 cs2 Hk0 (or_introl Hpre)) as [_ Hcov'].
    destruct (Hcov' c Hc) as [Hin|Hfu].
    + left; right. by apply He.
    + right; left. by apply (inv_emitted _ _ _ Hinv).
  - (* inv_post *)
    intros a d Hd. apply preceded_app; [by apply (inv_post _ _ _ Hinv)|].
    intros He. apply Hev in He as (cs & Hp & Hg & _).
    assert (settled s d = true) as Hs.
    { eapply inv_descendants; [done|done|]. by eapply guard_children. }
    destruct (settled_cases _ _ Hs) as [Hd'|Hd'].
    + exists (EvHookCompleted d true). split; [|by exists true].
      apply (inv_resolved _ _ _ Hinv). by right.
    + exists (EvHookCompleted d false). split; [|by exists false].
      by apply (inv_rejected _ _ _ Hinv).
  - (* inv_before *)
    intros a c Hc. apply preceded_app; [by apply (inv_before _ _ _ Hinv)|].
    intros He. apply Hev in He as (cs & Hp & Hg & _).
    assert (settled s c = true) as Hs by (by eapply guard_children).
    destruct (settled_cases _ _ Hs) as [Hd'|Hd'].
    + exists (EvDestroyed c). split; [|by left].
      by apply (inv_emitted _ _ _ Hinv).
    + exists (EvHookCompleted c false). split; [|by right].
      by apply (inv_rejected _ _ _ Hinv).
  - (* inv_own *)
    intros a. apply preceded_app; [by apply (inv_own _ _ _ Hinv)|].
    intros He. apply Hev in He as [Hp _].
    exists (EvHookCompleted a true). split; [|done].
    apply (inv_resolved _ _ _ Hinv). by left.
Qed.

Lemma run_snoc ls l s s' tr :
  run (ls ++ [l]) s = Some (s', tr) →
  ∃ s1 tr1 ev, run ls s = Some (s1, tr1) ∧ step l s1 = Some (s', ev) ∧
               tr = (tr1 ++ ev)%list.
Proof.
  revert s s' tr. induction ls as [|l0 ls IH]; intros s s' tr; simpl.
  - destruct (step l s) as [[s1 ev1]|] eqn:Hs; simpl; [|done].
    intros; simplify_eq. exists s, [], ev1. by rewrite app_nil_r.
  - destruct (step l0 s) as [[s1 ev1]|] eqn:Hs; simpl; [|done].
    destruct (run (ls ++ [l]) s1) as [[s2 ev2]|] eqn:Hr; simpl; [|done].
    intros; simplify_eq.
    destruct (IH _ _ _ Hr) as (s3 & tr3 & ev3 & -> & Hst & ->). simpl.
    exists s3, (ev1 ++ tr3)%list, ev3. by rewrite app_assoc.
Qed.

Lemma inv_run s0 ls s tr :
  fresh s0 → run ls s0 = Some (s, tr) → inv s0 s tr.
Proof.
  intros Hf. revert s tr. induction ls as [|l ls IH] using rev_ind; intros s tr H.
  - simpl in H. simplify_eq. by apply inv_init.
  - apply run_snoc in H as (s1 & tr1 & ev & Hr & Hs & ->).
    eapply inv_step; eauto.
Qed.

(** *** The promise of [destroy()] *)

Lemma destroy_pid a s p s' ev :
  destroy a s = Some (p, s', ev) → pid_of s' a = Some p.
Proof.
  unfold destroy, pid_of. intros H.
  destruct (actors s !! a) as [A|] eqn:HA; simpl in *; [|done].
  destruct (destroyPromise A) as [q|] eqn:Hq; simpl in *; simplify_eq.
  - by rewrite HA; simpl; rewrite Hq.
  - simpl. by rewrite lookup_insert_eq.
Qed.

Lemma pid_destroy a s p :
  pid_of s a = Some p → destroy a s = Some (p, s, []).
Proof.
  unfold destroy, pid_of. intros H.
  destruct (actors s !! a) as [A|] eqn:HA; simpl in *; [|done].
  destruct (destroyPromise A) as [q|] eqn:Hq; simpl in *; by simplify_eq.
Qed.

Lemma destroy_keeps_pid a b s p q s' ev :
  pid_of s b = Some q → destroy a s = Some (p, s', ev) → pid_of s' b = Some q.
Proof.
  intros Hq Hd. destruct (decide (a = b)) as [->|Hab].
  - rewrite (pid_destroy _ _ _ Hq) in Hd. by simplify_eq.
  - unfold destroy in Hd. unfold pid_of in *.
    destruct (actors s !! a) as [A|] eqn:HA; simpl in *; [|done].
    destruct (destroyPromise A) as [r|] eqn:Hr; simpl in *; simplify_eq; [done|].
    simpl. by rewrite lookup_insert_ne.
Qed.

Lemma map_children_keeps_pid a cs b s q s' ev :
  pid_of s b = Some q → map_children a cs s = Some (s', ev) → pid_of s' b = Some q.
Proof.
  revert s s' ev. induction cs as [|c rest IH]; intros s s' ev Hq H.
  - simpl in H. by simplify_eq.
  - apply map_children_unfold in H as (p & s1 & ev1 & ev2 & Hd & Hm & ->).
    eapply IH; [|done]. by eapply destroy_keeps_pid.
Qed.

Lemma update_keeps_pid a f b s q :
  (∀ A, pid <$> destroyPromise (f A) = pid <$> destroyPromise A) →
  pid_of s b = Some q → pid_of (update a f s) b = Some q.
Proof.
  intros Hf. unfold pid_of, update; simpl.
  destruct (decide (a = b)) as [->|Hab].
  - rewrite lookup_alter_eq. destruct (actors s !! b) as [B|]; simpl; [|done].
    by rewrite Hf.
  - by rewrite lookup_alter_ne.
Qed.

Lemma set_progress_pid c A :
  pid <$> destroyPromise (set_progress c A) = pid <$> destroyPromise A.
Proof. unfold set_progress; simpl. by destruct (destroyPromise A). Qed.

Lemma on_destroyed_keeps_pid a b s q :
  pid_of s b = Some q → pid_of (on_destroyed a s) b = Some q.
Proof.
  intros Hq. unfold on_destroyed.
  destruct (actors s !! a) as [A|]; [|done].
  destruct (parent A) as [p|]; [|done].
  by apply update_keeps_pid.
Qed.

Lemma step_keeps_pid l b s q s' ev :
  pid_of s b = Some q → step l s = Some (s', ev) → pid_of s' b = Some q.
Proof.
  intros Hq H. destruct l as [a|a|a|a|a].
  - apply step_LCall in H as [p Hd]. by eapply destroy_keeps_pid.
  - apply step_LMap in H as (cs & s1 & Hp & Hm & ->).
    apply update_keeps_pid; [apply set_progress_pid|].
    by eapply map_children_keeps_pid.
  - apply step_LHookStart in H as (cs & Hp & Hs & -> & ->).
    by apply update_keeps_pid; [apply set_progress_pid|].
  - apply step_LHookEnd in H as (ok & Hp & -> & ->).
    by apply update_keeps_pid; [apply set_progress_pid|].
  - apply step_LFinish in H as (Hp & -> & ->).
    apply on_destroyed_keeps_pid.
    apply update_keeps_pid; [|done].
    intros A. unfold set_progress; simpl. by destruct (destroyPromise A).
Qed.

Lemma run_keeps_pid ls b s q s' tr :
  pid_of s b = Some q → run ls s = Some (s', tr) → pid_of s' b = Some q.
Proof.
  revert s s' tr. induction ls as [|l ls IH]; intros s s' tr Hq; simpl.
  - intros; by simplify_eq.
  - destruct (step l s) as [[s1 ev1]|] eqn:Hs; simpl; [|done].
    destruct (run ls s1) as [[s2 ev2]|] eqn:Hr; simpl; [|done].
    intros; simplify_eq. eapply IH; [|done]. by eapply step_keeps_pid.
Qed.

(** *** Destroyed children leave [childPromises] *)

Lemma parent_of_update a f s c :
  (∀ A, parent (f A) = parent A) → parent_of (update a f s) c = parent_of s c.
Proof.
  intros Hf. unfold parent_of, update; simpl.
  destruct (decide (a = c)) as [->|Hne].
  - rewrite lookup_alter_eq. destruct (actors s !! c); simpl; [|done]. by rewrite Hf.
  - by rewrite lookup_alter_ne.
Qed.

Lemma parent_of_on_destroyed a s c : parent_of (on_destroyed a s) c = parent_of s c.
Proof.
  unfold on_destroyed. destruct (actors s !! a) as [A|]; [|done].
  destruct (parent A) as [p|]; [|done]. by apply parent_of_update.
Qed.

Lemma destroy_parent a s p s' ev c :
  destroy a s = Some (p, s', ev) → parent_of s' c = parent_of s c.
Proof.
  unfold destroy, parent_of. intros H.
  destruct (actors s !! a) as [A|] eqn:HA; simpl in *; [|done].
  destruct (destroyPromise A) as [q|] eqn:Hq; simpl in *; simplify_eq; [done|].
  simpl. destruct (decide (a = c)) as [->|Hne].
  - by rewrite lookup_insert_eq, HA.
  - by rewrite lookup_insert_ne.
Qed.

Lemma map_children_parent a cs s s' ev c :
  map_children a cs s = Some (s', ev) → parent_of s' c = parent_of s c.
Proof.
  revert s s' ev. induction cs as [|c0 rest IH]; intros s s' ev H.
  - simpl in H. by simplify_eq.
  - apply map_children_unfold in H as (p & s1 & ev1 & ev2 & Hd & Hm & ->).
    rewrite (IH _ _ _ Hm). by eapply destroy_parent.
Qed.

Lemma step_parent l s s' ev c :
  step l s = Some (s', ev) → parent_of s' c = parent_of s c.
Proof.
  intros H. destruct l as [a|a|a|a|a].
  - apply step_LCall in H as [p Hd]. by eapply destroy_parent.
  - apply step_LMap in H as (cs & s1 & Hp & Hm & ->).
    rewrite parent_of_update by done. by eapply map_children_parent.
  - apply step_LHookStart in H as (cs & Hp & Hs & -> & ->). by rewrite parent_of_update.
  - apply step_LHookEnd in H as (ok & Hp & -> & ->). by rewrite parent_of_update.
  - apply step_LFinish in H as (Hp & -> & ->).
    by rewrite parent_of_on_destroyed, parent_of_update.
Qed.

Lemma finish_kids c s s' ev a :
  step (LFinish c) s = Some (s', ev) → parent_of s c = Some (Some a) →
  kids s' a = without c <$> kids s a.
Proof.
  intros H Hpar. apply step_LFinish in H as (Hp & -> & ->).
  rewrite <-(kids_finish c s a).
  rewrite <-(parent_of_update c (fun A => set_progress Fulfilled (_setState "destroyed" A))
               s c (fun _ => eq_refl)) in Hpar.
  set (s2 := update c (fun A => set_progress Fulfilled (_setState "destroyed" A)) s) in *.
  unfold on_destroyed, parent_of in *.
  destruct (actors s2 !! c) as [C|]; simpl in Hpar; [|done].
  simplify_eq. rewrite Hpar, kids_update_eq. unfold kids.
  by destruct (actors s2 !! a).
Qed.

Lemma step_fulfils l s s' ev c :
  step l s = Some (s', ev) → progress_of s c ≠ Some Fulfilled →
  progress_of s' c = Some Fulfilled → l = LFinish c.
Proof.
  intros H Hpre Hpost. destruct l as [a|a|a|a|a].
  - apply step_LCall in H as [p Hd].
    apply destroy_spec in Hd
      as [(ch & Hch & -> & ->)|(cs1 & Hn1 & Hk1 & -> & _ & Hp1 & _)]; [done|].
    rewrite Hp1 in Hpost. case_decide; by simplify_eq.
  - apply step_LMap in H as (cs & s1 & Hp & Hm & ->).
    rewrite progress_of_set_progress in Hpost.
    destruct (map_children_progress _ _ _ _ _ Hm c)
      as [Heq|(Hin & Hnone & Hev & cs' & Hk & Hp')].
    + rewrite Heq in Hpost. case_decide; [|done].
      subst. rewrite Hp in Hpost. done.
    + rewrite Hp' in Hpost. case_decide; done.
  - apply step_LHookStart in H as (cs & Hp & Hs & -> & ->).
    rewrite progress_of_set_progress in Hpost. case_decide; [|done].
    subst. by rewrite Hp in Hpost.
  - apply step_LHookEnd in H as (ok & Hp & -> & ->).
    rewrite progress_of_set_progress in Hpost. case_decide; [|done].
    subst. rewrite Hp in Hpost. by destruct ok.
  - apply step_LFinish in H as (Hp & -> & ->).
    rewrite progress_of_on_destroyed, progress_of_finish in Hpost.
    case_decide; [by subst|done].
Qed.

Lemma run_parent ls s s' tr c :
  run ls s = Some (s', tr) → parent_of s' c = parent_of s c.
Proof.
  revert s s' tr. induction ls as [|l ls IH]; intros s s' tr; simpl.
  - intros; by simplify_eq.
  - destruct (step l s) as [[s1 ev1]|] eqn:Hs; simpl; [|done].
    destruct (run ls s1) as [[s2 ev2]|] eqn:Hr; simpl; [|done].
    intros; simplify_eq. rewrite (IH _ _ _ Hr). by eapply step_parent.
Qed.

Lemma kids_within s0 s tr a cs c :
  inv s0 s tr → kids s a = Some cs → c ∈ cs →
  ∃ cs0, kids s0 a = Some cs0 ∧ c ∈ cs0.
Proof.
  intros Hinv Hk Hc. destruct (kids s0 a) as [cs0|] eqn:Hk0.
  - exists cs0. split; [done|].
    destruct (inv_kids _ _ _ Hinv a cs0 Hk0) as (cs' & Hk' & Hsub & _).
    simplify_eq. by eapply sublist_subseteq.
  - destruct (inv_dom _ _ _ Hinv a Hk0). congruence.
Qed.

Lemma fulfilled_dropped s0 ls s tr :
  fresh s0 → wf_parents s0 → run ls s0 = Some (s, tr) →
  ∀ a cs c, kids s a = Some cs → c ∈ cs → progress_of s c ≠ Some Fulfilled.
Proof.
  intros Hf Hwf. revert s tr.
  induction ls as [|l ls IH] using rev_ind; intros s tr H a cs c Hk Hc.
  - simpl in H. simplify_eq. by rewrite fresh_progress.
  - apply run_snoc in H as (s1 & tr1 & ev & Hr & Hs & ->).
    pose proof (inv_run _ _ _ _ Hf Hr) as Hinv.
    assert (∃ cs1, kids s1 a = Some cs1 ∧ c ∈ cs1) as (cs1 & Hk1 & Hc1).
    { destruct (step_kids _ _ _ _ Hs a) as [Hk'|(x & _ & Hk')]; rewrite Hk' in Hk.
      - by exists cs.
      - destruct (kids s1 a) as [cs1|]; simpl in Hk; [|done].
        exists cs1. split; [done|]. simplify_eq.
        unfold without in Hc. by apply list_elem_of_filter in Hc as [_ ?]. }
    intros Hful.
    assert (l = LFinish c) as -> by (eapply step_fulfils; eauto).
    destruct (kids_within _ _ _ _ _ _ Hinv Hk1 Hc1) as (cs0 & Hk0 & Hc0).
    pose proof (Hwf a cs0 c Hk0 Hc0) as Hpar.
    rewrite <-(run_parent _ _ _ _ c Hr) in Hpar.
    rewrite (finish_kids _ _ _ _ _ Hs Hpar), Hk1 in Hk. simpl in Hk. simplify_eq.
    unfold without in Hc. apply list_elem_of_filter in Hc as [Hne _]. done.
Qed.


(** ** Metrics *)

Lemma obj_get_set k k' v o :
  obj_get k (obj_set k' v o) = if String.eqb k' k then Some v else obj_get k o.
Proof.
  induction o as [|[k0 v0] o IH]; simpl.
  - done.
  - destruct (String.eqb_spec k0 k') as [->|Hne]; simpl.
    + destruct (String.eqb_spec k' k) as [->|Hne']; [done|].
      destruct (String.eqb_spec k' k); done.
    + destruct (String.eqb_spec k0 k) as [->|Hne0].
      * destruct (String.eqb_spec k' k); [congruence|done].
      * done.
Qed.

Lemma metrics_unfold fuel s a :
  metrics (S fuel) s a =
    A ← actors s !! a;
    foldl (collect fuel s)
          (Some (if negb (isEmpty (metrics0 A)) then metrics0 A else []))
          (childPromises A).
Proof. reflexivity. Qed.

Lemma collect_None fuel s cs : foldl (collect fuel s) None cs = None.
Proof. induction cs; simpl; done. Qed.

Lemma ret_self (o : object) : (if negb (isEmpty o) then o else []) = o.
Proof. by destruct o. Qed.

Lemma collect_lookup fuel s cs memo m k :
  foldl (collect fuel s) (Some memo) cs = Some m →
  obj_get k m =
    match last_named s k cs with
    | Some c => VObj "Object" <$> metrics fuel s c
    | None => obj_get k memo
    end.
Proof.
  revert memo. induction cs as [|c rest IH]; intros memo H.
  - simpl in *. by simplify_eq.
  - change (foldl (collect fuel s) (collect fuel s (Some memo) c) rest = Some m) in H.
    destruct (collect fuel s (Some memo) c) as [memo'|] eqn:Hc;
      [|by rewrite collect_None in H].
    unfold collect in Hc; simpl in Hc. simpl. unfold name_of.
    destruct (actors s !! c) as [C|] eqn:HC; simpl in Hc; [|discriminate Hc].
    destruct (metrics fuel s c) as [cm|] eqn:Hcm; simpl in Hc; [|discriminate Hc].
    simplify_eq. rewrite (IH _ H).
    destruct (last_named s k rest); [done|].
    rewrite obj_get_set. simpl.
    destruct (String.eqb (name C) k); [by rewrite Hcm|done].
Qed.

Lemma collect_total fuel s cs memo :
  (∀ c, c ∈ cs → is_Some (actors s !! c) ∧ is_Some (metrics fuel s c)) →
  is_Some (foldl (collect fuel s) (Some memo) cs).
Proof.
  revert memo. induction cs as [|c rest IH]; intros memo Hall.
  - done.
  - destruct (Hall c) as [[C HC] [cm Hcm]]; [by apply list_elem_of_here|].
    change (is_Some (foldl (collect fuel s) (collect fuel s (Some memo) c) rest)).
    unfold collect at 2; simpl. rewrite HC, Hcm; simpl. apply IH. intros c' Hc'. by apply Hall, list_elem_of_further.
Qed.

Lemma metrics_total n s a : hierarchy n s a = true → is_Some (metrics n s a).
Proof.
  revert a. induction n as [|n IH]; intros a; [done|].
  rewrite metrics_unfold. simpl.
  destruct (actors s !! a) as [A|]; simpl; [|done].
  rewrite forallb_forall. intros Hall.
  apply collect_total. intros c Hc.
  assert (hierarchy n s c = true) as Hh by (by apply Hall, list_elem_of_In).
  split; [|by apply IH].
  destruct n as [|n']; [done|]. simpl in Hh. by destruct (actors s !! c).
Qed.

(** ** Destruction and metrics: the properties *)

Lemma fresh_checked (s : store) :
  map_Forall (fun _ A => fresh_actor A = true) (actors s) → fresh s.
Proof.
  intros Hall a A HA. specialize (Hall a A HA). simpl in Hall.
  unfold fresh_actor in Hall.
  apply andb_prop in Hall as [Hall Hnd]. apply andb_prop in Hall as [Hp Hst].
  split_and!.
  - by destruct (destroyPromise A).
  - intros Heq. rewrite Heq in Hst. done.
  - by apply bool_decide_eq_true in Hnd.
Qed.

Lemma tree3_fresh : fresh Samples.tree3.
Proof.
  apply fresh_checked. unfold Samples.tree3; simpl.
  repeat (apply map_Forall_insert_2; [by vm_compute|]).
  apply map_Forall_empty.
Qed.

Lemma family_fresh n1 n2 : fresh (Samples.family n1 n2).
Proof.
  apply fresh_checked. unfold Samples.family; simpl.
  repeat (apply map_Forall_insert_2; [by vm_compute|]).
  apply map_Forall_empty.
Qed.

(** C2.  In every run that starts from a system in which no actor is
    being destroyed, whatever the order in which the callbacks of the
    promise chains are taken and whoever calls [destroy()]:
    - when the [destroy0] hook of an actor is invoked, the hook of every
      transitive descendant of the actor has completed;
    - when an actor emits ['destroyed'], its own hook has resolved;
    - an actor in state ['destroyed'] has emitted ['destroyed']. *)
Theorem destroy_post_order (s0 : store) (ls : list label) (s : store) (tr : list event) :
  fresh s0 → run ls s0 = Some (s, tr) →
  (∀ a d tr1 tr2, descendant s0 a d → tr = (tr1 ++ EvHookInvoked a :: tr2)%list →
     ∃ ok, EvHookCompleted d ok ∈ tr1) ∧
  (∀ a tr1 tr2, tr = (tr1 ++ EvDestroyed a :: tr2)%list →
     EvHookCompleted a true ∈ tr1) ∧
  (∀ a, state_of s a = Some "destroyed" → EvDestroyed a ∈ tr).
Proof.
  intros Hf Hr. pose proof (inv_run _ _ _ _ Hf Hr) as Hinv. split_and!.
  - intros a d tr1 tr2 Hd Htr.
    destruct (inv_post _ _ _ Hinv a d Hd tr1 tr2 Htr) as (e & He & ok & ->).
    by exists ok.
  - intros a tr1 tr2 Htr.
    by destruct (inv_own _ _ _ Hinv a tr1 tr2 Htr) as (e & He & <-).
  - intros a Hst. apply (inv_emitted _ _ _ Hinv). by apply (inv_state _ _ _ Hinv).
Qed.

Lemma destroy_post_order_witness :
  fresh Samples.tree3 ∧
  (∃ s, run Samples.tree3_schedule Samples.tree3
        = Some (s, [EvDestroying "root"; EvMapper "root" "child";
                    EvDestroying "child"; EvMapper "child" "grandchild";
                    EvDestroying "grandchild"; EvHookInvoked "grandchild";
                    EvHookCompleted "grandchild" true; EvDestroyed "grandchild";
                    EvHookInvoked "child"; EvHookCompleted "child" true;
                    EvDestroyed "child"; EvHookInvoked "root";
                    EvHookCompleted "root" true; EvDestroyed "root"])) ∧
  descendant Samples.tree3 "root" "grandchild" ∧
  ∃ ok, EvHookCompleted "grandchild" ok
        ∈ [EvDestroying "root"; EvMapper "root" "child";
           EvDestroying "child"; EvMapper "child" "grandchild";
           EvDestroying "grandchild"; EvHookInvoked "grandchild";
           EvHookCompleted "grandchild" true; EvDestroyed "grandchild";
           EvHookInvoked "child"; EvHookCompleted "child" true;
           EvDestroyed "child"].
Proof.
  assert (descendant Samples.tree3 "root" "grandchild") as Hd.
  { apply desc_step with "child".
    - exists ["child"]. split; [reflexivity|]. apply list_elem_of_here.
    - apply desc_child. exists ["grandchild"]. split; [reflexivity|].
      apply list_elem_of_here. }
  destruct (run Samples.tree3_schedule Samples.tree3) as [[s tr]|] eqn:Hr;
    [|by vm_compute in Hr].
  assert (tr = [EvDestroying "root"; EvMapper "root" "child";
                EvDestroying "child"; EvMapper "child" "grandchild";
                EvDestroying "grandchild"; EvHookInvoked "grandchild";
                EvHookCompleted "grandchild" true; EvDestroyed "grandchild";
                EvHookInvoked "child"; EvHookCompleted "child" true;
                EvDestroyed "child"; EvHookInvoked "root";
                EvHookCompleted "root" true; EvDestroyed "root"]) as ->.
  { apply (f_equal (fmap snd)) in Hr. vm_compute in Hr. by simplify_eq. }
  split_and!; [apply tree3_fresh|by exists s|done|].
  destruct (destroy_post_order _ _ _ _ tree3_fresh Hr) as (Hpost & _ & _).
  eapply (Hpost "root" "grandchild" _ [EvHookCompleted "root" true; EvDestroyed "root"] Hd).
  reflexivity.
Defined.

(** *** The turn of the mapper *)

(** The events of a step that calls the mapper of [a] are those of the
    turn of this mapper. *)
Lemma step_mapper_turn l s s' ev a c :
  step l s = Some (s', ev) → EvMapper a c ∈ ev → Forall (mapper_turn a) ev.
Proof.
  intros Hs Hin. destruct l as [b|b|b|b|b].
  - apply step_LCall in Hs as [p Hd]. apply destroy_spec in Hd
      as [(ch & Hch & -> & ->)|(cs1 & Hn1 & Hk1 & -> & _)];
      [by apply elem_of_nil in Hin|by apply list_elem_of_singleton in Hin].
  - apply step_LMap in Hs as (cs & s2 & Hp & Hm & ->).
    destruct (map_children_events _ _ _ _ _ Hm _ Hin) as [(x & Hx & Heq)|(x & _ & ? & _)];
      [|done].
    inversion Heq. subst b x.
    apply Forall_forall. intros e He.
    destruct (map_children_events _ _ _ _ _ Hm _ He) as [(x & _ & ->)|(x & _ & -> & _)];
      done.
  - apply step_LHookStart in Hs as (cs & Hp & Hg & -> & ->).
    by apply list_elem_of_singleton in Hin.
  - apply step_LHookEnd in Hs as (ok & Hp & -> & ->).
    by apply list_elem_of_singleton in Hin.
  - apply step_LFinish in Hs as (Hp & -> & ->).
    by apply list_elem_of_singleton in Hin.
Qed.

(** The mapper of an actor is called on all the children in one turn:
    between two of its calls there are only events of this turn. *)
Lemma mapper_between s0 ls s tr :
  fresh s0 → run ls s0 = Some (s, tr) →
  ∀ a c c' (i k j : nat) e, (i < k)%nat → (k < j)%nat →
    tr !! i = Some (EvMapper a c) → tr !! j = Some (EvMapper a c') →
    tr !! k = Some e → mapper_turn a e.
Proof.
  intros Hf. revert s tr.
  induction ls as [|l ls IH] using rev_ind; intros s tr H a c c' i k j e Hik Hkj Hi Hj Hk.
  - simpl in H. by simplify_eq.
  - apply run_snoc in H as (s1 & tr1 & ev & Hr & Hs & ->).
    destruct (decide (j < length tr1)%nat) as [Hlt|Hge].
    + rewrite lookup_app_l in Hi, Hj, Hk by lia. by eapply (IH _ _ Hr a c c' i k j).
    + rewrite lookup_app_r in Hj by lia.
      assert (EvMapper a c' ∈ ev) as Hin' by (by eapply list_elem_of_lookup_2).
      destruct (decide (i < length tr1)%nat) as [Hilt|Hige].
      * rewrite lookup_app_l in Hi by lia.
        pose proof (inv_run _ _ _ _ Hf Hr) as Hinv.
        pose proof (inv_reached _ _ _ Hinv _ (list_elem_of_lookup_2 _ _ _ Hi)) as Hreach.
        destruct (step_events _ _ _ _ Hs _ Hin') as (cs & Hp & _).
        simpl in Hreach. rewrite Hp in Hreach. simpl in Hreach. lia.
      * rewrite lookup_app_r in Hk by lia.
        pose proof (step_mapper_turn _ _ _ _ _ _ Hs Hin') as Hall.
        rewrite Forall_forall in Hall. apply Hall. by eapply list_elem_of_lookup_2.
Qed.

Lemma mapper_one_turn s0 ls s tr :
  fresh s0 → run ls s0 = Some (s, tr) →
  ∀ a c c' tr1 tr2 tr3,
    tr = (tr1 ++ EvMapper a c :: tr2 ++ EvMapper a c' :: tr3)%list →
    Forall (mapper_turn a) tr2.
Proof.
  intros Hf Hr a c c' tr1 tr2 tr3 ->.
  apply Forall_lookup. intros k e Hk.
  eapply (mapper_between _ _ _ _ Hf Hr a c c'
            (length tr1) (length tr1 + 1 + k) (length tr1 + 1 + length tr2)); [lia| | | |].
  - apply lookup_lt_Some in Hk. lia.
  - by rewrite lookup_app_r, Nat.sub_diag by lia.
  - rewrite lookup_app_r by lia.
    replace (length tr1 + 1 + length tr2 - length tr1)%nat with (S (length tr2)) by lia.
    simpl. by rewrite lookup_app_r, Nat.sub_diag by lia.
  - rewrite lookup_app_r by lia.
    replace (length tr1 + 1 + k - length tr1)%nat with (S k) by lia.
    simpl. by rewrite lookup_app_l by (apply lookup_lt_Some in Hk; lia).
Qed.

(** C8, as the code has it.  In every run from a system of created
    actors (the promises of [childPromises] are fulfilled) in which no
    actor is being destroyed:
    - the children on which the mapper of an actor calls [destroy()],
      in the order of the calls, are a subsequence of [childPromises] in
      insertion order, the first created child first;
    - once the hook of the actor is invoked, the mapper has been called
      on every child the actor had, or the child had emitted
      ['destroyed'] before;
    - when the [destroy0] hook of the actor is invoked, which is where a
      proxy releases its transport, the destruction of every child is
      settled: the child has emitted ['destroyed'] or its hook has
      rejected;
    - the mapper does not wait for a child before it is called on the
      next: between two calls of the mapper of an actor nothing happens
      but calls of this mapper and children entering ['destroying']; no
      hook is invoked or settled and no actor emits ['destroyed']. *)
Theorem destroy_children_in_order
  (s0 : store) (ls : list label) (s : store) (tr : list event) :
  fresh s0 → run ls s0 = Some (s, tr) →
  (∀ a cs0, kids s0 a = Some cs0 → sublist (mapper_children a tr) cs0) ∧
  (∀ a c, child_of s0 a c → EvHookInvoked a ∈ tr →
     EvMapper a c ∈ tr ∨ EvDestroyed c ∈ tr) ∧
  (∀ a c tr1 tr2, child_of s0 a c → tr = (tr1 ++ EvHookInvoked a :: tr2)%list →
     EvDestroyed c ∈ tr1 ∨ EvHookCompleted c false ∈ tr1) ∧
  (∀ a c c' tr1 tr2 tr3,
     tr = (tr1 ++ EvMapper a c :: tr2 ++ EvMapper a c' :: tr3)%list →
     Forall (mapper_turn a) tr2).
Proof.
  intros Hf Hr. pose proof (inv_run _ _ _ _ Hf Hr) as Hinv. split_and!.
  - apply (inv_mapper _ _ _ Hinv).
  - intros a c (cs0 & Hk0 & Hc) Hin.
    apply (inv_reached _ _ _ Hinv) in Hin. simpl in Hin.
    eapply (inv_mapped _ _ _ Hinv); [done|lia|done].
  - intros a c tr1 tr2 Hc Htr.
    destruct (inv_before _ _ _ Hinv a c Hc tr1 tr2 Htr) as (e & He & [->| ->]); auto.
  - by eapply mapper_one_turn.
Qed.

Lemma destroy_children_in_order_witness :
  fresh (Samples.family "Child1" "Child2") ∧
  (∃ s tr, run Samples.family_schedule (Samples.family "Child1" "Child2") = Some (s, tr) ∧
           sublist (mapper_children "parent" tr) ["first"; "second"]).
Proof.
  split; [apply family_fresh|].
  destruct (run Samples.family_schedule (Samples.family "Child1" "Child2"))
    as [[s tr]|] eqn:Hr; [|by vm_compute in Hr].
  exists s, tr. split; [done|].
  destruct (destroy_children_in_order _ _ _ _ (family_fresh "Child1" "Child2") Hr)
    as (Hsub & _ & _ & _).
  by apply (Hsub "parent").
Defined.

(** C8 as the specification words it fails.  The parent has the
    children [first] and [second], created in this order; the mapper
    calls [destroy()] on [first] and then on [second], and with the
    callbacks taken in the order of a queue [first] also runs its hook
    and emits ['destroyed'] before [second] does.  In no run is the
    mapper called on [second] before [first]. *)
Lemma children_destroyed_in_insertion_order :
  kids (Samples.family "Child1" "Child2") "parent" = Some ["first"; "second"] ∧
  snd <$> run Samples.family_schedule (Samples.family "Child1" "Child2")
    = Some [EvDestroying "parent"; EvMapper "parent" "first";
            EvDestroying "first"; EvMapper "parent" "second";
            EvDestroying "second"; EvHookInvoked "first";
            EvHookInvoked "second"; EvHookCompleted "first" true;
            EvHookCompleted "second" true; EvDestroyed "first";
            EvDestroyed "second"; EvHookInvoked "parent";
            EvHookCompleted "parent" true; EvDestroyed "parent"] ∧
  (∀ ls s tr, run ls (Samples.family "Child1" "Child2") = Some (s, tr) →
     mapper_children "parent" tr ≠ ["second"; "first"]).
Proof.
  split_and!; [by vm_compute|by vm_compute|].
  intros ls s tr Hr Heq.
  pose proof (inv_run _ _ _ _ (family_fresh "Child1" "Child2") Hr) as Hinv.
  pose proof (inv_mapper _ _ _ Hinv "parent" ["first"; "second"] eq_refl) as Hsub.
  rewrite Heq in Hsub.
  apply sublist_cons_l in Hsub as (k1 & k2 & Hk & Hsub).
  apply sublist_cons_l in Hsub as (k3 & k4 & -> & _).
  destruct k1 as [|? [|? [|? ?]]], k3 as [|? [|? ?]]; simplify_eq/=.
Qed.

(** C10.  In every run from a system in which no actor is being
    destroyed, however many times and at whatever moments [destroy()] is
    called:
    - no event happens twice: for every actor the entry into
      ['destroying'], each call of the mapper on a child, the invocation
      of [destroy0], its completion and the emission of ['destroyed']
      happen at most once, and the hook does not both resolve and
      reject;
    - a call of [destroy()] returns a promise, and every later call on
      the same actor, whatever has run in between, returns the same
      promise, changes nothing and causes no event. *)
Theorem destroy_idempotent (s0 : store) (ls : list label) (s : store) (tr : list event) :
  fresh s0 → run ls s0 = Some (s, tr) →
  NoDup tr ∧
  (∀ a, ¬ (EvHookCompleted a true ∈ tr ∧ EvHookCompleted a false ∈ tr)) ∧
  (∀ a p s1 ev ls' s2 tr',
     destroy a s = Some (p, s1, ev) → run ls' s1 = Some (s2, tr') →
     destroy a s2 = Some (p, s2, [])).
Proof.
  intros Hf Hr. pose proof (inv_run _ _ _ _ Hf Hr) as Hinv. split_and!.
  - apply (inv_NoDup _ _ _ Hinv).
  - intros a [Ht Hfalse].
    apply (inv_reached _ _ _ Hinv) in Ht, Hfalse. simpl in *.
    rewrite Hfalse in Ht. by destruct Ht.
  - intros a p s1 ev ls' s2 tr' Hd Hr'.
    apply pid_destroy. eapply run_keeps_pid; [|done]. by eapply destroy_pid.
Qed.

Lemma destroy_idempotent_witness :
  fresh Samples.tree3 ∧
  (∃ s tr, run Samples.tree3_schedule Samples.tree3 = Some (s, tr) ∧ NoDup tr).
Proof.
  split; [apply tree3_fresh|].
  destruct (run Samples.tree3_schedule Samples.tree3) as [[s tr]|] eqn:Hr;
    [|by vm_compute in Hr].
  exists s, tr.
  destruct (destroy_idempotent _ _ _ _ tree3_fresh Hr) as (Hnd & _ & _).
  by split.
Defined.

(** C7, as the code has it.  [metrics()] starts from the actor's own
    metrics and, for each child of [childPromises] in creation order,
    sets the key named like the child to the child's metrics.  So a key
    of the result holds the metrics of the last child of that name, and
    the actor's own value when no child has that name.  (An actor that
    has emitted ['destroyed'] is no longer in [childPromises]: see
    [destroyed_child_dropped].) *)
Theorem metrics_keys (fuel : nat) (s : store) (a : string) (A : Actor.t) (m : object) :
  actors s !! a = Some A →
  metrics (S fuel) s a = Some m →
  ∀ k, obj_get k m =
    match last_named s k (childPromises A) with
    | Some c => VObj "Object" <$> metrics fuel s c
    | None => obj_get k (metrics0 A)
    end.
Proof.
  intros HA Hm k. rewrite metrics_unfold, HA in Hm. simpl in Hm.
  rewrite (collect_lookup _ _ _ _ _ k Hm). by rewrite ret_self.
Qed.

Lemma metrics_keys_witness :
  metrics 2 (Samples.family "Child1" "Child2") "parent"
    = Some [("parentMetric", VNum 111);
            ("Child1", VObj "Object" [("childMetric", VNum 222)]);
            ("Child2", VObj "Object" [("childMetric", VNum 333)])] ∧
  obj_get "Child2" [("parentMetric", VNum 111);
                    ("Child1", VObj "Object" [("childMetric", VNum 222)]);
                    ("Child2", VObj "Object" [("childMetric", VNum 333)])]
    = VObj "Object" <$> metrics 1 (Samples.family "Child1" "Child2") "second".
Proof.
  split; [reflexivity|].
  exact (metrics_keys 1 (Samples.family "Child1" "Child2") "parent"
           (Samples.node "parent" "Parent" None ["first"; "second"] true
              [("parentMetric", VNum 111)])
           _ eq_refl eq_refl "Child2").
Defined.

(** C7 as the specification words it fails.  Two children made from
    plain objects without a name are both named ["Object"]; neither is
    destroyed, and the result has one key for the two, with the metrics
    of the second: the metrics of the first are not in it. *)
Lemma metrics_same_name_overwritten :
  kids (Samples.family "Object" "Object") "parent" = Some ["first"; "second"] ∧
  name_of (Samples.family "Object" "Object") "first" = Some "Object" ∧
  state_of (Samples.family "Object" "Object") "first" = Some "ready" ∧
  metrics 1 (Samples.family "Object" "Object") "first"
    = Some [("childMetric", VNum 222)] ∧
  metrics 2 (Samples.family "Object" "Object") "parent"
    = Some [("parentMetric", VNum 111);
            ("Object", VObj "Object" [("childMetric", VNum 333)])].
Proof. by vm_compute. Qed.

(** Once a child has emitted ['destroyed'], no actor has it among its
    [childPromises], so that [metrics()] does not visit it. *)
Lemma destroyed_child_dropped (s0 : store) (ls : list label) (s : store) (tr : list event) :
  fresh s0 → wf_parents s0 → run ls s0 = Some (s, tr) →
  ∀ a cs c, kids s a = Some cs → state_of s c = Some "destroyed" → c ∉ cs.
Proof.
  intros Hf Hwf Hr a cs c Hk Hst Hc.
  eapply (fulfilled_dropped _ _ _ _ Hf Hwf Hr); [done|done|].
  by apply (inv_state _ _ _ (inv_run _ _ _ _ Hf Hr)).
Qed.

(** ** The proxy: correlation, timeouts, marshalling *)

Import ForkedActor Correlation.

Lemma sorted_app ts1 ts2 :
  sorted (ts1 ++ ts2) ↔
  sorted ts1 ∧ sorted ts2 ∧
  Forall (fun x => Forall (fun y => (timeout x ≤ timeout y)%Z) ts2) ts1.
Proof.
  induction ts1 as [|x ts1 IH]; simpl.
  - split; [intros ?; split_and!; done|by intros (_ & ? & _)].
  - rewrite Forall_app, IH, Forall_cons. tauto.
Qed.

Lemma sorted_lookup ts i j x y :
  sorted ts → (i ≤ j)%nat → ts !! i = Some x → ts !! j = Some y →
  (timeout x ≤ timeout y)%Z.
Proof.
  revert i j. induction ts as [|z ts IH]; intros i j Hs Hij Hi Hj; [done|].
  destruct Hs as [Hall Hs].
  destruct i as [|i], j as [|j]; simpl in *; simplify_eq; try lia.
  - rewrite Forall_forall in Hall. apply Hall. by eapply list_elem_of_lookup_2.
  - eapply (IH i j); eauto. lia.
Qed.

Lemma sortedIndex_loop_S fuel array value low high :
  sortedIndex_loop (S fuel) array value low high =
    if (low <? high)%nat then
      match array !! ((low + high) / 2)%nat with
      | Some x =>
          if (timeout x <? value)%Z
          then sortedIndex_loop fuel array value ((low + high) / 2 + 1) high
          else sortedIndex_loop fuel array value low ((low + high) / 2)
      | None => low
      end
    else low.
Proof. reflexivity. Qed.

Lemma sortedIndex_loop_spec array value fuel low high :
  sorted array → (low ≤ high ≤ length array)%nat → (high - low ≤ fuel)%nat →
  (∀ i x, (i < low)%nat → array !! i = Some x → (timeout x < value)%Z) →
  (∀ i x, (high ≤ i)%nat → array !! i = Some x → (value ≤ timeout x)%Z) →
  let r := sortedIndex_loop fuel array value low high in
  (r ≤ length array)%nat ∧
  (∀ i x, (i < r)%nat → array !! i = Some x → (timeout x < value)%Z) ∧
  (∀ i x, (r ≤ i)%nat → array !! i = Some x → (value ≤ timeout x)%Z).
Proof.
  intros Hs. revert low high.
  induction fuel as [|fuel IH]; intros low high Hb Hf Hlow Hhigh.
  { simpl. assert (low = high) as -> by lia. split_and!; [lia|done|done]. }
  rewrite sortedIndex_loop_S.
  destruct (Nat.ltb_spec low high) as [Hlt|Hge].
  2:{ assert (low = high) as -> by lia. split_and!; [lia|done|done]. }
  assert (low ≤ (low + high) / 2 < high)%nat as Hmid.
  { split.
    - apply Nat.div_le_lower_bound; lia.
    - apply Nat.Div0.div_lt_upper_bound; lia. }
  destruct (array !! ((low + high) / 2)%nat) as [x|] eqn:Hx.
  2:{ apply lookup_ge_None in Hx. lia. }
  destruct (Z.ltb_spec (timeout x) value) as [Hxv|Hxv].
  - apply IH; [lia|lia| |done].
    intros i y Hi Hy.
    pose proof (sorted_lookup _ i ((low + high) / 2) y x Hs) as Hle.
    specialize (Hle ltac:(lia) Hy Hx). lia.
  - apply IH; [lia|lia|done|].
    intros i y Hi Hy.
    pose proof (sorted_lookup _ ((low + high) / 2) i x y Hs) as Hle.
    specialize (Hle ltac:(lia) Hx Hy). lia.
Qed.

Lemma sortedIndex_spec array obj :
  sorted array →
  (sortedIndex array obj ≤ length array)%nat ∧
  Forall (fun x => (timeout x < timeout obj)%Z) (take (sortedIndex array obj) array) ∧
  Forall (fun x => (timeout obj ≤ timeout x)%Z) (drop (sortedIndex array obj) array).
Proof.
  intros Hs. unfold sortedIndex.
  destruct (sortedIndex_loop_spec array (timeout obj) (length array) 0 (length array) Hs)
    as (Hr & Hlt & Hge); [lia|lia|intros; lia| |].
  { intros i x Hi Hx. apply lookup_lt_Some in Hx. lia. }
  split_and!; [done| |].
  - apply Forall_lookup. intros i x Hx.
    pose proof (lookup_lt_Some _ _ _ Hx) as Hi. rewrite length_take in Hi.
    rewrite lookup_take_lt in Hx by lia. eapply Hlt; [|done]. lia.
  - apply Forall_lookup. intros i x Hx.
    rewrite lookup_drop in Hx. eapply Hge; [|done]. lia.
Qed.

Lemma splice_sorted array obj :
  sorted array → sorted (splice (sortedIndex array obj) obj array).
Proof.
  intros Hs. destruct (sortedIndex_spec array obj Hs) as (Hr & Hlt & Hge).
  unfold splice. rewrite <-(take_drop (sortedIndex array obj) array) in Hs.
  apply sorted_app in Hs as (Hs1 & Hs2 & Hcross).
  apply sorted_app. split_and!; [done|by split|].
  rewrite Forall_forall in Hlt |- *. intros x Hx. apply Forall_cons. split.
  - specialize (Hlt x Hx). lia.
  - rewrite Forall_forall in Hcross. by apply Hcross.
Qed.

Lemma elem_of_splice idx obj array x :
  x ∈ splice idx obj array ↔ x = obj ∨ x ∈ array.
Proof.
  unfold splice. rewrite elem_of_app, elem_of_cons.
  rewrite <-(take_drop idx array) at 3. rewrite elem_of_app. tauto.
Qed.

Lemma wf_constructor i p : wf (constructor i p).
Proof.
  split; simpl; try done.
  - intros e He. by apply elem_of_nil in He.
Qed.

Lemma settle_pending d o ps :
  ps !! d = Some Pending → settle d o ps !! d = Some o.
Proof. intros H. unfold settle. rewrite H. by rewrite lookup_insert_eq. Qed.



(** *** The timeout worker *)

Lemma timeoutWorker_cons now x rest rp ps :
  timeoutWorker now (x :: rest) rp ps =
    if (timeout x <=? now)%Z then
      timeoutWorker now rest (delete (msgId x) rp)
        (match rp !! msgId x with
         | Some d => settle d (RejectedWith "Response timed out.") ps
         | None => ps
         end)
    else (x :: rest, rp, ps).
Proof. reflexivity. Qed.

Lemma timeoutWorker_rp now ts rp ps ts' rp' ps' k d :
  timeoutWorker now ts rp ps = (ts', rp', ps') → rp' !! k = Some d → rp !! k = Some d.
Proof.
  revert rp ps. induction ts as [|x rest IH]; intros rp ps H Hk.
  - simpl in H. by simplify_eq.
  - rewrite timeoutWorker_cons in H.
    destruct (timeout x <=? now)%Z; [|by simplify_eq].
    specialize (IH _ _ H Hk). by apply lookup_delete_Some in IH as [_ ?].
Qed.


Lemma timeoutWorker_suffix now ts rp ps ts' rp' ps' :
  timeoutWorker now ts rp ps = (ts', rp', ps') → ∃ gone, ts = (gone ++ ts')%list.
Proof.
  revert rp ps. induction ts as [|x rest IH]; intros rp ps H.
  - simpl in H. simplify_eq. by exists [].
  - rewrite timeoutWorker_cons in H.
    destruct (timeout x <=? now)%Z.
    + destruct (IH _ _ H) as [gone ->]. by exists (x :: gone).
    + simplify_eq. by exists [].
Qed.




Lemma sorted_suffix gone ts : sorted (gone ++ ts) → sorted ts.
Proof. rewrite sorted_app. tauto. Qed.

(** *** [_send0] *)

Lemma assigned_fresh msg st : has_id msg = false → assigned msg st = idCounter st.
Proof.
  unfold has_id, assigned. destruct (id msg) as [n|]; [|done].
  by destruct (n =? 0)%N.
Qed.

Lemma send0_spec now msg opts st :
  ∃ st' ret,
    _send0 now msg opts st = (st', assigned msg st, ret) ∧
    idCounter st' = (if has_id msg then idCounter st else idCounter st + 1)%N ∧
    timeoutWorkerInterval st' = timeoutWorkerInterval st ∧
    actor_id st' = actor_id st ∧
    if opt_receive opts then
      ret = Some (nextPending st) ∧
      responsePromises st' = <[assigned msg st := nextPending st]> (responsePromises st) ∧
      pendings st' = <[nextPending st := Pending]> (pendings st) ∧
      nextPending st' = S (nextPending st) ∧
      timeouts st' =
        match opt_timeout opts with
        | Some t =>
            if (0 <? t)%Z then
              splice (sortedIndex (timeouts st) (mkTimeout (now + t) (assigned msg st)))
                (mkTimeout (now + t) (assigned msg st)) (timeouts st)
            else timeouts st
        | None => timeouts st
        end
    else
      ret = None ∧ responsePromises st' = responsePromises st ∧
      pendings st' = pendings st ∧ nextPending st' = nextPending st ∧
      timeouts st' = timeouts st.
Proof.
  unfold _send0, assigned, has_id.
  destruct (id msg) as [n|]; [destruct (n =? 0)%N|];
    destruct (opt_receive opts); simpl; eexists _, _; split_and!; reflexivity.
Qed.

Lemma send0_quiet now msg st :
  let st' := fst (fst (_send0 now msg no_options st)) in
  (idCounter st ≤ idCounter st')%N ∧
  timeoutWorkerInterval st' = timeoutWorkerInterval st ∧
  actor_id st' = actor_id st ∧
  responsePromises st' = responsePromises st ∧ pendings st' = pendings st ∧
  nextPending st' = nextPending st ∧ timeouts st' = timeouts st.
Proof.
  destruct (send0_spec now msg no_options st)
    as (st' & ret & -> & Hc & Hi & Ha & _ & Hrp & Hps & Hn & Hts); simpl.
  split_and!; try done. rewrite Hc. destruct (has_id msg); lia.
Qed.

(** *** The listener *)

(** What the listener does to the table of pending responses: nothing,
    or it takes out the entry of the identifier of the envelope and
    settles the promise. *)
Lemma on_message_effect now msg h st :
  let st' := fst (on_message now msg h st) in
  (idCounter st ≤ idCounter st')%N ∧ actor_id st' = actor_id st ∧
  nextPending st' = nextPending st ∧ timeouts st' = timeouts st ∧
  ((responsePromises st' = responsePromises st ∧ pendings st' = pendings st) ∨
   (∃ k d o, id msg = Some k ∧ responsePromises st !! k = Some d ∧
             responsePromises st' = delete k (responsePromises st) ∧
             pendings st' = settle d o (pendings st))) ∧
  (timeoutWorkerInterval st' = timeoutWorkerInterval st ∨ type msg = "actor-destroyed").
Proof.
  unfold on_message, _sendErrorResponse.
  repeat case_match; simpl;
    try (lazymatch goal with
         | |- context [_send0 ?n ?m no_options ?s] =>
             destruct (send0_quiet n m s) as (Hq1 & Hq2 & Hq3 & Hq4 & Hq5 & Hq6 & Hq7)
         end);
    simpl in *; split_and!;
    try done; try lia; try congruence;
    try (by left); try (left; split; congruence); try (left; congruence);
    try (right; eexists _, _, _; split_and!; [done|eassumption|congruence|congruence]);
    try (right; eexists _, _, _; split_and!; [done|eassumption|done|done]).
  all: right; by apply String.eqb_eq.
Qed.

Lemma tick_spec now st :
  ∃ ts' rp' ps',
    timeoutWorker now (timeouts st) (responsePromises st) (pendings st) = (ts', rp', ps') ∧
    timeouts (tick now st) = ts' ∧ responsePromises (tick now st) = rp' ∧
    pendings (tick now st) = ps' ∧ idCounter (tick now st) = idCounter st ∧
    nextPending (tick now st) = nextPending st ∧
    timeoutWorkerInterval (tick now st) = timeoutWorkerInterval st ∧
    actor_id (tick now st) = actor_id st.
Proof.
  unfold tick.
  destruct (timeoutWorker now (timeouts st) (responsePromises st) (pendings st))
    as [[ts' rp'] ps']. by exists ts', rp', ps'.
Qed.

(** The counter never goes back. *)
Lemma react_counter st i : (idCounter st ≤ idCounter (react st i))%N.
Proof.
  destruct i as [now msg opts|now msg h|now]; simpl.
  - destruct (send0_spec now msg opts st) as (st' & ret & -> & Hc & _); simpl.
    rewrite Hc. destruct (has_id msg); lia.
  - by destruct (on_message_effect now msg h st) as (? & _).
  - destruct (timeoutWorkerInterval st); [|lia].
    destruct (tick_spec now st) as (? & ? & ? & _ & _ & _ & _ & -> & _). lia.
Qed.

Lemma proxy_run_snoc inputs i st : run (inputs ++ [i]) st = react (run inputs st) i.
Proof. unfold run. by rewrite foldl_app. Qed.


Lemma wf_react st i : wf st → from_source i → wf (react st i).
Proof.
  intros [Hkeys Hinj Hts Hsorted Hpos] Hsrc.
  destruct i as [now msg opts|now msg h|now]; simpl.
  - destruct (send0_spec now msg opts st) as (st' & ret & -> & Hc & _ & _ & Hrcv); simpl.
    destruct (opt_receive opts) eqn:Hr.
    + destruct Hsrc as [Hid|?]; [|congruence].
      rewrite Hid in Hc. rewrite (assigned_fresh _ _ Hid) in Hrcv.
      destruct Hrcv as (_ & Hrp & _ & Hn & Hto).
      assert (∀ e, e ∈ timeouts st' → (msgId e < idCounter st')%N) as Hts'.
      { intros e He. rewrite Hto in He. rewrite Hc.
        assert (e ∈ timeouts st ∨ msgId e = idCounter st) as [He'|He'].
        { destruct (opt_timeout opts) as [t|]; [|by left].
          destruct (0 <? t)%Z; [|by left].
          apply elem_of_splice in He as [->|?]; [by right|by left]. }
        - specialize (Hts e He'). lia.
        - lia. }
      split; [| |done| |lia].
      * intros k d. rewrite Hrp, Hc, Hn. intros Hk.
        apply lookup_insert_Some in Hk as [[<- <-]|[_ Hk]]; [lia|].
        destruct (Hkeys k d Hk). lia.
      * intros k1 k2 d. rewrite Hrp. intros H1 H2.
        apply lookup_insert_Some in H1 as [[<- <-]|[Hne1 H1]];
          apply lookup_insert_Some in H2 as [[<- ?]|[Hne2 H2]]; try done.
        -- destruct (Hkeys _ _ H2). lia.
        -- destruct (Hkeys _ _ H1). lia.
        -- by eapply Hinj.
      * rewrite Hto. destruct (opt_timeout opts) as [t|]; [|done].
        destruct (0 <? t)%Z; [|done]. by apply splice_sorted.
    + destruct Hrcv as (_ & Hrp & _ & Hn & Hto).
      assert (idCounter st ≤ idCounter st')%N as Hle.
      { rewrite Hc. destruct (has_id msg); lia. }
      split; rewrite ?Hrp, ?Hn, ?Hto; [|done| |done|lia].
      * intros k d Hk. destruct (Hkeys k d Hk). lia.
      * intros e He. specialize (Hts e He). lia.
  - destruct (on_message_effect now msg h st) as (Hc & _ & Hn & Hto & Hrp & _).
    split; rewrite ?Hn, ?Hto; [| | |done|lia].
    + intros k d Hk.
      assert (responsePromises st !! k = Some d) as Hk'.
      { destruct Hrp as [[Hrp _]|(k' & d' & o & _ & _ & Hrp & _)]; rewrite Hrp in Hk;
          [done|]. by apply lookup_delete_Some in Hk as [_ ?]. }
      destruct (Hkeys k d Hk'). lia.
    + intros k1 k2 d H1 H2.
      destruct Hrp as [[Hrp _]|(k' & d' & o & _ & _ & Hrp & _)]; rewrite Hrp in H1, H2.
      * by eapply Hinj.
      * apply lookup_delete_Some in H1 as [_ H1], H2 as [_ H2]. by eapply Hinj.
    + intros e He. specialize (Hts e He). lia.
  - destruct (timeoutWorkerInterval st); [|done].
    destruct (tick_spec now st)
      as (ts' & rp' & ps' & Htw & Hto & Hrp & _ & Hc & Hn & _).
    destruct (timeoutWorker_suffix _ _ _ _ _ _ _ Htw) as [gone Hgone].
    split; rewrite ?Hto, ?Hrp, ?Hc, ?Hn.
    + intros k d Hk. apply Hkeys. by eapply timeoutWorker_rp.
    + intros k1 k2 d H1 H2. eapply Hinj; by eapply timeoutWorker_rp.
    + intros e He. apply Hts. rewrite Hgone. apply elem_of_app. by right.
    + rewrite Hgone in Hsorted. by eapply sorted_suffix.
    + done.
Qed.


(** *** A request with a deadline *)











(** *** Marshalling: the round trip *)

Section RoundTrip.

Variable sys : ActorSystem.t.
Hypothesis Hsys : consistent sys.

Lemma js_set_length idx v array :
  (length array ≤ idx)%nat → length (js_set idx v array) = S idx.
Proof.
  revert array. induction idx as [|idx IH]; intros [|x array] Hlen; simpl in *;
    try lia; try done.
  - by rewrite IH by (simpl; lia).
  - by rewrite IH by lia.
Qed.

Lemma js_set_nth idx v array :
  (length array ≤ idx)%nat → nth idx (js_set idx v array) VUndefined = v.
Proof.
  revert array. induction idx as [|idx IH]; intros [|x array] Hlen; simpl in *;
    try lia; try done.
  - apply IH. simpl; lia.
  - apply IH. lia.
Qed.

Lemma js_set_before idx v array i :
  (i < idx)%nat → nth i (js_set idx v array) VUndefined = nth i array VUndefined.
Proof.
  revert array i. induction idx as [|idx IH]; intros array i Hi; [lia|].
  destruct array as [|x array], i as [|i]; simpl; try done.
  - rewrite IH by lia. by destruct i.
  - apply IH. lia.
Qed.

Lemma unmarshall_parts_cons idx subMessage rest marshalledTypes :
  unmarshall_parts sys idx (subMessage :: rest) marshalledTypes =
    tp ← js_index marshalledTypes idx;
    part ←
      (if truthy tp then
         m ← (if is_string tp "InterProcessReference" then
                Some (ActorSystem.getForkedActorReferenceMarshaller sys)
              else if is_string tp "InterHostReference" then
                Some (ActorSystem.getRemoteActorReferenceMarshaller sys)
              else ActorSystem.getMarshaller sys tp);
         Some (ActorSystem.unmarshall m subMessage)
       else Some subMessage);
    parts ← unmarshall_parts sys (S idx) rest marshalledTypes;
    Some (part :: parts).
Proof. reflexivity. Qed.

Lemma decoder_spec tp :
  (if is_string (VStr tp) "InterProcessReference" then
     Some (ActorSystem.getForkedActorReferenceMarshaller sys)
   else if is_string (VStr tp) "InterHostReference" then
     Some (ActorSystem.getRemoteActorReferenceMarshaller sys)
   else ActorSystem.getMarshaller sys (VStr tp)) = decoder sys tp.
Proof. reflexivity. Qed.

Lemma truthy_type tp : tp ≠ "" → truthy (VStr tp) = true.
Proof. intros H. simpl. by destruct (String.eqb_spec tp ""). Qed.

Lemma marshaller_undone subMessage m :
  (if instanceof_Actor subMessage then Some (_getReferenceMarshaller sys)
   else ActorSystem.getMarshallerForMessage sys subMessage) = Some m →
  undone sys m.
Proof.
  destruct Hsys as [Href Hreg].
  destruct (instanceof_Actor subMessage).
  - intros; by simplify_eq.
  - unfold ActorSystem.getMarshallerForMessage.
    destruct (ActorSystem._typeName subMessage) as [n|]; simpl; [|done].
    apply Hreg.
Qed.

(** What the mapper of the sender has marshalled, the mapper of the
    receiver restores. *)
Lemma unmarshall_marshall_parts message idx types0 parts types :
  (length types0 ≤ idx)%nat →
  marshall_parts sys idx message types0 = (parts, types) →
  (∀ i, (i < idx)%nat → nth i types VUndefined = nth i types0 VUndefined) ∧
  unmarshall_parts sys idx parts (VArr types) = Some message.
Proof.
  revert idx types0 parts types.
  induction message as [|subMessage rest IH]; intros idx types0 parts types Hlen H.
  - simpl in H. by simplify_eq.
  - simpl in H.
    destruct (if instanceof_Actor subMessage then Some (_getReferenceMarshaller sys)
              else ActorSystem.getMarshallerForMessage sys subMessage)
      as [m|] eqn:Hm.
    + destruct (marshall_parts sys (S idx) rest
                  (js_set idx (VStr (ActorSystem.type m)) types0))
        as [parts' types'] eqn:Hrest.
      injection H as <- <-.
      destruct (IH (S idx) (js_set idx (VStr (ActorSystem.type m)) types0) parts' types')
        as [Hbefore Hparts]; [rewrite js_set_length by done; lia|done|].
      destruct (marshaller_undone _ _ Hm) as (Hne & m' & Hdec & Hundo).
      split.
      * intros i Hi. rewrite Hbefore by lia. by apply js_set_before.
      * rewrite unmarshall_parts_cons. unfold js_index.
        rewrite Hbefore, js_set_nth by (done || lia). cbn [mbind option_bind].
        rewrite (truthy_type _ Hne), decoder_spec, Hdec. cbn [mbind option_bind].
        rewrite Hparts. cbn [mbind option_bind]. by rewrite Hundo.
    + destruct (marshall_parts sys (S idx) rest types0) as [parts' types'] eqn:Hrest.
      injection H as <- <-.
      destruct (IH (S idx) types0 parts' types') as [Hbefore Hparts]; [lia|done|].
      split.
      * intros i Hi. apply Hbefore. lia.
      * rewrite unmarshall_parts_cons. unfold js_index.
        rewrite Hbefore by lia. rewrite (nth_overflow types0) by done.
        cbn [mbind option_bind truthy]. by rewrite Hparts.
Qed.

Lemma unmarshall_parts_length idx parts marshalledTypes args :
  unmarshall_parts sys idx parts marshalledTypes = Some args →
  length parts = length args.
Proof.
  revert idx args. induction parts as [|p parts IH]; intros idx args H.
  - simpl in H. by simplify_eq.
  - rewrite unmarshall_parts_cons in H.
    apply bind_Some in H as (tp & _ & H).
    apply bind_Some in H as (part & _ & H).
    apply bind_Some in H as (rest & Hrest & H).
    simplify_eq. simpl. f_equal. by eapply IH.
Qed.

Lemma not_array (part mt : value) :
  isArray part = false →
  match part with
  | VArr elems => (elems, mt)
  | _ => ([part], VArr [mt])
  end = ([part], VArr [mt]).
Proof. by destruct part. Qed.

(** The round trip holds for every list of arguments but one of length
    one, and for a single argument whose marshalled form is truthy and
    is no array. *)
Lemma round_trip message tp rcv b :
  no_handle message →
  body_of (fst (actorMessage sys tp message rcv)) = Some b →
  length message ≠ 1%nat ∨
  (∃ x part types, message = [x] ∧ marshall_parts sys 0 [x] [] = ([part], types) ∧
                   truthy part = true ∧ isArray part = false) →
  _decodeMessageBody sys b None = Arguments message.
Proof.
  intros Hnh Hb Hshape.
  assert (actorMessage sys tp message rcv =
            let '(messageParts, marshalledTypes) := marshall_parts sys 0 message [] in
            let '(parts, types) :=
              if (length messageParts =? 1)%nat
              then (nth 0 messageParts VUndefined, nth 0 marshalledTypes VUndefined)
              else (VArr messageParts, VArr marshalledTypes) in
            (mkEnvelope "actor-message" None None
               (Some (mkBody (Some tp) parts types rcv VUndefined None)), None)) as Heq.
  { unfold actorMessage.
    destruct message as [|[| | | | | | | |[] ?] [|]]; try done; by destruct Hnh. }
  rewrite Heq in Hb. clear Heq.
  destruct (marshall_parts sys 0 message []) as [messageParts marshalledTypes] eqn:Hm.
  destruct (unmarshall_marshall_parts message 0 [] messageParts marshalledTypes)
    as [_ Hparts]; [simpl; lia|done|].
  pose proof (unmarshall_parts_length _ _ _ _ Hparts) as Hlen.
  destruct Hshape as [Hne|(x & part & types & -> & Hone & Htruthy & Harr)].
  - destruct (Nat.eqb_spec (length messageParts) 1) as [?|_]; [lia|].
    simpl in Hb. simplify_eq. unfold _decodeMessageBody; simpl. by rewrite Hparts.
  - rewrite Hone in Hm. simplify_eq. simpl in Hb. simplify_eq.
    rewrite unmarshall_parts_cons in Hparts.
    unfold _decodeMessageBody. cbn [message marshalledType]. rewrite Htruthy.
    cbn [negb]. rewrite (not_array _ _ Harr).
    rewrite unmarshall_parts_cons.
    cbn [unmarshall_parts js_index nth] in *. by rewrite Hparts.
Qed.

End RoundTrip.

Lemma plain_system_consistent : consistent Samples.plain_system.
Proof.
  split.
  - split; [done|]. eexists. split; [reflexivity|]. done.
  - intros n m Hm. simpl in Hm. by rewrite lookup_empty in Hm.
Qed.

(** C6 fails on the code.  The single argument [[1, 2, 3]] of
    [sendAndReceive('howMany', [1, 2, 3])], with no marshaller for
    arrays, is sent as the message itself with an undefined
    [marshalledType]; the receiver takes the array for the list of
    arguments and reads [marshalledTypes[0]] of [undefined].  The single
    argument [0] is decoded as no argument at all.  Two strings, or one
    number other than zero, are restored. *)
Lemma single_array_argument_not_restored :
  body_of (fst (actorMessage Samples.plain_system "howMany"
                  [VArr [VNum 1; VNum 2; VNum 3]] true))
    = Some (mkBody (Some "howMany") (VArr [VNum 1; VNum 2; VNum 3]) VUndefined true
              VUndefined None) ∧
  _decodeMessageBody Samples.plain_system
    (mkBody (Some "howMany") (VArr [VNum 1; VNum 2; VNum 3]) VUndefined true
       VUndefined None) None
    = TypeError ∧
  (∃ b, body_of (fst (actorMessage Samples.plain_system "count" [VNum 0] true)) = Some b ∧
        _decodeMessageBody Samples.plain_system b None = Arguments []) ∧
  (∃ b, body_of (fst (actorMessage Samples.plain_system "sayHello"
                        [VStr "Bob"; VStr "Jack"] true)) = Some b ∧
        _decodeMessageBody Samples.plain_system b None
          = Arguments [VStr "Bob"; VStr "Jack"]) ∧
  (∃ b, body_of (fst (actorMessage Samples.plain_system "hello" [VNum 123] true)) = Some b ∧
        _decodeMessageBody Samples.plain_system b None = Arguments [VNum 123]).
Proof. split_and!; [done|done|by eexists|by eexists|by eexists]. Qed.

(** C9 fails on the code.  [default()] constructs a system only when
    [defaultSystem] is already set, and nothing else sets it: from the
    loading of the module on, every call returns [undefined] and
    constructs nothing. *)
Lemma default_never_constructs (n : nat) :
  ActorSystem.defaults n ActorSystem.loaded = (ActorSystem.loaded, replicate n None).
Proof. induction n as [|n IH]; [done|]. simpl. by rewrite IH. Qed.

(** Were [defaultSystem] set, every call would construct one more
    system. *)
Lemma default_constructs_again (s : nat) (made : nat) :
  ActorSystem.default (ActorSystem.mkGlobals (Some s) made)
    = (ActorSystem.mkGlobals (Some made) (S made), Some made).
Proof. reflexivity. Qed.

(** * Further properties *)

(** ** Registering forwards *)

Import JS Actor Forwarding.

Lemma find_app {A} (f : A → bool) (l1 l2 : list A) :
  List.find f (l1 ++ l2)%list =
    match List.find f l1 with Some x => Some x | None => List.find f l2 end.
Proof.
  induction l1 as [|x l1 IH]; simpl; [done|]. by destruct (f x).
Qed.

Lemma find_pushed topic ts target :
  snd <$> List.find (fw_matches topic) (map (fun m => (m, target)) ts) =
    if existsb (topic_matches topic) ts then Some target else None.
Proof.
  induction ts as [|m ts IH]; simpl; [done|].
  unfold fw_matches at 1; simpl. fold (topic_matches topic m).
  destruct (topic_matches topic m); simpl; [done|apply IH].
Qed.

Lemma checkForward_push_topics a ts target topic :
  _checkForward (push_topics ts target a) topic =
    match _checkForward a topic with
    | Some r => Some r
    | None => if existsb (topic_matches topic) ts then Some target else None
    end.
Proof.
  unfold _checkForward, push_topics; simpl.
  rewrite find_app.
  destruct (forwardAllUnknown a) as [fw|].
  - unfold has_handler; simpl.
    destruct (match definition a !! topic with Some p => property_truthy p | None => false end);
      simpl; [|done].
    destruct (List.find (fw_matches topic) (forwardList a)); simpl; [done|].
    apply find_pushed.
  - destruct (List.find (fw_matches topic) (forwardList a)); simpl; [done|].
    apply find_pushed.
Qed.

Lemma send_push_topics a ts target topic message :
  send (push_topics ts target a) topic message
    = redirected ts target (send a topic message) ∧
  sendAndReceive (push_topics ts target a) topic message
    = redirected ts target (sendAndReceive a topic message).
Proof.
  unfold send, sendAndReceive. rewrite checkForward_push_topics.
  change (state (push_topics ts target a)) with (state a).
  destruct (negb (String.eqb (state a) "ready")).
  - change (_notReadyErrorPromise (push_topics ts target a))
      with (_notReadyErrorPromise a).
    unfold _notReadyErrorPromise. by repeat case_match.
  - destruct (_checkForward a topic); simpl; [done|].
    by destruct (existsb (topic_matches topic) ts).
Qed.

(** X1.  [forwardToChild(childActor, ...topics)] is rejected when
    [childActor] is not among the children that [P.all(childPromises)]
    has resolved to, and registers nothing.  Otherwise it changes what
    [send] and [sendAndReceive] do in one way only: a call that the
    actor would have sent to its own [send0] / [sendAndReceive0], and
    whose topic is matched by one of the topics, goes to the child.
    Calls that were rejected or forwarded before are treated as before:
    earlier registrations and [forwardAllUnknown] keep their
    precedence. *)
Theorem forwardToChild_registers
  (a : Actor.t) (children : list string) (childActor : string) (ts : list matcher) :
  (childActor ∉ children → forwardToChild_then children childActor ts a = None) ∧
  (childActor ∈ children →
     ∃ a', forwardToChild_then children childActor ts a = Some a' ∧
       Actor.state a' = Actor.state a ∧ childPromises a' = childPromises a ∧
       ∀ topic message,
         send a' topic message
           = redirected ts (ChildActor childActor) (send a topic message) ∧
         sendAndReceive a' topic message
           = redirected ts (ChildActor childActor) (sendAndReceive a topic message)).
Proof.
  unfold forwardToChild_then. split; intros Hc.
  - by rewrite bool_decide_eq_false_2.
  - rewrite bool_decide_eq_true_2 by done. eexists. split_and!; [done|done|done|].
    intros topic message. apply send_push_topics.
Qed.

(** X2.  [forwardToParent(true)] sets [forwardAllUnknown] to the proxy of
    the parent.  From then on a ready actor hands every topic for which
    the behaviour has no handler to the parent, whatever the forward
    list says, also a topic that [forwardToChild] had registered for a
    child; a topic with a handler is decided by the forward list
    alone. *)
Theorem forwardToParent_true (a : Actor.t) (p : string) :
  Actor.parent a = Some p → Actor.state a = "ready" →
  ∃ a', forwardToParent AllUnknown a = Some a' ∧
    forwardList a' = forwardList a ∧
    ∀ topic message,
      (has_handler a topic = false →
         send a' topic message = Delegated (ParentActorProxy p) Send topic message ∧
         sendAndReceive a' topic message
           = Delegated (ParentActorProxy p) SendAndReceive topic message) ∧
      (has_handler a topic = true →
         send a' topic message =
           match List.find (fw_matches topic) (forwardList a) with
           | Some item => Delegated (snd item) Send topic message
           | None => Local Send topic message
           end ∧
         sendAndReceive a' topic message =
           match List.find (fw_matches topic) (forwardList a) with
           | Some item => Delegated (snd item) SendAndReceive topic message
           | None => Local SendAndReceive topic message
           end).
Proof.
  intros Hp Hst. unfold forwardToParent, getParent. rewrite Hp. simpl.
  eexists. split_and!; [done|done|].
  intros topic message. unfold send, sendAndReceive, _checkForward; simpl.
  rewrite Hst; simpl.
  change (has_handler (set_forwardAllUnknown (Some (ParentActorProxy p)) a) topic)
    with (has_handler a topic).
  split; intros ->; simpl; [done|].
  by destruct (List.find (fw_matches topic) (forwardList a)).
Qed.

Lemma forwardToParent_true_witness :
  Actor.parent Cases.hub = Some "root" ∧ Actor.state Cases.hub = "ready" ∧
  _checkForward Cases.hub "plus" = Some (ChildActor "calc") ∧
  ∃ a', forwardToParent AllUnknown Cases.hub = Some a' ∧
        send a' "plus" [VNum 2] = Delegated (ParentActorProxy "root") Send "plus" [VNum 2].
Proof.
  split_and!; [reflexivity|reflexivity|reflexivity|].
  destruct (forwardToParent_true Cases.hub "root" eq_refl eq_refl) as (a' & Heq & _ & Hsend).
  exists a'. split; [exact Heq|].
  destruct (Hsend "plus" [VNum 2]) as [Hun _].
  destruct (Hun eq_refl) as [H _]. exact H.
Defined.

(** X3.  [forwardToParent(...topics)] with strings and regular
    expressions: without topics it does nothing; with topics, on an
    actor that has a parent, a call that the actor would have sent to
    its own [send0] / [sendAndReceive0] and whose topic is matched by
    one of the topics goes to the proxy of the parent, and calls that
    were rejected or forwarded before are treated as before. *)
Theorem forwardToParent_topics (a : Actor.t) (ts : list matcher) :
  forwardToParent (Topics []) a = Some a ∧
  ∀ p, Actor.parent a = Some p →
    ∃ a', forwardToParent (Topics ts) a = Some a' ∧
      Actor.state a' = Actor.state a ∧
      forwardAllUnknown a' = forwardAllUnknown a ∧
      ∀ topic message,
        send a' topic message
          = redirected ts (ParentActorProxy p) (send a topic message) ∧
        sendAndReceive a' topic message
          = redirected ts (ParentActorProxy p) (sendAndReceive a topic message).
Proof.
  split; [done|]. intros p Hp.
  destruct ts as [|m ts].
  - exists a. split_and!; [done|done|done|].
    intros topic message. simpl.
    by destruct (send a topic message), (sendAndReceive a topic message).
  - unfold forwardToParent, getParent. rewrite Hp. simpl.
    eexists. split_and!; [done|done|done|].
    intros topic message. apply send_push_topics.
Qed.

(** ** The state and the forwards during a destruction *)

Import JS Actor Lifecycle Trace Lifetime.

Lemma table_of_update a f s b :
  (∀ A, definition (f A) = definition A ∧ forwardList (f A) = forwardList A ∧
        forwardAllUnknown (f A) = forwardAllUnknown A) →
  table_of (update a f s) b = table_of s b.
Proof.
  intros Hf. unfold table_of, update; simpl.
  destruct (decide (a = b)) as [->|Hne].
  - rewrite lookup_alter_eq. destruct (actors s !! b) as [B|]; simpl; [|done].
    by destruct (Hf B) as (-> & -> & ->).
  - by rewrite lookup_alter_ne.
Qed.

Lemma table_of_destroy a s p s' ev b :
  destroy a s = Some (p, s', ev) → table_of s' b = table_of s b.
Proof.
  unfold destroy, table_of. intros H.
  destruct (actors s !! a) as [A|] eqn:HA; simpl in *; [|done].
  destruct (destroyPromise A) as [q|] eqn:Hq; simpl in *; simplify_eq; [done|].
  simpl. destruct (decide (a = b)) as [->|Hne].
  - by rewrite lookup_insert_eq, HA.
  - by rewrite lookup_insert_ne.
Qed.

Lemma table_of_map_children a cs s s' ev b :
  map_children a cs s = Some (s', ev) → table_of s' b = table_of s b.
Proof.
  revert s s' ev. induction cs as [|c rest IH]; intros s s' ev H.
  - simpl in H. by simplify_eq.
  - apply map_children_unfold in H as (p & s1 & ev1 & ev2 & Hd & Hm & ->).
    rewrite (IH _ _ _ Hm). by eapply table_of_destroy.
Qed.

Lemma table_of_on_destroyed a s b : table_of (on_destroyed a s) b = table_of s b.
Proof.
  unfold on_destroyed. destruct (actors s !! a) as [A|]; [|done].
  destruct (parent A) as [p|]; [|done]. by apply table_of_update.
Qed.

Lemma table_of_set_progress c A :
  definition (set_progress c A) = definition A ∧
  forwardList (set_progress c A) = forwardList A ∧
  forwardAllUnknown (set_progress c A) = forwardAllUnknown A.
Proof. done. Qed.

Lemma step_table l s s' ev b :
  step l s = Some (s', ev) → table_of s' b = table_of s b.
Proof.
  intros H. destruct l as [a|a|a|a|a].
  - apply step_LCall in H as [p Hd]. by eapply table_of_destroy.
  - apply step_LMap in H as (cs & s1 & Hp & Hm & ->).
    rewrite table_of_update by (intros; apply table_of_set_progress).
    by eapply table_of_map_children.
  - apply step_LHookStart in H as (cs & Hp & Hs & -> & ->).
    by rewrite table_of_update by (intros; apply table_of_set_progress).
  - apply step_LHookEnd in H as (ok & Hp & -> & ->).
    by rewrite table_of_update by (intros; apply table_of_set_progress).
  - apply step_LFinish in H as (Hp & -> & ->).
    rewrite table_of_on_destroyed. by rewrite table_of_update.
Qed.

(** A call of [destroy()] keeps the states in line with the chains. *)
Lemma destroy_state_at a s p s' ev b st0 :
  destroy a s = Some (p, s', ev) →
  state_of s b = state_at (progress_of s b) st0 →
  state_of s' b = state_at (progress_of s' b) st0.
Proof.
  intros Hd Hst. apply destroy_spec in Hd
    as [(ch & Hch & -> & ->)|(cs1 & Hn1 & Hk1 & -> & _ & Hp1 & _ & Hs1)]; [done|].
  rewrite Hs1, Hp1. by case_decide.
Qed.

Lemma map_children_state_at a cs s s' ev b st0 :
  map_children a cs s = Some (s', ev) →
  state_of s b = state_at (progress_of s b) st0 →
  state_of s' b = state_at (progress_of s' b) st0.
Proof.
  revert s s' ev. induction cs as [|c rest IH]; intros s s' ev H Hst.
  - simpl in H. by simplify_eq.
  - apply map_children_unfold in H as (p & s1 & ev1 & ev2 & Hd & Hm & ->).
    eapply IH; [done|]. by eapply destroy_state_at.
Qed.

Lemma state_of_finish_eq a s :
  state_of (update a (fun A => set_progress Fulfilled (_setState "destroyed" A)) s) a
    = (fun _ => "destroyed") <$> state_of s a.
Proof.
  unfold state_of, update; simpl. rewrite lookup_alter_eq.
  by destruct (actors s !! a).
Qed.

Lemma progress_state_Some s b c : progress_of s b = Some c → is_Some (state_of s b).
Proof.
  unfold progress_of, state_of. destruct (actors s !! b); simpl; [by eexists|done].
Qed.

Lemma step_state_at l s s' ev b st0 :
  step l s = Some (s', ev) →
  state_of s b = state_at (progress_of s b) st0 →
  state_of s' b = state_at (progress_of s' b) st0.
Proof.
  intros H Hst. destruct l as [a|a|a|a|a].
  - apply step_LCall in H as [p Hd]. by eapply destroy_state_at.
  - apply step_LMap in H as (cs & s1 & Hp & Hm & ->).
    rewrite state_of_set_progress, progress_of_set_progress.
    pose proof (map_children_state_at _ _ _ _ _ b st0 Hm Hst) as Hst1.
    case_decide as Hab; [|done]. subst b.
    destruct (map_children_progress _ _ _ _ _ Hm a) as [Heq|(_ & Hnone & _)];
      [|congruence].
    rewrite Hst1, Heq, Hp. done.
  - apply step_LHookStart in H as (cs & Hp & Hs & -> & ->).
    rewrite state_of_set_progress, progress_of_set_progress.
    case_decide as Hab; [|done]. subst b. by rewrite Hst, Hp.
  - apply step_LHookEnd in H as (ok & Hp & -> & ->).
    rewrite state_of_set_progress, progress_of_set_progress.
    case_decide as Hab; [|done]. subst b. rewrite Hst, Hp. by destruct ok.
  - apply step_LFinish in H as (Hp & -> & ->).
    rewrite state_of_on_destroyed, progress_of_on_destroyed, progress_of_finish.
    case_decide as Hab.
    + subst b. rewrite state_of_finish_eq, Hp.
      destruct (progress_state_Some _ _ _ Hp) as [x ->]. done.
    + by rewrite state_of_finish.
Qed.

Lemma standing_run s0 ls s tr :
  fresh s0 → Actor.run ls s0 = Some (s, tr) → standing s0 s tr.
Proof.
  intros Hf. revert s tr. induction ls as [|l ls IH] using rev_ind; intros s tr H.
  - simpl in H. simplify_eq. split; [|done|].
    + intros b. by rewrite fresh_progress.
    + intros b. by rewrite fresh_progress.
  - apply run_snoc in H as (s1 & tr1 & ev & Hr & Hs & ->).
    destruct (IH _ _ Hr) as [Hst Htab Hcalled]. split.
    + intros b. by eapply step_state_at.
    + intros b. rewrite <-Htab. by eapply step_table.
    + intros b Hb. apply elem_of_app.
      destruct (progress_of s1 b) as [c|] eqn:Hp1.
      * left. apply Hcalled. by rewrite Hp1.
      * right. pose proof (step_move _ _ _ _ Hs b) as Hm. rewrite Hp1 in Hm.
        inversion Hm; [congruence|done].
Qed.

Lemma send_same_table A A0 topic message :
  Actor.state A = Actor.state A0 → definition A = definition A0 →
  forwardList A = forwardList A0 → forwardAllUnknown A = forwardAllUnknown A0 →
  send A topic message = send A0 topic message ∧
  sendAndReceive A topic message = sendAndReceive A0 topic message.
Proof.
  intros Hst Hdef Hfl Hfw.
  unfold send, sendAndReceive, _notReadyErrorPromise, _checkForward, has_handler.
  by rewrite Hst, Hdef, Hfl, Hfw.
Qed.

Lemma destroying_rejected A topic message :
  Actor.state A = "destroying" ∨ Actor.state A = "destroyed" →
  send A topic message
    = Rejected "destroy() has been called for this actor, no further interaction possible" ∧
  sendAndReceive A topic message
    = Rejected "destroy() has been called for this actor, no further interaction possible".
Proof.
  unfold send, sendAndReceive, _notReadyErrorPromise. by intros [-> | ->].
Qed.

Lemma stubborn_fresh : fresh Cases.stubborn.
Proof.
  apply fresh_checked. unfold Cases.stubborn; simpl.
  repeat (apply map_Forall_insert_2; [by vm_compute|]).
  apply map_Forall_empty.
Qed.

(** X4.  In every run from a system in which no actor is being
    destroyed: an actor on which [destroy()] has been called is in
    state ['destroying'] or ['destroyed'], and rejects every [send] and
    [sendAndReceive] with the error of [destroy()]; an actor on which
    [destroy()] has not been called is in the state it was in, and
    treats every message as before, whatever has been destroyed around
    it: the destruction of a child does not take the child out of the
    forward list. *)
Theorem destroy_closes_actor (s0 : store) (ls : list label) (s : store) (tr : list event) :
  fresh s0 → Actor.run ls s0 = Some (s, tr) →
  ∀ a A, actors s !! a = Some A →
    (EvDestroying a ∈ tr →
       (Actor.state A = "destroying" ∨ Actor.state A = "destroyed") ∧
       ∀ topic message,
         send A topic message
           = Rejected "destroy() has been called for this actor, no further interaction possible" ∧
         sendAndReceive A topic message
           = Rejected "destroy() has been called for this actor, no further interaction possible") ∧
    (EvDestroying a ∉ tr →
       ∃ A0, actors s0 !! a = Some A0 ∧ Actor.state A = Actor.state A0 ∧
         ∀ topic message,
           send A topic message = send A0 topic message ∧
           sendAndReceive A topic message = sendAndReceive A0 topic message).
Proof.
  intros Hf Hr a A HA.
  pose proof (inv_run _ _ _ _ Hf Hr) as Hinv.
  destruct (standing_run _ _ _ _ Hf Hr) as [Hst Htab Hcalled].
  specialize (Hst a). specialize (Htab a).
  unfold state_of, table_of in Hst, Htab. rewrite HA in Hst, Htab. simpl in Hst, Htab.
  split.
  - intros Hin. apply (inv_reached _ _ _ Hinv) in Hin. simpl in Hin.
    assert (Actor.state A = "destroying" ∨ Actor.state A = "destroyed") as Hcl.
    { destruct (progress_of s a) as [[]|]; simpl in Hst; simplify_eq; auto. }
    split; [done|]. intros topic message. by apply destroying_rejected.
  - intros Hnot.
    assert (progress_of s a = None) as Hp.
    { destruct (progress_of s a) as [c|] eqn:Hp; [|done].
      exfalso. apply Hnot, Hcalled. by rewrite Hp. }
    rewrite Hp in Hst. simpl in Hst.
    destruct (actors s0 !! a) as [A0|]; simpl in *; [|done].
    exists A0. simplify_eq. split_and!; [done|done|].
    intros topic message. by apply send_same_table.
Qed.

Lemma destroy_closes_actor_witness :
  fresh Cases.stubborn ∧
  ∃ s tr A, Actor.run [LCall "child"] Cases.stubborn = Some (s, tr) ∧
    actors s !! "child" = Some A ∧
    send A "hello" [VNum 1]
      = Rejected "destroy() has been called for this actor, no further interaction possible".
Proof.
  split; [apply stubborn_fresh|].
  destruct (Actor.run [LCall "child"] Cases.stubborn) as [[s tr]|] eqn:Hr;
    [|by vm_compute in Hr].
  destruct (actors s !! "child") as [A|] eqn:HA.
  2:{ apply (f_equal (fmap (fun x => actors (fst x) !! "child"))) in Hr.
      simpl in Hr. rewrite HA in Hr. by vm_compute in Hr. }
  exists s, tr, A. split_and!; [done|done|].
  destruct (destroy_closes_actor _ _ _ _ stubborn_fresh Hr "child" A HA) as [Hcl _].
  destruct Hcl as [_ Hrej].
  - apply (f_equal (fmap snd)) in Hr. vm_compute in Hr. simplify_eq.
    apply list_elem_of_here.
  - by destruct (Hrej "hello" [VNum 1]).
Defined.

(** X5.  An actor whose [destroy0()] hook has rejected is never
    destroyed: in every run it does not emit ['destroyed'], it stays in
    state ['destroying'], and it stays among the [childPromises] of its
    parent, since the listener that would drop it is not called. *)
Theorem failed_hook_stays (s0 : store) (ls : list label) (s : store) (tr : list event)
  (c : string) :
  fresh s0 → Actor.run ls s0 = Some (s, tr) → EvHookCompleted c false ∈ tr →
  (EvDestroyed c ∉ tr) ∧
  state_of s c = Some "destroying" ∧
  ∀ a cs0, kids s0 a = Some cs0 → c ∈ cs0 → ∃ cs, kids s a = Some cs ∧ c ∈ cs.
Proof.
  intros Hf Hr Hin.
  pose proof (inv_run _ _ _ _ Hf Hr) as Hinv.
  destruct (standing_run _ _ _ _ Hf Hr) as [Hst _ _].
  pose proof (inv_reached _ _ _ Hinv _ Hin) as Hp. simpl in Hp.
  split_and!.
  - intros Hd. apply (inv_reached _ _ _ Hinv) in Hd. simpl in Hd. congruence.
  - by rewrite Hst, Hp.
  - intros a cs0 Hk Hc.
    destruct (inv_kids _ _ _ Hinv a cs0 Hk) as (cs & Hk' & _ & Hcov).
    exists cs. split; [done|]. destruct (Hcov c Hc); [done|congruence].
Qed.

Lemma failed_hook_stays_witness :
  fresh Cases.stubborn ∧
  ∃ s tr, Actor.run Cases.stubborn_schedule Cases.stubborn = Some (s, tr) ∧
    EvHookCompleted "child" false ∈ tr ∧
    state_of s "parent" = Some "destroyed" ∧
    state_of s "child" = Some "destroying" ∧
    kids s "parent" = Some ["child"].
Proof.
  split; [apply stubborn_fresh|].
  destruct (Actor.run Cases.stubborn_schedule Cases.stubborn) as [[s tr]|] eqn:Hr;
    [|by vm_compute in Hr].
  assert (EvHookCompleted "child" false ∈ tr) as Hin.
  { apply (f_equal (fmap snd)) in Hr. vm_compute in Hr. simplify_eq.
    do 4 apply list_elem_of_further. apply list_elem_of_here. }
  exists s, tr.
  destruct (failed_hook_stays _ _ _ _ "child" stubborn_fresh Hr Hin) as (_ & Hst & Hk).
  split_and!; [done|done| |done|].
  - apply (f_equal (fmap (fun x => state_of (fst x) "parent"))) in Hr.
    vm_compute in Hr. by simplify_eq.
  - apply (f_equal (fmap (fun x => kids (fst x) "parent"))) in Hr.
    vm_compute in Hr. by simplify_eq.
Defined.

(** ** The children of an actor and [tree()] *)

Import JS Actor Lifecycle Trace Lifetime Hierarchy.

Lemma wf_parents_checked (s : store) :
  map_Forall (fun a A => parented s a A = true) (actors s) → wf_parents s.
Proof.
  intros Hall a cs c Hk Hc. unfold kids in Hk.
  destruct (actors s !! a) as [A|] eqn:HA; simpl in Hk; [|done]. simplify_eq.
  specialize (Hall a A HA). simpl in Hall. unfold parented in Hall.
  rewrite forallb_forall in Hall. apply list_elem_of_In in Hc.
  specialize (Hall c Hc). by apply bool_decide_eq_true in Hall.
Qed.

Lemma family_parents n1 n2 : wf_parents (Samples.family n1 n2).
Proof.
  apply wf_parents_checked. unfold Samples.family; simpl.
  repeat (apply map_Forall_insert_2; [by vm_compute|]).
  apply map_Forall_empty.
Qed.

(** A list without repetition has one sublist for each set of its
    elements. *)
Lemma sublist_filter_eq {A} (P : A → Prop) `{∀ x, Decision (P x)} (l l0 : list A) :
  NoDup l0 → sublist l l0 → (∀ c, c ∈ l0 → (c ∈ l ↔ P c)) → l = filter P l0.
Proof.
  intros Hnd Hsub. induction Hsub as [|x l l0 Hsub IH|x l l0 Hsub IH]; intros Hiff.
  - done.
  - apply NoDup_cons in Hnd as [Hx Hnd].
    rewrite filter_cons_True.
    + f_equal. apply IH; [done|]. intros c Hc.
      rewrite <-(Hiff c) by (by apply list_elem_of_further).
      rewrite elem_of_cons. split; [auto|]. intros [->|?]; done.
    + apply Hiff; apply list_elem_of_here.
  - apply NoDup_cons in Hnd as [Hx Hnd].
    rewrite filter_cons_False.
    + apply IH; [done|]. intros c Hc. apply Hiff. by apply list_elem_of_further.
    + intros HP. apply Hx. eapply sublist_subseteq; [done|].
      apply Hiff; [apply list_elem_of_here|done].
Qed.

Lemma destroyed_iff_fulfilled s0 s tr c :
  fresh s0 → standing s0 s tr →
  state_of s c = Some "destroyed" ↔ progress_of s c = Some Fulfilled.
Proof.
  intros Hf [Hst _ _]. rewrite Hst.
  destruct (progress_of s c) as [[]|] eqn:Hp; simpl; try done.
  split; [|done]. unfold state_of.
  destruct (actors s0 !! c) as [C|] eqn:HC; simpl; [|done].
  destruct (Hf c C HC) as (_ & Hne & _). intros; simplify_eq.
Qed.

Lemma live_kids s0 ls s tr a cs0 :
  fresh s0 → wf_parents s0 → Actor.run ls s0 = Some (s, tr) → kids s0 a = Some cs0 →
  kids s a = Some (filter (live s) cs0).
Proof.
  intros Hf Hwf Hr Hk0.
  pose proof (inv_run _ _ _ _ Hf Hr) as Hinv.
  pose proof (standing_run _ _ _ _ Hf Hr) as Hst.
  destruct (inv_kids _ _ _ Hinv a cs0 Hk0) as (cs & Hk & Hsub & Hcov).
  rewrite Hk. f_equal.
  apply sublist_filter_eq; [by eapply fresh_NoDup|done|].
  intros c Hc. unfold live. rewrite (destroyed_iff_fulfilled _ _ _ _ Hf Hst). split.
  - intros Hin. by eapply (fulfilled_dropped _ _ _ _ Hf Hwf Hr).
  - intros Hnot. by destruct (Hcov c Hc).
Qed.

(** X6.  In every run from a system in which no actor is being
    destroyed, and in which the children of an actor are the actors that
    have it as their parent, the [childPromises] of an actor are, at
    every moment, the children it had at the start that have not
    emitted ['destroyed'], in the order of their creation: the listener
    of ['destroyed'] takes out the destroyed child and no other, and
    nothing else changes the list. *)
Theorem live_children
  (s0 : store) (ls : list label) (s : store) (tr : list event) (a : string)
  (cs0 : list string) :
  fresh s0 → wf_parents s0 → Actor.run ls s0 = Some (s, tr) → kids s0 a = Some cs0 →
  kids s a = Some (filter (live s) cs0).
Proof. apply live_kids. Qed.

Lemma live_children_witness :
  fresh (Samples.family "Child1" "Child2") ∧
  wf_parents (Samples.family "Child1" "Child2") ∧
  ∃ s tr, Actor.run Cases.first_schedule (Samples.family "Child1" "Child2") = Some (s, tr) ∧
    state_of s "first" = Some "destroyed" ∧
    kids s "parent" = Some (filter (live s) ["first"; "second"]).
Proof.
  split; [apply family_fresh|]. split; [apply family_parents|].
  destruct (Actor.run Cases.first_schedule (Samples.family "Child1" "Child2"))
    as [[s tr]|] eqn:Hr; [|by vm_compute in Hr].
  exists s, tr. split_and!; [done| |].
  - apply (f_equal (fmap (fun x => state_of (fst x) "first"))) in Hr.
    vm_compute in Hr. by simplify_eq.
  - exact (live_children _ _ _ _ "parent" ["first"; "second"]
             (family_fresh "Child1" "Child2") (family_parents "Child1" "Child2") Hr eq_refl).
Defined.

(** *** [tree()] *)

Lemma tree_unfold location0 fuel s a :
  tree location0 (S fuel) s a =
    A ← actors s !! a;
    location ← location0 a;
    childTrees ← mapM (tree location0 fuel s) (childPromises A);
    Some (VObj "Object"
            ([("id", VStr (Actor.id A)); ("name", VStr (name A)); ("location", location)]
             ++ match childTrees with
                | [] => []
                | _ => [("children", VArr childTrees)]
                end)).
Proof. reflexivity. Qed.

Lemma hierarchy_run s0 ls s tr n a :
  fresh s0 → Actor.run ls s0 = Some (s, tr) → hierarchy n s0 a = true → hierarchy n s a = true.
Proof.
  intros Hf Hr. pose proof (inv_run _ _ _ _ Hf Hr) as Hinv.
  revert a. induction n as [|n IH]; intros a; [done|]. simpl.
  destruct (actors s0 !! a) as [A0|] eqn:HA0; [|done].
  destruct (inv_kids _ _ _ Hinv a (childPromises A0)) as (cs & Hk & Hsub & _).
  { unfold kids. by rewrite HA0. }
  unfold kids in Hk. destruct (actors s !! a) as [A|]; simpl in Hk; [|done]. simplify_eq.
  rewrite !forallb_forall. intros Hall c Hc. apply IH, Hall.
  apply list_elem_of_In. eapply sublist_subseteq; [done|]. by apply list_elem_of_In.
Qed.

Lemma tree_total location0 n s a :
  (∀ b, is_Some (location0 b)) → hierarchy n s a = true → is_Some (tree location0 n s a).
Proof.
  intros Hloc. revert a. induction n as [|n IH]; intros a; [done|].
  rewrite tree_unfold. simpl.
  destruct (actors s !! a) as [A|]; simpl; [|done].
  destruct (Hloc a) as [loc ->]. simpl.
  rewrite forallb_forall. intros Hall.
  assert (is_Some (mapM (tree location0 n s) (childPromises A))) as [cts ->]; [|by eexists].
  apply mapM_is_Some. apply Forall_forall. intros c Hc.
  apply IH, Hall. by apply list_elem_of_In.
Qed.

(** X7.  [tree()] after any part of a destruction.  In every run from a
    system in which no actor is being destroyed, with a hierarchy of
    finite depth and [location0()] hooks that yield a location,
    [tree()] of an actor resolves; the object has the [id], the [name]
    and the [location] of the actor, and its [children] are the trees of
    the children that the actor had at the start and that have not
    emitted ['destroyed'], one for each, in the order of their
    creation, two children of the same name included; there is no
    [children] property when no child is left. *)
Theorem tree_of_live_children
  (location0 : string → option value)
  (s0 : store) (ls : list label) (s : store) (tr : list event)
  (n : nat) (a : string) (cs0 : list string) :
  fresh s0 → wf_parents s0 → (∀ b, is_Some (location0 b)) →
  Actor.run ls s0 = Some (s, tr) → kids s0 a = Some cs0 → hierarchy (S n) s0 a = true →
  ∃ A location childTrees,
    actors s !! a = Some A ∧ location0 a = Some location ∧
    Forall2 (fun c t => tree location0 n s c = Some t) (filter (live s) cs0) childTrees ∧
    tree location0 (S n) s a =
      Some (VObj "Object"
              ([("id", VStr (Actor.id A)); ("name", VStr (name A)); ("location", location)]
               ++ match childTrees with
                  | [] => []
                  | _ => [("children", VArr childTrees)]
                  end)).
Proof.
  intros Hf Hwf Hloc Hr Hk0 Hh.
  pose proof (live_kids _ _ _ _ _ _ Hf Hwf Hr Hk0) as Hk.
  destruct (tree_total location0 (S n) s a Hloc (hierarchy_run _ _ _ _ _ _ Hf Hr Hh))
    as [t Ht].
  rewrite tree_unfold in Ht |- *.
  unfold kids in Hk. destruct (actors s !! a) as [A|]; simpl in Hk, Ht |- *; [|done].
  simplify_eq. destruct (location0 a) as [loc|]; simpl in Ht |- *; [|done].
  destruct (mapM (tree location0 n s) (childPromises A)) as [cts|] eqn:Hm;
    simpl in Ht |- *; [|done].
  exists A, loc, cts. split_and!; [done|done| |done].
  rewrite <-Hk. by apply mapM_Some.
Qed.

Lemma tree_of_live_children_witness :
  fresh (Samples.family "Child" "Child") ∧ wf_parents (Samples.family "Child" "Child") ∧
  ∃ s tr,
    Actor.run Cases.first_schedule (Samples.family "Child" "Child") = Some (s, tr) ∧
    ∃ A location childTrees,
      actors s !! "parent" = Some A ∧ Some (VStr "local") = Some location ∧
      Forall2 (fun c t => tree (fun _ => Some (VStr "local")) 1 s c = Some t)
        (filter (live s) ["first"; "second"]) childTrees ∧
      tree (fun _ => Some (VStr "local")) 2 s "parent" =
        Some (VObj "Object"
                ([("id", VStr (Actor.id A)); ("name", VStr (name A)); ("location", location)]
                 ++ match childTrees with
                    | [] => []
                    | _ => [("children", VArr childTrees)]
                    end)).
Proof.
  split; [apply family_fresh|]. split; [apply family_parents|].
  destruct (Actor.run Cases.first_schedule (Samples.family "Child" "Child"))
    as [[s tr]|] eqn:Hr; [|by vm_compute in Hr].
  exists s, tr. split; [done|].
  exact (tree_of_live_children (fun _ => Some (VStr "local")) _ _ _ _ 1 "parent"
           ["first"; "second"] (family_fresh "Child" "Child")
           (family_parents "Child" "Child") (fun _ => ex_intro _ _ eq_refl) Hr eq_refl eq_refl).
Defined.

(** *** Every destruction can come to its end *)

Lemma run_app ls1 ls2 s s1 tr1 s2 tr2 :
  Actor.run ls1 s = Some (s1, tr1) → Actor.run ls2 s1 = Some (s2, tr2) →
  Actor.run (ls1 ++ ls2) s = Some (s2, (tr1 ++ tr2)%list).
Proof.
  revert s s1 tr1. induction ls1 as [|l ls1 IH]; intros s s1 tr1 H1 H2; simpl in *.
  - by simplify_eq.
  - destruct (step l s) as [[s' ev]|] eqn:Hs; simpl in *; [|done].
    destruct (Actor.run ls1 s') as [[s'' ev']|] eqn:Hr; simpl in *; [|done].
    simplify_eq. rewrite (IH _ _ _ Hr H2). simpl. by rewrite app_assoc.
Qed.

Lemma run_one l s s' ev : step l s = Some (s', ev) → Actor.run [l] s = Some (s', ev).
Proof. intros H. simpl. rewrite H. simpl. by rewrite app_nil_r. Qed.

Lemma run_rank ls s s' tr b :
  Actor.run ls s = Some (s', tr) → (rank (progress_of s b) ≤ rank (progress_of s' b))%nat.
Proof.
  revert s s' tr. induction ls as [|l ls IH]; intros s s' tr H; simpl in H.
  - by simplify_eq.
  - destruct (step l s) as [[s1 ev]|] eqn:Hs; simpl in H; [|done].
    destruct (Actor.run ls s1) as [[s2 ev']|] eqn:Hr; simpl in H; [|done].
    simplify_eq. specialize (IH _ _ _ Hr).
    pose proof (move_rank _ _ _ _ _ (step_move _ _ _ _ Hs b)). lia.
Qed.

Lemma settled_iff_rank s c : settled s c = true ↔ rank (progress_of s c) = 5%nat.
Proof. unfold settled. destruct (progress_of s c) as [[]|]; simpl; split; done || lia. Qed.

Lemma progress_actor s a c : progress_of s a = Some c → is_Some (actors s !! a).
Proof. unfold progress_of. destruct (actors s !! a); [by eexists|done]. Qed.

Lemma destroy_total a s : is_Some (actors s !! a) → is_Some (destroy a s).
Proof.
  intros [A HA]. unfold destroy. rewrite HA. simpl.
  destruct (destroyPromise A); by eexists.
Qed.

Lemma destroy_actors a s p s' ev b :
  destroy a s = Some (p, s', ev) → is_Some (actors s !! b) → is_Some (actors s' !! b).
Proof.
  unfold destroy. intros H Hb.
  destruct (actors s !! a) as [A|] eqn:HA; simpl in H; [|done].
  destruct (destroyPromise A); simplify_eq; [done|]. simpl.
  destruct (decide (a = b)) as [->|Hne];
    [by rewrite lookup_insert_eq|by rewrite lookup_insert_ne].
Qed.

Lemma map_children_total a cs s :
  (∀ c, c ∈ cs → is_Some (actors s !! c)) → is_Some (map_children a cs s).
Proof.
  revert s. induction cs as [|c rest IH]; intros s Hall; [by eexists|].
  simpl. destruct (destroy_total c s) as [[[p s1] ev1] Hd];
    [apply Hall, list_elem_of_here|].
  rewrite Hd. simpl.
  destruct (IH s1) as [[s2 ev2] Hm].
  { intros c' Hc'. eapply destroy_actors; [done|]. by apply Hall, list_elem_of_further. }
  rewrite Hm. by eexists.
Qed.

Lemma destroy_called a s p s' ev : destroy a s = Some (p, s', ev) → progress_of s' a ≠ None.
Proof.
  intros Hd. apply destroy_spec in Hd
    as [(ch & Hch & -> & ->)|(cs1 & Hn1 & Hk1 & -> & _ & Hp1 & _)]; [congruence|].
  rewrite Hp1. by rewrite decide_True.
Qed.

Lemma destroy_keeps_called a s p s' ev b :
  destroy a s = Some (p, s', ev) → progress_of s b ≠ None → progress_of s' b ≠ None.
Proof.
  intros Hd Hb. apply destroy_spec in Hd
    as [(ch & Hch & -> & ->)|(cs1 & Hn1 & Hk1 & -> & _ & Hp1 & _)]; [done|].
  rewrite Hp1. by case_decide.
Qed.

Lemma map_children_keeps_called a cs s s' ev b :
  map_children a cs s = Some (s', ev) → progress_of s b ≠ None → progress_of s' b ≠ None.
Proof.
  revert s s' ev. induction cs as [|c rest IH]; intros s s' ev H Hb.
  - simpl in H. by simplify_eq.
  - apply map_children_unfold in H as (p & s1 & ev1 & ev2 & Hd & Hm & ->).
    eapply IH; [done|]. by eapply destroy_keeps_called.
Qed.

Lemma map_children_called a cs s s' ev :
  map_children a cs s = Some (s', ev) → ∀ c, c ∈ cs → progress_of s' c ≠ None.
Proof.
  revert s s' ev. induction cs as [|c rest IH]; intros s s' ev H c' Hc'.
  - by apply elem_of_nil in Hc'.
  - apply map_children_unfold in H as (p & s1 & ev1 & ev2 & Hd & Hm & ->).
    apply elem_of_cons in Hc' as [->|Hc']; [|by eapply IH].
    eapply map_children_keeps_called; [done|]. by eapply destroy_called.
Qed.

Lemma step_mapper_called l s s' ev a c :
  step l s = Some (s', ev) → EvMapper a c ∈ ev → progress_of s' c ≠ None.
Proof.
  intros Hs Hin. destruct l as [b|b|b|b|b].
  - apply step_LCall in Hs as [p Hd]. apply destroy_spec in Hd
      as [(ch & Hch & -> & ->)|(cs1 & Hn1 & Hk1 & -> & _)];
      [by apply elem_of_nil in Hin|by apply list_elem_of_singleton in Hin].
  - apply step_LMap in Hs as (cs & s2 & Hp & Hm & ->).
    destruct (map_children_events _ _ _ _ _ Hm _ Hin) as [(x & Hx & Heq)|(x & _ & ? & _)];
      [|done].
    inversion Heq. subst b x.
    pose proof (map_children_called _ _ _ _ _ Hm c Hx) as Hcc.
    rewrite progress_of_set_progress. case_decide; [|done].
    by destruct (progress_of s2 c).
  - apply step_LHookStart in Hs as (cs & Hp & Hg & -> & ->).
    by apply list_elem_of_singleton in Hin.
  - apply step_LHookEnd in Hs as (ok & Hp & -> & ->).
    by apply list_elem_of_singleton in Hin.
  - apply step_LFinish in Hs as (Hp & -> & ->).
    by apply list_elem_of_singleton in Hin.
Qed.

(** The children of an actor that waits for them are being destroyed. *)
Lemma awaited_called s0 ls s tr :
  fresh s0 → Actor.run ls s0 = Some (s, tr) →
  ∀ a cs c, progress_of s a = Some (Awaiting cs) → c ∈ cs → progress_of s c ≠ None.
Proof.
  intros Hf. revert s tr. induction ls as [|l ls IH] using rev_ind; intros s tr H a cs c Hp Hc.
  - simpl in H. simplify_eq. by rewrite fresh_progress in Hp.
  - apply run_snoc in H as (s1 & tr1 & ev & Hr & Hs & ->).
    pose proof (step_move _ _ _ _ Hs) as Hmove.
    move_cases Hmove a; rewrite ?Hpost in Hp; simplify_eq.
    + rewrite Hsame in Hp. specialize (IH _ _ Hr a cs c Hp Hc).
      pose proof (move_rank _ _ _ _ _ (Hmove c)).
      destruct (progress_of s1 c) as [[]|]; try done;
        destruct (progress_of s c); try done; simpl in *; lia.
    + eapply step_mapper_called; [done|]. by apply He.
Qed.

Lemma actor_stays s0 ls s tr a :
  fresh s0 → Actor.run ls s0 = Some (s, tr) →
  is_Some (actors s0 !! a) → is_Some (actors s !! a).
Proof.
  intros Hf Hr [A0 HA0]. pose proof (inv_run _ _ _ _ Hf Hr) as Hinv.
  destruct (inv_kids _ _ _ Hinv a (childPromises A0)) as (cs & Hk & _).
  { unfold kids. by rewrite HA0. }
  unfold kids in Hk. destruct (actors s !! a); [by eexists|done].
Qed.

Lemma hierarchy_actor n s a : hierarchy n s a = true → is_Some (actors s !! a).
Proof. destruct n as [|n]; [done|]. simpl. destruct (actors s !! a); [by eexists|done]. Qed.

Lemma hierarchy_child n s a :
  hierarchy (S n) s a = true →
  ∃ cs, kids s a = Some cs ∧ ∀ c, c ∈ cs → hierarchy n s c = true.
Proof.
  simpl. unfold kids. destruct (actors s !! a) as [A|]; [|done]. simpl.
  rewrite forallb_forall. intros Hall. exists (childPromises A). split; [done|].
  intros c Hc. by apply Hall, list_elem_of_In.
Qed.

Import Ending.

Lemma possible_app hangs ls1 ls2 :
  possible hangs ls1 = true → possible hangs ls2 = true →
  possible hangs (ls1 ++ ls2) = true.
Proof. unfold possible. rewrite forallb_app. by intros -> ->. Qed.

Lemma below_child s0 a c d : child_of s0 a c → below s0 c d → below s0 a d.
Proof.
  intros Hc [->|Hd]; right; [by apply desc_child|by eapply desc_step].
Qed.

Section Termination.

Variable hangs : string → bool.
Variable s0 : store.
Hypothesis Hf : fresh s0.

Lemma children_settle (cs : list string) :
  (∀ c, c ∈ cs → can_settle hangs s0 c) →
  ∀ ls s tr, Actor.run ls s0 = Some (s, tr) → (∀ c, c ∈ cs → progress_of s c ≠ None) →
    ∃ ls' s' tr', possible hangs ls' = true ∧ Actor.run ls' s = Some (s', tr') ∧
                  ∀ c, c ∈ cs → settled s' c = true.
Proof.
  induction cs as [|c rest IH]; intros Hcan ls s tr Hr Hcalled.
  - exists [], s, []. split_and!; [done|done|]. intros c Hc. by apply elem_of_nil in Hc.
  - destruct (Hcan c (list_elem_of_here _ _) ls s tr Hr)
      as (ls1 & s1 & tr1 & Hp1 & Hr1 & Hs1).
    { apply Hcalled, list_elem_of_here. }
    destruct (IH (fun c' Hc' => Hcan c' (list_elem_of_further _ _ _ Hc'))
                (ls ++ ls1)%list s1 (tr ++ tr1)%list (run_app _ _ _ _ _ _ _ Hr Hr1))
      as (ls2 & s2 & tr2 & Hp2 & Hr2 & Hs2).
    { intros c' Hc'. pose proof (run_rank _ _ _ _ c' Hr1) as Hrank.
      specialize (Hcalled c' (list_elem_of_further _ _ _ Hc')).
      destruct (progress_of s c') as [[]|]; try done;
        destruct (progress_of s1 c'); try done; simpl in *; lia. }
    exists (ls1 ++ ls2)%list, s2, (tr1 ++ tr2)%list.
    split_and!; [by apply possible_app|by eapply run_app|].
    intros c' [->|Hc']%elem_of_cons; [|by apply Hs2].
    apply settled_iff_rank. apply settled_iff_rank in Hs1.
    pose proof (run_rank _ _ _ _ c Hr2).
    assert (rank (progress_of s2 c) ≤ 5)%nat
      by (destruct (progress_of s2 c) as [[]|]; simpl; lia).
    lia.
Qed.

(** One more callback of the chain of [a] can run, once the children
    can be settled, when the hook of [a] does not hang. *)
Lemma advance (n : nat) (a : string) :
  (∀ c, hierarchy n s0 c = true → (∀ d, below s0 c d → hangs d = false) →
        can_settle hangs s0 c) →
  hierarchy (S n) s0 a = true → (∀ d, below s0 a d → hangs d = false) →
  ∀ ls s tr, Actor.run ls s0 = Some (s, tr) →
    (1 ≤ rank (progress_of s a) < 5)%nat →
    ∃ ls' s' tr', possible hangs ls' = true ∧ Actor.run ls' s = Some (s', tr') ∧
                  (rank (progress_of s a) < rank (progress_of s' a))%nat.
Proof.
  intros IHn Hh Hhang ls s tr Hr Hrank.
  pose proof (inv_run _ _ _ _ Hf Hr) as Hinv.
  destruct (hierarchy_child _ _ _ Hh) as (cs0 & Hk0 & Hkids).
  assert (∀ c, c ∈ cs0 → is_Some (actors s !! c)) as Hexist.
  { intros c Hc. eapply actor_stays; [done|done|]. eapply hierarchy_actor. by apply Hkids. }
  assert (∀ c, c ∈ cs0 → can_settle hangs s0 c) as Hcan.
  { intros c Hc. apply IHn; [by apply Hkids|].
    intros d Hd. apply Hhang. eapply below_child; [|done]. by exists cs0. }
  destruct (progress_of s a) as [[cs|cs| | | | ]|] eqn:Hp; simpl in Hrank; try lia.
  - (* the mapper *)
    destruct (inv_snap _ _ _ Hinv a cs0 cs Hk0 (or_introl Hp)) as [Hsub _].
    destruct (map_children_total a cs s) as [[s1 ev] Hm].
    { intros c Hc. apply Hexist. by eapply sublist_subseteq. }
    exists [LMap a], (update a (set_progress (Awaiting cs)) s1), ev. split_and!; [done| |].
    + apply run_one. simpl. by rewrite Hp, Hm.
    + rewrite progress_of_set_progress, decide_True by done.
      assert (progress_of s1 a ≠ None) as Hne.
      { eapply map_children_keeps_called; [done|]. by rewrite Hp. }
      destruct (progress_of s1 a); [simpl; lia|done].
  - (* the children, then the hook *)
    destruct (inv_snap _ _ _ Hinv a cs0 cs Hk0 (or_intror Hp)) as [Hsub Hcov].
    destruct (children_settle cs0 Hcan ls s tr Hr)
      as (ls1 & s1 & tr1 & Hp1' & Hr1 & Hs1).
    { intros c Hc. destruct (Hcov c Hc) as [Hin|Hfu]; [|by rewrite Hfu].
      by eapply awaited_called. }
    pose proof (run_rank _ _ _ _ a Hr1) as Hmono. rewrite Hp in Hmono. simpl in Hmono.
    pose proof (inv_run _ _ _ _ Hf (run_app _ _ _ _ _ _ _ Hr Hr1)) as Hinv1.
    destruct (progress_of s1 a) as [[cs1|cs1| | | | ]|] eqn:Hp1; simpl in Hmono; try lia.
    + destruct (inv_snap _ _ _ Hinv1 a cs0 cs1 Hk0 (or_intror Hp1)) as [Hsub1 _].
      exists (ls1 ++ [LHookStart a])%list, (update a (set_progress InHook) s1),
        (tr1 ++ [EvHookInvoked a])%list.
      split_and!.
      * by apply possible_app.
      * eapply run_app; [done|]. apply run_one. simpl. rewrite Hp1.
        replace (forallb (settled s1) cs1) with true; [done|].
        symmetry. apply forallb_forall. intros c Hc. apply Hs1.
        eapply sublist_subseteq; [done|]. by apply list_elem_of_In.
      * rewrite progress_of_set_progress, decide_True, Hp1 by done. simpl. lia.
    + exists ls1, s1, tr1. rewrite Hp1. split_and!; [done|done|simpl; lia].
    + exists ls1, s1, tr1. rewrite Hp1. split_and!; [done|done|simpl; lia].
    + exists ls1, s1, tr1. rewrite Hp1. split_and!; [done|done|simpl; lia].
    + exists ls1, s1, tr1. rewrite Hp1. split_and!; [done|done|simpl; lia].
  - (* the end of the hook, which does not hang *)
    destruct (progress_actor _ _ _ Hp) as [A HA].
    exists [LHookEnd a], (update a (set_progress (if destroy0 A then Hooked else Failed)) s),
      [EvHookCompleted a (destroy0 A)].
    split_and!.
    + simpl. by rewrite (Hhang a (or_introl eq_refl)).
    + apply run_one. simpl. by rewrite HA, Hp.
    + rewrite progress_of_set_progress, decide_True, Hp by done.
      destruct (destroy0 A); simpl; lia.
  - (* the last callback *)
    eexists [LFinish a], _, _. split_and!; [done| |].
    + apply run_one. simpl. by rewrite Hp.
    + rewrite progress_of_on_destroyed, progress_of_finish, decide_True, Hp by done.
      simpl. lia.
Qed.

Lemma settle_within (n : nat) (a : string) :
  (∀ c, hierarchy n s0 c = true → (∀ d, below s0 c d → hangs d = false) →
        can_settle hangs s0 c) →
  hierarchy (S n) s0 a = true → (∀ d, below s0 a d → hangs d = false) →
  ∀ k ls s tr, Actor.run ls s0 = Some (s, tr) →
    (1 ≤ rank (progress_of s a))%nat → (5 - rank (progress_of s a) ≤ k)%nat →
    ∃ ls' s' tr', possible hangs ls' = true ∧ Actor.run ls' s = Some (s', tr') ∧
                  settled s' a = true.
Proof.
  intros IHn Hh Hhang k. induction k as [|k IHk]; intros ls s tr Hr Hlow Hk.
  - exists [], s, []. split_and!; [done|done|]. apply settled_iff_rank.
    assert (rank (progress_of s a) ≤ 5)%nat
      by (destruct (progress_of s a) as [[]|]; simpl; lia).
    lia.
  - destruct (decide (rank (progress_of s a) = 5%nat)) as [Hdone|Hnot].
    { exists [], s, []. split_and!; [done|done|]. by apply settled_iff_rank. }
    assert (rank (progress_of s a) ≤ 5)%nat
      by (destruct (progress_of s a) as [[]|]; simpl; lia).
    destruct (advance n a IHn Hh Hhang ls s tr Hr)
      as (ls1 & s1 & tr1 & Hp1 & Hr1 & Hup); [lia|].
    destruct (IHk (ls ++ ls1)%list s1 (tr ++ tr1)%list (run_app _ _ _ _ _ _ _ Hr Hr1))
      as (ls2 & s2 & tr2 & Hp2 & Hr2 & Hs2); [lia|lia|].
    exists (ls1 ++ ls2)%list, s2, (tr1 ++ tr2)%list.
    split_and!; [by apply possible_app|by eapply run_app|done].
Qed.

Lemma settle_all (n : nat) :
  ∀ a, hierarchy n s0 a = true → (∀ d, below s0 a d → hangs d = false) →
       can_settle hangs s0 a.
Proof.
  induction n as [|n IHn]; intros a Hh Hhang; [done|].
  intros ls s tr Hr Hcalled.
  eapply (settle_within n a IHn Hh Hhang 5); [done| |lia].
  destruct (progress_of s a) as [[]|]; simpl; try lia. done.
Qed.

End Termination.

(** *** A promise is settled only after the hooks below it *)

(** The settlement of a hook is the callback [LHookEnd]. *)
Lemma hook_settled_by ls s s' tr d ok :
  Actor.run ls s = Some (s', tr) → EvHookCompleted d ok ∈ tr → LHookEnd d ∈ ls.
Proof.
  revert s s' tr. induction ls as [|l ls IH]; intros s s' tr H Hin; simpl in H.
  - simplify_eq. by apply elem_of_nil in Hin.
  - destruct (step l s) as [[s1 ev]|] eqn:Hs; simpl in H; [|done].
    destruct (Actor.run ls s1) as [[s2 ev']|] eqn:Hr; simpl in H; [|done].
    simplify_eq. apply elem_of_app in Hin as [Hin|Hin];
      [|apply list_elem_of_further; by eapply IH].
    destruct l as [b|b|b|b|b].
    + apply step_LCall in Hs as [p Hd]. apply destroy_spec in Hd
        as [(ch & Hch & -> & ->)|(cs1 & Hn1 & Hk1 & -> & _)];
        [by apply elem_of_nil in Hin|by apply list_elem_of_singleton in Hin].
    + apply step_LMap in Hs as (cs & s2' & Hp & Hm & ->).
      by destruct (map_children_events _ _ _ _ _ Hm _ Hin)
        as [(x & _ & ?)|(x & _ & ? & _)].
    + apply step_LHookStart in Hs as (cs & Hp & Hg & -> & ->).
      by apply list_elem_of_singleton in Hin.
    + apply step_LHookEnd in Hs as (ok' & Hp & -> & ->).
      apply list_elem_of_singleton in Hin. simplify_eq. apply list_elem_of_here.
    + apply step_LFinish in Hs as (Hp & -> & ->).
      by apply list_elem_of_singleton in Hin.
Qed.

Lemma settled_after_hooks s0 ls s tr a :
  fresh s0 → Actor.run ls s0 = Some (s, tr) → settled s a = true →
  ∀ d, below s0 a d → LHookEnd d ∈ ls.
Proof.
  intros Hf Hr Hs d Hd. pose proof (inv_run _ _ _ _ Hf Hr) as Hinv.
  assert (∃ ok, EvHookCompleted d ok ∈ tr) as [ok Hin];
    [|by eapply hook_settled_by].
  destruct Hd as [->|Hdesc].
  - destruct (settled_cases _ _ Hs) as [Hfu|Hfail].
    + exists true. apply (inv_resolved _ _ _ Hinv). by right.
    + exists false. by apply (inv_rejected _ _ _ Hinv).
  - assert (EvHookInvoked a ∈ tr) as Hinv_a.
    { apply (inv_invoked _ _ _ Hinv). apply settled_iff_rank in Hs. lia. }
    apply list_elem_of_split in Hinv_a as (tr1 & tr2 & ->).
    destruct (inv_post _ _ _ Hinv a d Hdesc tr1 tr2 eq_refl) as (e & He & ok & ->).
    exists ok. apply elem_of_app. by left.
Qed.

(** *** The fields that a destruction does not write *)

Lemma update_field {X} (f : Actor.t → X) a g s b :
  (∀ A, f (g A) = f A) → f <$> actors (update a g s) !! b = f <$> actors s !! b.
Proof.
  intros Hg. unfold update; simpl. destruct (decide (a = b)) as [->|Hne].
  - rewrite lookup_alter_eq. destruct (actors s !! b); simpl; [|done]. by rewrite Hg.
  - by rewrite lookup_alter_ne.
Qed.

Lemma destroy_hook a s p s' ev b :
  destroy a s = Some (p, s', ev) →
  destroy0 <$> actors s' !! b = destroy0 <$> actors s !! b.
Proof.
  unfold destroy. intros H.
  destruct (actors s !! a) as [A|] eqn:HA; simpl in *; [|done].
  destruct (destroyPromise A) as [q|] eqn:Hq; simpl in *; simplify_eq; [done|].
  simpl. destruct (decide (a = b)) as [->|Hne].
  - by rewrite lookup_insert_eq, HA.
  - by rewrite lookup_insert_ne.
Qed.

Lemma map_children_hook a cs s s' ev b :
  map_children a cs s = Some (s', ev) →
  destroy0 <$> actors s' !! b = destroy0 <$> actors s !! b.
Proof.
  revert s s' ev. induction cs as [|c rest IH]; intros s s' ev H.
  - simpl in H. by simplify_eq.
  - apply map_children_unfold in H as (p & s1 & ev1 & ev2 & Hd & Hm & ->).
    rewrite (IH _ _ _ Hm). by eapply destroy_hook.
Qed.

Lemma on_destroyed_hook a s b :
  destroy0 <$> actors (on_destroyed a s) !! b = destroy0 <$> actors s !! b.
Proof.
  unfold on_destroyed. destruct (actors s !! a) as [A|]; [|done].
  destruct (parent A) as [p|]; [|done]. by apply update_field.
Qed.

Lemma step_hook l s s' ev b :
  step l s = Some (s', ev) → destroy0 <$> actors s' !! b = destroy0 <$> actors s !! b.
Proof.
  intros H. destruct l as [a|a|a|a|a].
  - apply step_LCall in H as [p Hd]. by eapply destroy_hook.
  - apply step_LMap in H as (cs & s1 & Hp & Hm & ->).
    rewrite update_field by done. by eapply map_children_hook.
  - apply step_LHookStart in H as (cs & Hp & Hs & -> & ->). by rewrite update_field.
  - apply step_LHookEnd in H as (ok & Hp & -> & ->). by rewrite update_field.
  - apply step_LFinish in H as (Hp & -> & ->).
    by rewrite on_destroyed_hook, update_field.
Qed.

Lemma run_hook ls s s' tr b :
  Actor.run ls s = Some (s', tr) → destroy0 <$> actors s' !! b = destroy0 <$> actors s !! b.
Proof.
  revert s s' tr. induction ls as [|l ls IH]; intros s s' tr H; simpl in H.
  - by simplify_eq.
  - destruct (step l s) as [[s1 ev]|] eqn:Hs; simpl in H; [|done].
    destruct (Actor.run ls s1) as [[s2 ev']|] eqn:Hr; simpl in H; [|done].
    simplify_eq. rewrite (IH _ _ _ Hr). by eapply step_hook.
Qed.

Lemma step_fails l s s' ev b :
  step l s = Some (s', ev) → progress_of s b ≠ Some Failed →
  progress_of s' b = Some Failed → destroy0 <$> actors s !! b = Some false.
Proof.
  intros H Hpre Hpost. destruct l as [a|a|a|a|a].
  - apply step_LCall in H as [p Hd].
    apply destroy_spec in Hd
      as [(ch & Hch & -> & ->)|(cs1 & Hn1 & Hk1 & -> & _ & Hp1 & _)]; [done|].
    rewrite Hp1 in Hpost. case_decide; by simplify_eq.
  - apply step_LMap in H as (cs & s1 & Hp & Hm & ->).
    rewrite progress_of_set_progress in Hpost.
    destruct (map_children_progress _ _ _ _ _ Hm b)
      as [Heq|(Hin & Hnone & Hev & cs' & Hk & Hp')].
    + rewrite Heq in Hpost. case_decide; [|done].
      subst. rewrite Hp in Hpost. done.
    + rewrite Hp' in Hpost. case_decide; done.
  - apply step_LHookStart in H as (cs & Hp & Hs & -> & ->).
    rewrite progress_of_set_progress in Hpost. case_decide; [|done].
    subst. by rewrite Hp in Hpost.
  - simpl in H. destruct (actors s !! a) as [A|] eqn:HA; simpl in H; [|done].
    destruct (progress_of s a) as [[ | | | | | ] | ] eqn:Hp; try done. simplify_eq.
    rewrite progress_of_set_progress in Hpost. case_decide; [|done].
    subst. rewrite HA. simpl. rewrite Hp in Hpost. simpl in Hpost.
    by destruct (destroy0 A).
  - apply step_LFinish in H as (Hp & -> & ->).
    rewrite progress_of_on_destroyed, progress_of_finish in Hpost.
    case_decide; [|done]. subst. by rewrite Hp in Hpost.
Qed.

Lemma failed_hook_rejected s0 ls s tr b :
  fresh s0 → Actor.run ls s0 = Some (s, tr) → progress_of s b = Some Failed →
  destroy0 <$> actors s0 !! b = Some false.
Proof.
  intros Hf. revert s tr. induction ls as [|l ls IH] using rev_ind; intros s tr H Hp.
  - simpl in H. simplify_eq. by rewrite fresh_progress in Hp.
  - apply run_snoc in H as (s1 & tr1 & ev & Hr & Hs & ->).
    pose proof (step_move _ _ _ _ Hs) as Hmove.
    move_cases Hmove b; rewrite ?Hpost in Hp; simplify_eq.
    + eapply IH; [done|]. by rewrite <-Hsame.
    + rewrite <-(run_hook _ _ _ _ b Hr). eapply step_fails; [done| |done]. congruence.
Qed.

(** X8.  The promise of [destroy()] settles if and only if the hooks
    below it do.  In a system of created actors (the promises of
    [childPromises] are fulfilled) of finite depth in which no actor is
    being destroyed:
    - when the [destroy0()] hooks of an actor and of the actors below
      it return promises that settle, then, whatever has run so far, a
      call of [destroy()] on the actor can be followed by callbacks of
      the promise chains, with the settlement of no hook that hangs,
      after which the promise of the actor is settled, and with it the
      promise of every actor below it: no order of the callbacks leads
      to a deadlock.  When the hook of the actor resolves, the actor is
      then in state ['destroyed'] and has emitted ['destroyed'];
    - in every run in which the promise of the actor is settled, the
      hook of the actor and the hook of every actor below it have
      settled before: when one of these hooks hangs, the promise of
      [destroy()] is never settled. *)
Theorem destroy_settles
  (hangs : string → bool) (s0 : store) (n : nat) (a : string) (ls : list label)
  (s : store) (tr : list event) :
  fresh s0 → hierarchy n s0 a = true → Actor.run ls s0 = Some (s, tr) →
  ((∀ d, below s0 a d → hangs d = false) →
     ∃ ls' s' tr',
       possible hangs ls' = true ∧
       Actor.run (ls ++ LCall a :: ls') s0 = Some (s', tr') ∧
       settled s' a = true ∧
       (∀ d, descendant s0 a d → settled s' d = true) ∧
       (destroy0 <$> actors s0 !! a = Some true →
          state_of s' a = Some "destroyed" ∧ EvDestroyed a ∈ tr')) ∧
  (settled s a = true → ∀ d, below s0 a d → LHookEnd d ∈ ls) ∧
  (possible hangs ls = true → (∃ d, below s0 a d ∧ hangs d = true) →
     settled s a = false).
Proof.
  intros Hf Hh Hr. split_and!.
  - intros Hhang.
    destruct (destroy_total a s) as [[[p s1] ev1] Hd].
    { eapply actor_stays; [done|done|]. by eapply hierarchy_actor. }
    assert (Actor.run [LCall a] s = Some (s1, ev1)) as Hr1.
    { apply run_one. simpl. by rewrite Hd. }
    pose proof (run_app _ _ _ _ _ _ _ Hr Hr1) as Hr01.
    destruct (settle_all hangs s0 Hf n a Hh Hhang _ _ _ Hr01)
      as (ls2 & s2 & tr2 & Hposs & Hr2 & Hs2).
    { by eapply destroy_called. }
    pose proof (run_app _ _ _ _ _ _ _ Hr01 Hr2) as Hall.
    rewrite <-app_assoc in Hall. simpl in Hall.
    pose proof (inv_run _ _ _ _ Hf Hall) as Hinv.
    pose proof (standing_run _ _ _ _ Hf Hall) as [Hst _ _].
    exists ls2, s2, ((tr ++ ev1) ++ tr2)%list. split_and!; [done|done|done| |].
    + intros d Hdesc. eapply inv_descendants; [done|done|].
      intros c (cs0 & Hk0 & Hc). eapply (inv_hook _ _ _ Hinv a); [done| |done].
      apply settled_iff_rank in Hs2. lia.
    + intros Hok. destruct (settled_cases _ _ Hs2) as [Hfu|Hfail].
      * split; [by rewrite Hst, Hfu|by apply (inv_emitted _ _ _ Hinv)].
      * rewrite (failed_hook_rejected _ _ _ _ _ Hf Hall Hfail) in Hok. done.
  - intros Hs. exact (settled_after_hooks _ _ _ _ _ Hf Hr Hs).
  - intros Hposs (d & Hd & Hhang).
    destruct (settled s a) eqn:Hs; [|done].
    pose proof (settled_after_hooks _ _ _ _ _ Hf Hr Hs d Hd) as Hin.
    unfold possible in Hposs. rewrite forallb_forall in Hposs.
    apply list_elem_of_In in Hin. specialize (Hposs _ Hin). simpl in Hposs.
    by rewrite Hhang in Hposs.
Qed.

Lemma destroy_settles_witness :
  fresh Cases.stubborn ∧ hierarchy 2 Cases.stubborn "parent" = true ∧
  ∃ ls' s' tr',
    Actor.run ([LCall "child"] ++ LCall "parent" :: ls') Cases.stubborn = Some (s', tr') ∧
    settled s' "parent" = true ∧
    state_of s' "parent" = Some "destroyed".
Proof.
  split; [apply stubborn_fresh|]. split; [reflexivity|].
  destruct (Actor.run [LCall "child"] Cases.stubborn) as [[s tr]|] eqn:Hr;
    [|by vm_compute in Hr].
  destruct (destroy_settles (fun _ => false) Cases.stubborn 2 "parent" [LCall "child"] s tr
              stubborn_fresh eq_refl Hr) as (Hlive & _ & _).
  destruct (Hlive (fun _ _ => eq_refl)) as (ls' & s' & tr' & _ & Hrun & Hs & _ & Hok).
  exists ls', s', tr'. split_and!; [exact Hrun|exact Hs|].
  destruct (Hok eq_refl) as [Hst _]. exact Hst.
Defined.

(** ** [createChild] *)

Import JS Actor Lifecycle Trace Lifetime Hierarchy Creation.
(** X9.  [createChild] builds systems that the destruction can take
    apart.  On an actor that is neither ['new'] nor ['ready'] the call
    is rejected with the error of the state, and nothing is created.
    Otherwise the new child comes last in [childPromises]; and when no
    actor of the system is being destroyed, the children of every actor
    are the actors that have it as their parent, and the hierarchy has
    a finite depth, then the same holds of the system with the new
    child. *)
Theorem createChild_builds
  (child : string) (C : Actor.t) (a : string) (A : Actor.t) (s : store) :
  actors s !! a = Some A → actors s !! child = None → newborn a C →
  (state A ≠ "new" → state A ≠ "ready" →
     ∀ made, createChild child made a s = Some (NotReady (_notReadyErrorPromise A))) ∧
  (state A = "new" ∨ state A = "ready" →
     createChild child None a s = Some (NotCreated s) ∧
     ∃ s', createChild child (Some C) a s = Some (Created s') ∧
       kids s' a = Some (childPromises A ++ [child])%list ∧
       kids s' child = Some [] ∧
       (∀ b, b ≠ a → b ≠ child → actors s' !! b = actors s !! b) ∧
       (fresh s → wf_parents s → fresh s' ∧ wf_parents s') ∧
       (∀ n b, hierarchy n s b = true → hierarchy (S n) s' b = true)).
Proof.
  intros HA Hnew (Hpar & Hkids & Hdp & Hst).
  assert (a ≠ child) as Hne by (intros ->; congruence).
  split.
  - intros H1 H2 made. unfold createChild. rewrite HA. simpl.
    destruct (String.eqb_spec (state A) "new"); [done|].
    by destruct (String.eqb_spec (state A) "ready").
  - intros Hok.
    assert (negb (String.eqb (state A) "new") && negb (String.eqb (state A) "ready") = false)
      as Hguard.
    { destruct Hok as [-> | ->]; done. }
    unfold createChild. rewrite HA. simpl. rewrite Hguard. split; [done|].
    eexists. split; [done|].
    set (s' := mkStore _ _).
    assert (actors s' !! a = Some (set_childPromises (childPromises A ++ [child])%list A)) as HA'.
    { unfold s'; simpl. by rewrite lookup_insert_ne, lookup_insert_eq. }
    assert (actors s' !! child = Some C) as HC'.
    { unfold s'; simpl. by rewrite lookup_insert_eq. }
    assert (∀ b, b ≠ a → b ≠ child → actors s' !! b = actors s !! b) as Hother.
    { intros b H1 H2. unfold s'; simpl. by rewrite !lookup_insert_ne. }
    split_and!.
    + unfold kids. by rewrite HA'.
    + unfold kids. rewrite HC'. simpl. by rewrite Hkids.
    + done.
    + intros Hf Hwf. split.
      * intros b B HB. destruct (decide (b = child)) as [->|Hbc].
        { rewrite HC' in HB. simplify_eq. rewrite Hkids. split_and!; [done|done|constructor]. }
        destruct (decide (b = a)) as [->|Hba].
        { rewrite HA' in HB. simplify_eq. destruct (Hf a A HA) as (Hp & Hs & Hnd).
          split_and!; [done|done|]. simpl.
          apply NoDup_app. split_and!; [done| |apply NoDup_singleton].
          intros c Hc Hc'. apply list_elem_of_singleton in Hc'. subst c.
          specialize (Hwf a (childPromises A) child). unfold kids, parent_of in Hwf.
          rewrite HA, Hnew in Hwf. by specialize (Hwf eq_refl Hc). }
        rewrite Hother in HB by done. by apply (Hf b B).
      * intros b cs c Hk Hc. unfold kids, parent_of in *.
        destruct (decide (b = child)) as [->|Hbc].
        { rewrite HC' in Hk. simpl in Hk. simplify_eq. rewrite Hkids in Hc.
          by apply elem_of_nil in Hc. }
        assert (∀ c cs0 B, actors s !! b = Some B → cs0 = childPromises B → c ∈ cs0 →
                  parent <$> actors s' !! c = Some (Some b)) as Hold.
        { intros c' cs0 B HB -> Hc'.
          pose proof (Hwf b (childPromises B) c') as Hw. unfold kids, parent_of in Hw.
          rewrite HB in Hw. specialize (Hw eq_refl Hc').
          destruct (decide (c' = child)) as [->|?]; [by rewrite Hnew in Hw|].
          destruct (decide (c' = a)) as [->|?].
          - rewrite HA'. rewrite HA in Hw. done.
          - by rewrite Hother. }
        destruct (decide (b = a)) as [->|Hba].
        { rewrite HA' in Hk. simpl in Hk. simplify_eq.
          apply elem_of_app in Hc as [Hc|Hc].
          - by eapply Hold.
          - apply list_elem_of_singleton in Hc. subst c. rewrite HC'. simpl. by rewrite Hpar. }
        rewrite Hother in Hk by done.
        destruct (actors s !! b) as [B|] eqn:HB; simpl in Hk; [|done]. simplify_eq.
        by eapply Hold.
    + intros n. induction n as [|n IH]; intros b Hh; [done|].
      change (match actors s' !! b with
              | Some B => forallb (hierarchy (S n) s') (childPromises B)
              | None => false
              end = true).
      simpl in Hh. destruct (actors s !! b) as [B|] eqn:HB; [|done].
      assert (b ≠ child) as Hbc by (intros ->; congruence).
      rewrite forallb_forall in Hh.
      assert (forallb (hierarchy (S n) s') (childPromises B) = true) as Hkids'.
      { apply forallb_forall. intros c Hc. by apply IH, Hh. }
      destruct (decide (b = a)) as [->|Hba].
      * assert (B = A) by congruence. subst B.
        rewrite HA'. unfold set_childPromises. cbn [childPromises].
        rewrite forallb_app, Hkids'. cbn [forallb andb].
        change (hierarchy (S n) s' child) with
          (match actors s' !! child with
           | Some B => forallb (hierarchy n s') (childPromises B)
           | None => false
           end).
        by rewrite HC', Hkids.
      * by rewrite Hother, HB.
Qed.

Lemma createChild_builds_witness :
  ∃ s',
    createChild "third" (Some (Samples.node "third" "Child3" (Some "parent") [] true []))
      "parent" (Samples.family "Child1" "Child2") = Some (Created s') ∧
    kids s' "parent" = Some ["first"; "second"; "third"] ∧
    fresh s' ∧ wf_parents s' ∧ hierarchy 3 s' "parent" = true.
Proof.
  destruct (createChild_builds "third"
              (Samples.node "third" "Child3" (Some "parent") [] true []) "parent"
              (Samples.node "parent" "Parent" None ["first"; "second"] true
                 [("parentMetric", VNum 111)])
              (Samples.family "Child1" "Child2") eq_refl eq_refl)
    as [_ H].
  { by split_and!. }
  destruct (H (or_intror eq_refl)) as (_ & s' & Hc & Hk & _ & _ & Hf & Hh).
  exists s'. split_and!.
  - exact Hc.
  - exact Hk.
  - exact (proj1 (Hf (family_fresh "Child1" "Child2") (family_parents "Child1" "Child2"))).
  - exact (proj2 (Hf (family_fresh "Child1" "Child2") (family_parents "Child1" "Child2"))).
  - exact (Hh 2 "parent" eq_refl).
Defined.

(** ** The proxy: the timeout worker, the calls and the two sides of a bus *)

Import JS Actor Lifecycle Trace.
Import ForkedActor Correlation.

(** *** The timeout worker on a sorted list *)






Import ForkedActor Correlation Transport.

(** *** What is sent *)

Lemma send0_sent now msg opts st :
  sent (fst (fst (_send0 now msg opts st))) =
    (mkEnvelope (type msg) (Some (assigned msg st))
       (Some (match opt_actorId opts with
              | Some a => if String.eqb a "" then actor_id st else a
              | None => actor_id st
              end))
       (body_of msg),
     opt_socketHandle opts) :: sent st.
Proof.
  unfold _send0, assigned.
  destruct (id msg) as [n|]; [destruct (n =? 0)%N|];
    destruct (opt_receive opts); reflexivity.
Qed.

Lemma assigned_has_id msg st : (0 < idCounter st)%N → (assigned msg st =? 0)%N = false.
Proof.
  intros Hpos. unfold assigned. destruct (id msg) as [n|].
  - destruct (N.eqb_spec n 0) as [->|Hn]; [|by apply N.eqb_neq].
    apply N.eqb_neq. lia.
  - apply N.eqb_neq. lia.
Qed.

Lemma send0_identified now msg opts st :
  (0 < idCounter st)%N → Forall identified (sent st) →
  Forall identified (sent (fst (fst (_send0 now msg opts st)))).
Proof.
  intros Hpos Hall. rewrite send0_sent. apply Forall_cons. split; [|done].
  split; simpl; [|by eexists].
  unfold has_id; simpl. by rewrite assigned_has_id.
Qed.

Lemma on_message_sent now msg h st :
  sent (fst (on_message now msg h st)) = sent st ∨
  ∃ reply st0, idCounter st0 = idCounter st ∧ sent st0 = sent st ∧
    sent (fst (on_message now msg h st)) = sent (fst (fst (_send0 now reply no_options st0))).
Proof.
  unfold on_message, _sendErrorResponse.
  repeat case_match;
    first [ lazymatch goal with
            | |- context [_send0 _ ?m no_options ?s] => right; exists m, s
            end; done
          | by left ].
Qed.

Lemma react_identified st i :
  (0 < idCounter st)%N → Forall identified (sent st) → Forall identified (sent (react st i)).
Proof.
  intros Hpos Hall. destruct i as [now msg opts|now msg h|now]; simpl.
  - by apply send0_identified.
  - destruct (on_message_sent now msg h st) as [->|(reply & st0 & Hc & Hs & ->)]; [done|].
    apply send0_identified; [by rewrite Hc|by rewrite Hs].
  - destruct (timeoutWorkerInterval st); [|done].
    unfold tick.
    by destruct (timeoutWorker now (timeouts st) (responsePromises st) (pendings st))
      as [[ts' rp'] ps'].
Qed.

(** X11.  Every envelope that a proxy hands to [bus.send], whatever it is
    asked to send and whatever it receives, carries an identifier that
    is not [0] and the identifier of an actor: the listener on the other
    side does not set it aside for a missing identifier. *)
Theorem sent_envelopes_identified (i : string) (p : option string) (inputs : list input) :
  Forall identified (sent (run inputs (constructor i p))).
Proof.
  assert ((0 < idCounter (run inputs (constructor i p)))%N ∧
          Forall identified (sent (run inputs (constructor i p)))) as [_ H]; [|done].
  induction inputs as [|x inputs IH] using rev_ind.
  - split; [done|constructor].
  - rewrite proxy_run_snoc. destruct IH as [Hpos Hall]. split.
    + pose proof (react_counter (run inputs (constructor i p)) x). lia.
    + by apply react_identified.
Qed.

(** *** Requests without a deadline, and answered requests *)







Lemma outcome_final msg : outcome_of msg ≠ Pending.
Proof.
  unfold outcome_of. destruct (body_of msg) as [b|]; [|done].
  destruct (error b) as [e|]; [|done]. by destruct (String.eqb e "").
Qed.

(** A response to a pending request settles its promise. *)
Lemma response_settles now msg h st k d :
  wf st → responsePromises st !! k = Some d → pendings st !! d = Some Pending →
  (0 < k)%N → id msg = Some k → actorId msg = Some (actor_id st) →
  type msg = "actor-response" ∨ type msg = "parent-pong" →
  let st' := fst (on_message now msg h st) in
  snd (on_message now msg h st) = [] ∧
  answered k d (outcome_of msg) st' ∧
  timeouts st' = timeouts st ∧ sent st' = sent st.
Proof.
  intros Hwf Hk Hd Hk0 Hid Hself Hty.
  destruct (wf_keys _ Hwf k d Hk) as [Hlt Hdlt].
  assert (on_message now msg h st =
            (answer k d (outcome_of msg) (set_received now st), [])) as Heq.
  { unfold on_message. rewrite Hid.
    destruct (N.eqb_spec k 0) as [?|_]; [lia|].
    unfold is_self. simpl. rewrite Hself, String.eqb_refl. simpl. rewrite Hk.
    unfold outcome_of.
    destruct Hty as [-> | ->]; simpl;
      destruct (body_of msg) as [b|]; try done;
      destruct (error b) as [e|]; try done; destruct (String.eqb e ""); done. }
  rewrite Heq. simpl. split_and!; [done| |done|done].
  split; simpl; [by rewrite lookup_delete_eq|by apply settle_pending|apply outcome_final|done|done].
Qed.

(** *** Calls through the proxy *)

Lemma sendActorMessage_spec sys now tp message opts st :
  ∃ msg h,
    actorMessage sys tp message (opt_receive opts) = (msg, h) ∧
    id msg = None ∧ type msg = "actor-message" ∧
    (∃ b, body_of msg = Some b ∧ topic b = Some tp ∧ receive b = opt_receive opts) ∧
    _sendActorMessage sys now tp message opts st =
      _send0 now msg
        (mkOptions (opt_receive opts) (opt_timeout opts) (opt_actorId opts)
           (match h with Some x => Some x | None => opt_socketHandle opts end)) st.
Proof.
  unfold _sendActorMessage.
  destruct (actorMessage sys tp message (opt_receive opts)) as [msg h] eqn:Hm.
  exists msg, h.
  assert (id msg = None ∧ type msg = "actor-message" ∧
          ∃ b, body_of msg = Some b ∧ topic b = Some tp ∧ receive b = opt_receive opts)
    as (Hid & Hty & Hb).
  { unfold actorMessage in Hm.
    repeat case_match; simplify_eq; simpl; split_and!; try done; by eexists. }
  split_and!; [done|done|done|done|].
  destruct h; [done|]. by destruct opts.
Qed.





(** *** The end of the proxy *)

Lemma on_message_interval now msg h st :
  timeoutWorkerInterval st = false →
  timeoutWorkerInterval (fst (on_message now msg h st)) = false.
Proof.
  intros Hint. unfold on_message, _sendErrorResponse.
  repeat case_match;
    try (lazymatch goal with
         | |- context [_send0 ?n ?m no_options ?s] =>
             destruct (send0_quiet n m s) as (_ & Hq & _)
         end); simpl; try (rewrite Hq); simpl; done.
Qed.

Lemma react_interval st i :
  timeoutWorkerInterval st = false → timeoutWorkerInterval (react st i) = false.
Proof.
  intros Hint. destruct i as [now msg opts|now msg h|now]; simpl.
  - destruct (send0_spec now msg opts st) as (st' & ret & Heq & _ & Hi & _).
    rewrite Heq. simpl. congruence.
  - by apply on_message_interval.
  - by rewrite Hint.
Qed.

Lemma run_interval inputs st :
  timeoutWorkerInterval st = false → timeoutWorkerInterval (run inputs st) = false.
Proof.
  intros Hint. induction inputs as [|i inputs IH] using rev_ind; [done|].
  rewrite proxy_run_snoc. by apply react_interval.
Qed.

(** X14.  An ['actor-destroyed'] envelope for this actor ends the timeout
    worker: the proxy clears the interval, resolves the promise that
    waits under the identifier of the envelope, if there is one, and
    sends ['actor-destroyed-ack'] under a new identifier.  Nothing sets
    the interval again: whatever the proxy sends and receives from then
    on, the worker does not run, so that a request which is pending
    then is not rejected for its deadline. *)
Theorem destroyed_stops_worker (st : t) (now : Z) (msg : envelope) (h : option value) :
  has_id msg = true → is_self msg st = true → type msg = "actor-destroyed" →
  let st1 := react st (IMessage now msg h) in
  timeoutWorkerInterval st1 = false ∧
  sent st1 = (mkEnvelope "actor-destroyed-ack" (Some (idCounter st))
                (Some (actor_id st)) None, None) :: sent st ∧
  idCounter st1 = (idCounter st + 1)%N ∧
  (∀ k d, id msg = Some k → responsePromises st !! k = Some d →
          pendings st !! d = Some Pending →
          pendings st1 !! d = Some (Resolved VUndefined) ∧
          responsePromises st1 !! k = None) ∧
  ∀ inputs now', react (run inputs st1) (ITick now') = run inputs st1.
Proof.
  intros Hid Hself Hty.
  unfold has_id in Hid. destruct (id msg) as [k|] eqn:Hk; [|done].
  destruct (N.eqb_spec k 0) as [?|Hk0]; [done|].
  assert (fst (on_message now msg h st) =
            fst (fst (_send0 now (mkEnvelope "actor-destroyed-ack" None None None) no_options
                        (match responsePromises st !! k with
                         | Some d => answer k d (Resolved VUndefined)
                                       (clearInterval (set_received now st))
                         | None => clearInterval (set_received now st)
                         end)))) as Heq.
  { unfold on_message. rewrite Hk.
    destruct (N.eqb_spec k 0) as [?|_]; [done|].
    change (is_self msg (set_received now st)) with (is_self msg st).
    rewrite Hty, Hself. simpl. by destruct (responsePromises st !! k). }
  simpl. rewrite Heq.
  set (st0 := match responsePromises st !! k with
              | Some d => answer k d (Resolved VUndefined) (clearInterval (set_received now st))
              | None => clearInterval (set_received now st)
              end).
  assert (timeoutWorkerInterval st0 = false ∧ idCounter st0 = idCounter st ∧
          actor_id st0 = actor_id st ∧ sent st0 = sent st) as (Hi0 & Hc0 & Ha0 & Hs0).
  { unfold st0. by destruct (responsePromises st !! k). }
  destruct (send0_spec now (mkEnvelope "actor-destroyed-ack" None None None) no_options st0)
    as (st1 & ret & Hsend & Hc & Hi & _ & Hf).
  simpl in Hf, Hc. destruct Hf as (_ & Hrp & Hps & _ & _).
  pose proof (send0_sent now (mkEnvelope "actor-destroyed-ack" None None None) no_options st0)
    as Hsent.
  rewrite Hsend in *. simpl in Hsent |- *.
  assert (timeoutWorkerInterval st1 = false) as Hint by congruence.
  split_and!.
  - done.
  - rewrite Hsent. unfold assigned; simpl. by rewrite Hc0, Ha0, Hs0.
  - by rewrite Hc, Hc0.
  - intros k' d Hk' Hd Hp. simplify_eq. rewrite Hrp, Hps. unfold st0. rewrite Hd. simpl.
    split; [by apply settle_pending|by rewrite lookup_delete_eq].
  - intros inputs now'. simpl. by rewrite (run_interval inputs st1 Hint).
Qed.

Lemma destroyed_stops_worker_witness :
  timeouts (react (fst (fst (_send0 0 Samples.request (Samples.with_timeout 500)
                               (constructor "a" None))))
              (IMessage 100 (mkEnvelope "actor-destroyed" (Some 7%N) (Some "a") None) None))
    = [mkTimeout 500 1] ∧
  pendings (react (react (fst (fst (_send0 0 Samples.request (Samples.with_timeout 500)
                                      (constructor "a" None))))
                     (IMessage 100 (mkEnvelope "actor-destroyed" (Some 7%N) (Some "a") None)
                        None))
              (ITick 1000)) !! 0%nat
    = Some Pending.
Proof.
  split; [reflexivity|].
  destruct (destroyed_stops_worker
              (fst (fst (_send0 0 Samples.request (Samples.with_timeout 500)
                           (constructor "a" None))))
              100 (mkEnvelope "actor-destroyed" (Some 7%N) (Some "a") None) None
              eq_refl eq_refl eq_refl) as (_ & _ & _ & _ & Hticks).
  exact (eq_trans (f_equal (fun s => pendings s !! 0%nat) (Hticks [] 1000%Z)) eq_refl).
Defined.

(** X15.  Only a response settles a promise.  An envelope without an
    identifier, an envelope for another actor, and an envelope that is
    neither an ['actor-response'], a ['parent-pong'] nor an
    ['actor-destroyed'] leave the table of pending responses, the
    promises and the timeouts as they are, and so does a response under
    an identifier for which no request is pending. *)
Theorem only_responses_settle (now : Z) (msg : envelope) (h : option value) (st : t) :
  has_id msg = false ∨ is_self msg st = false ∨
  (type msg ≠ "actor-response" ∧ type msg ≠ "parent-pong" ∧ type msg ≠ "actor-destroyed") ∨
  (∀ k, id msg = Some k → responsePromises st !! k = None) →
  let st' := fst (on_message now msg h st) in
  responsePromises st' = responsePromises st ∧ pendings st' = pendings st ∧
  timeouts st' = timeouts st ∧ lastReceiveTimestamp st' = Some now.
Proof.
  intros Hcase. unfold on_message, _sendErrorResponse.
  assert (∀ m s, lastReceiveTimestamp (fst (fst (_send0 now m no_options s)))
                 = lastReceiveTimestamp s) as Hlast.
  { intros m s. unfold _send0. by repeat case_match. }
  unfold has_id, is_self in *.
  repeat case_match; simplify_eq;
    try (lazymatch goal with
         | |- context [_send0 ?n ?m no_options ?s] =>
             destruct (send0_quiet n m s) as (_ & _ & _ & Hq4 & Hq5 & _ & Hq7);
             pose proof (Hlast m s) as Hq8
         end);
    simpl in *; try (split_and!; congruence).
  all: exfalso; destruct Hcase as [?|[?|[(Hty1 & Hty2 & Hty3)|Hnone]]]; try done;
    try (by rewrite ?String.eqb_refl in *);
    repeat match goal with
           | H : String.eqb _ _ = true |- _ => apply String.eqb_eq in H
           | H : (_ || _) = true |- _ => apply orb_prop in H as [H|H]
           end; try congruence;
    try (specialize (Hnone _ eq_refl); simpl in *; congruence);
    try (match goal with
         | H : negb ?x = false, H' : ?x = false |- _ => by rewrite H' in H
         end).
Qed.

Lemma only_responses_settle_witness :
  pendings (react (fst (fst (_send0 0 Samples.request (Samples.with_timeout 500)
                               (constructor "a" None))))
              (IMessage 100 (mkEnvelope "actor-response" (Some 1%N) (Some "b")
                               (Some (mkBody None VUndefined VUndefined false (VStr "x") None)))
                 None)) !! 0%nat
    = Some Pending.
Proof.
  destruct (only_responses_settle 100
              (mkEnvelope "actor-response" (Some 1%N) (Some "b")
                 (Some (mkBody None VUndefined VUndefined false (VStr "x") None)))
              None
              (fst (fst (_send0 0 Samples.request (Samples.with_timeout 500)
                           (constructor "a" None)))))
    as (_ & Hp & _); [right; left; reflexivity|].
  exact (eq_trans (f_equal (fun m => m !! 0%nat) Hp) eq_refl).
Defined.

(** *** From one proxy to the other *)

Lemma on_actor_message now e h B k b tp :
  id e = Some k → (0 < k)%N → type e = "actor-message" →
  body_of e = Some b → topic b = Some tp →
  on_message now e h B =
    if String.eqb tp "" then
      (_sendErrorResponse now k "Missing message topic" (set_received now B), [])
    else if is_self e B then (set_received now B, [Deliver false e h])
    else match is_parent e B with
         | Some true => (set_received now B, [Deliver true e h])
         | Some false =>
             (_sendErrorResponse now k
                "Target actor ID doesn't match neither self nor parent"
                (set_received now B), [])
         | None => (set_received now B, [Throws "TypeError"])
         end.
Proof.
  intros Hid Hk Hty Hb Htp. unfold on_message. rewrite Hid, Hty, Hb, Htp.
  destruct (N.eqb_spec k 0) as [?|_]; [lia|]. done.
Qed.

Lemma sendErrorResponse_sent now k text B :
  sent (_sendErrorResponse now k text B) =
    (mkEnvelope "actor-response" (Some (if (k =? 0)%N then idCounter B else k))
       (Some (actor_id B))
       (Some (mkBody None VUndefined VUndefined false VUndefined (Some text))), None)
    :: sent B.
Proof. unfold _sendErrorResponse. rewrite send0_sent. done. Qed.

Lemma call_sent sys now tp message opts A :
  ∃ e b,
    sent (fst (fst (_sendActorMessage sys now tp message opts A))) =
      (e, match snd (actorMessage sys tp message (opt_receive opts)) with
          | Some x => Some x
          | None => opt_socketHandle opts
          end) :: sent A ∧
    id e = Some (idCounter A) ∧ type e = "actor-message" ∧
    actorId e = Some (addressee (opt_actorId opts) A) ∧
    body_of e = Some b ∧ topic b = Some tp ∧ receive b = opt_receive opts ∧
    body_of (fst (actorMessage sys tp message (opt_receive opts))) = Some b ∧
    snd (fst (_sendActorMessage sys now tp message opts A)) = idCounter A.
Proof.
  destruct (sendActorMessage_spec sys now tp message opts A)
    as (msg & h & Hm & Hid & Hty & (b & Hb & Htp & Hr) & ->).
  rewrite send0_sent. rewrite Hm. simpl.
  assert (assigned msg A = idCounter A) as Has by (unfold assigned; by rewrite Hid).
  eexists _, b. split_and!; try done; simpl; try by rewrite ?Has.
  destruct (send0_spec now msg
              (mkOptions (opt_receive opts) (opt_timeout opts) (opt_actorId opts)
                 (match h with Some x => Some x | None => opt_socketHandle opts end)) A)
    as (st' & ret & -> & _). simpl. done.
Qed.

(** X16.  A call reaches the actor on the other side as it was made,
    when the marshallers of the system are undone on the other side.
    Take a call with a topic that is not empty, whose arguments are not
    a single server handle, sent without a socket handle by a proxy
    whose counter is positive, and addressed to the actor of the
    receiving proxy or to its parent.  The envelope that
    [_sendActorMessage] hands to the bus, taken by the listener of the
    receiving proxy, is delivered to the wrapped actor, or to the
    parent when it is addressed to the parent, and the body carries the
    topic and the receive flag of the call.  In a system in which every
    marshaller restores what it has marshalled and is found under the
    tag it writes ([consistent]), [_decodeMessageBody] gives back the
    arguments of the call, for every list of arguments but one of
    length one, and for a single argument whose marshalled form is
    truthy and no array. *)
Theorem call_reaches_peer
  (sys : ActorSystem.t) (A B : t) (now1 now2 : Z) (tp : string) (message : list value)
  (opts : options) :
  consistent sys → (0 < idCounter A)%N → tp ≠ "" → no_handle message →
  opt_socketHandle opts = None →
  addressee (opt_actorId opts) A = actor_id B ∨
  parent_id B = Some (addressee (opt_actorId opts) A) →
  length message ≠ 1%nat ∨
  (∃ x part types, message = [x] ∧ marshall_parts sys 0 [x] [] = ([part], types) ∧
                   truthy part = true ∧ isArray part = false) →
  ∃ e b,
    sent (fst (fst (_sendActorMessage sys now1 tp message opts A))) = (e, None) :: sent A ∧
    on_message now2 e None B =
      (set_received now2 B,
       [Deliver (negb (String.eqb (addressee (opt_actorId opts) A) (actor_id B))) e None]) ∧
    body_of e = Some b ∧ topic b = Some tp ∧ receive b = opt_receive opts ∧
    _decodeMessageBody sys b None = Arguments message.
Proof.
  intros Hsys Hpos Htp Hnh Hsock Haddr Hshape.
  destruct (call_sent sys now1 tp message opts A)
    as (e & b & Hsent & Hid & Hty & Hto & Hb & Htopic & Hrcv & Hbody & _).
  assert (snd (actorMessage sys tp message (opt_receive opts)) = None) as Hnone.
  { unfold actorMessage.
    destruct message as [|[| | | | | | | |[] ?] [|]]; try done;
      try (by destruct Hnh); by repeat case_match. }
  rewrite Hnone, Hsock in Hsent.
  exists e, b. split_and!; try done.
  - rewrite (on_actor_message now2 e None B _ b tp Hid Hpos Hty Hb Htopic).
    destruct (String.eqb_spec tp "") as [?|_]; [done|].
    unfold is_self, is_parent. rewrite Hto.
    destruct (String.eqb_spec (addressee (opt_actorId opts) A) (actor_id B)) as [_|Hne];
      [done|].
    destruct Haddr as [?|Hpar]; [done|]. rewrite Hpar. by rewrite String.eqb_refl.
  - by eapply round_trip.
Qed.

Lemma call_reaches_peer_witness :
  ∃ e b,
    sent (fst (fst (sendAndReceive0 Samples.plain_system 0 "sayHello"
                      [VStr "Bob"; VStr "Jack"] (constructor "a" None)))) = [(e, None)] ∧
    on_message 5 e None (constructor "a" (Some "root"))
      = (set_received 5 (constructor "a" (Some "root")), [Deliver false e None]) ∧
    body_of e = Some b ∧
    _decodeMessageBody Samples.plain_system b None = Arguments [VStr "Bob"; VStr "Jack"].
Proof.
  destruct (call_reaches_peer Samples.plain_system (constructor "a" None)
              (constructor "a" (Some "root")) 0 5 "sayHello" [VStr "Bob"; VStr "Jack"]
              (mkOptions true None None None) plain_system_consistent)
    as (e & b & Hsent & Hon & Hb & _ & _ & Hdec);
    [reflexivity|discriminate|exact I|reflexivity|left; reflexivity|left; discriminate|].
  exists e, b. split_and!; [exact Hsent|exact Hon|exact Hb|exact Hdec].
Defined.

(** X17.  A server handle passes from one side to the other.  A call whose
    only argument is a listening [net.Server] or [http.Server] is sent
    with the server as the socket handle of [bus.send] and with its kind
    in the body; the receiver, given the handle as a [net.Server],
    passes the handle itself, or an [http.Server] listening on it, as
    the only argument. *)
Theorem handle_reaches_peer
  (sys : ActorSystem.t) (A B : t) (now1 now2 : Z) (tp : string)
  (kind : server_kind) (fd : nat) (opts : options) :
  (0 < idCounter A)%N → tp ≠ "" → opt_actorId opts = None → actor_id B = actor_id A →
  ∃ e b,
    sent (fst (fst (_sendActorMessage sys now1 tp [VServer kind fd] opts A)))
      = (e, Some (VServer kind fd)) :: sent A ∧
    on_message now2 e (Some (VServer NetServer fd)) B
      = (set_received now2 B, [Deliver false e (Some (VServer NetServer fd))]) ∧
    body_of e = Some b ∧ topic b = Some tp ∧ receive b = opt_receive opts ∧
    _decodeMessageBody sys b (Some (VServer NetServer fd)) = Arguments [VServer kind fd].
Proof.
  intros Hpos Htp Hnone Hsame.
  destruct (call_sent sys now1 tp [VServer kind fd] opts A)
    as (e & b & Hsent & Hid & Hty & Hto & Hb & Htopic & Hrcv & Hbody & _).
  rewrite Hnone in Hto. simpl in Hto.
  exists e, b. split_and!; try done.
  - rewrite Hsent. by destruct kind.
  - rewrite (on_actor_message now2 e _ B _ b tp Hid Hpos Hty Hb Htopic).
    destruct (String.eqb_spec tp "") as [?|_]; [done|].
    unfold is_self. by rewrite Hto, Hsame, String.eqb_refl.
  - destruct kind; simpl in Hbody; by simplify_eq.
Qed.

Lemma handle_reaches_peer_witness :
  ∃ e b,
    sent (fst (fst (sendAndReceive0 Samples.plain_system 0 "serve"
                      [VServer HttpServer 3] (constructor "a" None))))
      = [(e, Some (VServer HttpServer 3))] ∧
    body_of e = Some b ∧
    _decodeMessageBody Samples.plain_system b (Some (VServer NetServer 3))
      = Arguments [VServer HttpServer 3].
Proof.
  destruct (handle_reaches_peer Samples.plain_system (constructor "a" None)
              (constructor "a" (Some "root")) 0 5 "serve" HttpServer 3
              (mkOptions true None None None))
    as (e & b & Hsent & _ & Hb & _ & _ & Hdec);
    [reflexivity|discriminate|reflexivity|reflexivity|].
  exists e, b. split_and!; [exact Hsent|exact Hb|exact Hdec].
Defined.

(** The response to a request that waits resolves its promise. *)
Lemma respond_settles (A B : t) (k : N) (d : nat) (now1 now2 : Z) (resp : value) :
  wf A → responsePromises A !! k = Some d → pendings A !! d = Some Pending →
  (0 < k)%N → actor_id B = actor_id A →
  ∃ e,
    sent (respond now1 k resp B) = (e, None) :: sent B ∧
    pendings (fst (on_message now2 e None A)) !! d = Some (Resolved resp) ∧
    responsePromises (fst (on_message now2 e None A)) !! k = None.
Proof.
  intros Hwf Hk Hd Hpos Hsame.
  assert ((k =? 0)%N = false) as Hk0 by (apply N.eqb_neq; lia).
  unfold respond. rewrite send0_sent. eexists. split; [done|].
  unfold assigned; simpl. rewrite Hk0.
  match goal with |- context [on_message now2 ?e None A] =>
    destruct (response_settles now2 e None A k d Hwf Hk Hd Hpos) as (_ & Hans & _)
  end; [done|simpl; by rewrite Hsame|by left|].
  split; [apply (n_settled _ _ _ _ Hans)|apply (n_entry _ _ _ _ Hans)].
Qed.

(** The error response to a request that waits rejects its promise,
    unless the text of the error is empty. *)
Lemma error_response_settles (A B : t) (k : N) (d : nat) (now1 now2 : Z) (text : string) :
  wf A → responsePromises A !! k = Some d → pendings A !! d = Some Pending →
  (0 < k)%N → actor_id B = actor_id A →
  ∃ e,
    sent (_sendErrorResponse now1 k text B) = (e, None) :: sent B ∧
    pendings (fst (on_message now2 e None A)) !! d
      = Some (if String.eqb text "" then Resolved VUndefined else RejectedWith text) ∧
    responsePromises (fst (on_message now2 e None A)) !! k = None.
Proof.
  intros Hwf Hk Hd Hpos Hsame.
  assert ((k =? 0)%N = false) as Hk0 by (apply N.eqb_neq; lia).
  rewrite sendErrorResponse_sent. eexists. split; [done|].
  rewrite Hk0.
  match goal with |- context [on_message now2 ?e None A] =>
    destruct (response_settles now2 e None A k d Hwf Hk Hd Hpos) as (_ & Hans & _)
  end; [done|simpl; by rewrite Hsame|by left|].
  split; [apply (n_settled _ _ _ _ Hans)|apply (n_entry _ _ _ _ Hans)].
Qed.

(** X18.  What the listener answers reaches the caller.  For a request
    that waits under the identifier [k] at a proxy, and a proxy of the
    same actor on the other side: the envelope that the other side
    sends once the call on the actor has resolved with [resp] resolves
    the promise of the request with [resp]; the envelope of
    [_sendErrorResponse] rejects it with the text of the error, unless
    the text is empty: an error without a message resolves the promise
    with [undefined]. *)
Theorem response_reaches_caller
  (A B : t) (k : N) (d : nat) (now1 now2 : Z) :
  wf A → responsePromises A !! k = Some d → pendings A !! d = Some Pending →
  (0 < k)%N → actor_id B = actor_id A →
  (∀ resp, ∃ e,
     sent (respond now1 k resp B) = (e, None) :: sent B ∧
     pendings (fst (on_message now2 e None A)) !! d = Some (Resolved resp) ∧
     responsePromises (fst (on_message now2 e None A)) !! k = None) ∧
  (∀ text, ∃ e,
     sent (_sendErrorResponse now1 k text B) = (e, None) :: sent B ∧
     pendings (fst (on_message now2 e None A)) !! d
       = Some (if String.eqb text "" then Resolved VUndefined else RejectedWith text) ∧
     responsePromises (fst (on_message now2 e None A)) !! k = None).
Proof.
  intros Hwf Hk Hd Hpos Hsame. split.
  - intros resp. by apply respond_settles.
  - intros text. by apply error_response_settles.
Qed.

Lemma response_reaches_caller_witness :
  ∃ e,
    sent (respond 7 1 (VStr "Hello 123") (constructor "a" (Some "root"))) = [(e, None)] ∧
    pendings (fst (on_message 9 e None
                     (fst (fst (_send0 0 Samples.request (Samples.with_timeout 500)
                                  (constructor "a" None)))))) !! 0%nat
      = Some (Resolved (VStr "Hello 123")).
Proof.
  assert (wf (fst (fst (_send0 0 Samples.request (Samples.with_timeout 500)
                          (constructor "a" None))))) as Hwf.
  { apply (wf_react (constructor "a" None)
             (ISend 0 Samples.request (Samples.with_timeout 500)));
      [apply wf_constructor|by left]. }
  destruct (response_reaches_caller
              (fst (fst (_send0 0 Samples.request (Samples.with_timeout 500)
                           (constructor "a" None))))
              (constructor "a" (Some "root")) 1 0 7 9 Hwf eq_refl eq_refl) as [Hresp _];
    [lia|reflexivity|].
  destruct (Hresp (VStr "Hello 123")) as (e & Hsent & Hp & _).
  exists e. split; [exact Hsent|exact Hp].
Defined.

(** X19.  A call that the other side refuses is rejected at the caller,
    when the receiving side can tell.  [sendAndReceive0] registers a
    pending promise under the identifier of the request.  When the
    topic is empty, or when the call is addressed to an actor that is
    neither the actor of the receiving proxy nor the parent that this
    proxy has, the listener delivers nothing and answers with an error
    response under the identifier of the request; this response, taken
    by the listener of the caller, rejects the promise with "Missing
    message topic", or with "Target actor ID doesn't match neither self
    nor parent".  When the receiving proxy has no parent, a call with a
    topic that is addressed to another actor makes the listener throw
    on [getParent().getId()]: nothing is sent back, and the promise of
    the caller is left pending. *)
Theorem refused_call_rejected
  (sys : ActorSystem.t) (A B : t) (now1 now2 now3 : Z) (tp : string)
  (message : list value) (target : option string) (h : option value) :
  wf A → actor_id B = actor_id A →
  ∃ A1 d e h1,
    _sendActorMessage sys now1 tp message (mkOptions true None target None) A
      = (A1, idCounter A, Some d) ∧
    sent A1 = (e, h1) :: sent A ∧
    pendings A1 !! d = Some Pending ∧
    (tp = "" ∨
     (addressee target A ≠ actor_id B ∧
      ∃ q, parent_id B = Some q ∧ q ≠ addressee target A) →
       ∃ B1 r,
         on_message now2 e h B = (B1, []) ∧
         sent B1 = (r, None) :: sent B ∧
         pendings (fst (on_message now3 r None A1)) !! d
           = Some (RejectedWith
                     (if String.eqb tp "" then "Missing message topic"
                      else "Target actor ID doesn't match neither self nor parent"))) ∧
    (tp ≠ "" → addressee target A ≠ actor_id B → parent_id B = None →
       on_message now2 e h B = (set_received now2 B, [Throws "TypeError"]) ∧
       sent (fst (on_message now2 e h B)) = sent B).
Proof.
  intros Hwf Hsame.
  pose proof (wf_counter _ Hwf) as Hpos.
  set (opts := mkOptions true None target None).
  destruct (call_sent sys now1 tp message opts A)
    as (e & b & Hsent & Hid & Hty & Hto & Hb & Htopic & Hrcv & _ & Hkk).
  destruct (sendActorMessage_spec sys now1 tp message opts A)
    as (msg & h1 & Hm & Hmid & _ & _ & Hsend).
  rewrite Hsend in Hsent, Hkk |- *.
  set (opts' := mkOptions (opt_receive opts) (opt_timeout opts) (opt_actorId opts)
                  (match h1 with Some x => Some x | None => opt_socketHandle opts end)) in *.
  assert (has_id msg = false) as Hno by (unfold has_id; by rewrite Hmid).
  destruct (send0_spec now1 msg opts' A) as (A1 & ret & Heq & Hc & _ & Hai & Hf).
  simpl in Hf. rewrite (assigned_fresh _ _ Hno) in Heq, Hf.
  destruct Hf as (-> & Hrp & Hps & Hn & Hts).
  rewrite Heq in Hsent. simpl in Hsent.
  assert (wf A1) as Hwf1.
  { replace A1 with (react A (ISend now1 msg opts')) by (simpl; by rewrite Heq).
    apply wf_react; [done|by left]. }
  assert (responsePromises A1 !! idCounter A = Some (nextPending A)) as Hk1
    by (by rewrite Hrp, lookup_insert_eq).
  assert (pendings A1 !! nextPending A = Some Pending) as Hd1
    by (by rewrite Hps, lookup_insert_eq).
  pose proof (on_actor_message now2 e h B _ b tp Hid Hpos Hty Hb Htopic) as Hon0.
  eexists A1, (nextPending A), e, _.
  split_and!; [done|exact Hsent|done| |].
  - intros Hcase.
    assert (∃ text, text ≠ "" ∧
              text = (if String.eqb tp "" then "Missing message topic"
                      else "Target actor ID doesn't match neither self nor parent") ∧
              on_message now2 e h B
                = (_sendErrorResponse now2 (idCounter A) text (set_received now2 B), []))
      as (text & Hne & Htext & Hon).
    { rewrite Hon0.
      destruct (String.eqb_spec tp "") as [?|Hntp];
        [exists "Missing message topic"; by split_and!|].
      destruct Hcase as [?|(Hns & q & Hq & Hnq)]; [done|].
      unfold is_self, is_parent. rewrite Hto, Hq.
      change (opt_actorId opts) with target.
      destruct (String.eqb_spec (addressee target A) (actor_id B)) as [?|_]; [done|].
      exists "Target actor ID doesn't match neither self nor parent".
      destruct (String.eqb_spec q (addressee target A)) as [?|_]; [congruence|by split_and!]. }
    destruct (error_response_settles A1 (set_received now2 B) (idCounter A) (nextPending A)
                now2 now3 text Hwf1 Hk1 Hd1 Hpos) as (r & Hr & Hp & _); [by rewrite Hai|].
    eexists _, r. split_and!; [exact Hon|exact Hr|].
    rewrite Hp, <-Htext. by destruct (String.eqb_spec text "").
  - intros Hntp Hns Hnone.
    assert (on_message now2 e h B = (set_received now2 B, [Throws "TypeError"])) as Hon.
    { rewrite Hon0.
      destruct (String.eqb_spec tp "") as [?|_]; [done|].
      unfold is_self, is_parent. rewrite Hto, Hnone.
      change (opt_actorId opts) with target.
      by destruct (String.eqb_spec (addressee target A) (actor_id B)). }
    split; [exact Hon|]. by rewrite Hon.
Qed.

Lemma refused_call_rejected_witness :
  ∃ A1 d e h1 B1 r,
    sendAndReceive0 Samples.plain_system 0 "" [VNum 1] (constructor "a" None)
      = (A1, 1%N, Some d) ∧
    sent A1 = [(e, h1)] ∧
    on_message 5 e None (constructor "a" (Some "root")) = (B1, []) ∧
    sent B1 = [(r, None)] ∧
    pendings (fst (on_message 9 r None A1)) !! d
      = Some (RejectedWith "Missing message topic").
Proof.
  destruct (refused_call_rejected Samples.plain_system (constructor "a" None)
              (constructor "a" (Some "root")) 0 5 9 "" [VNum 1] None None
              (wf_constructor "a" None) eq_refl)
    as (A1 & d & e & h1 & Heq & Hs & _ & Hrefused & _).
  destruct (Hrefused (or_introl eq_refl)) as (B1 & r & Hon & Hr & Hp).
  exists A1, d, e, h1, B1, r.
  split_and!; [exact Heq|exact Hs|exact Hon|exact Hr|exact Hp].
Defined.

(** X20.  A ping is answered by a pong that resolves it.  A
    ['parent-ping'] sent with [receive] by a proxy, taken by the
    listener of a proxy of the same actor, is answered with a
    ['parent-pong'] under the same identifier and nothing else; the
    pong, taken by the listener of the first proxy, resolves the promise
    of the ping with [undefined] and takes its entry out of the table of
    pending responses. *)
Theorem ping_answered
  (A B : t) (now1 now2 now3 : Z) (timeout : option Z) (h : option value) :
  wf A → actor_id B = actor_id A →
  ∃ A1 d ping B1 pong,
    _send0 now1 (mkEnvelope "parent-ping" None None None)
      (mkOptions true timeout None None) A = (A1, idCounter A, Some d) ∧
    sent A1 = (ping, None) :: sent A ∧
    pendings A1 !! d = Some Pending ∧
    on_message now2 ping h B = (B1, []) ∧
    sent B1 = (pong, None) :: sent B ∧
    type pong = "parent-pong" ∧ id pong = Some (idCounter A) ∧
    idCounter B1 = idCounter B ∧
    pendings (fst (on_message now3 pong None A1)) !! d = Some (Resolved VUndefined) ∧
    responsePromises (fst (on_message now3 pong None A1)) !! idCounter A = None.
Proof.
  intros Hwf Hsame.
  pose proof (wf_counter _ Hwf) as Hpos.
  set (msg := mkEnvelope "parent-ping" None None None).
  set (opts := mkOptions true timeout None None).
  destruct (send0_spec now1 msg opts A) as (A1 & ret & Heq & Hc & _ & Hai & Hf).
  simpl in Hf. change (assigned msg A) with (idCounter A) in Heq, Hf.
  destruct Hf as (-> & Hrp & Hps & Hn & Hts).
  pose proof (send0_sent now1 msg opts A) as Hsent. rewrite Heq in Hsent. simpl in Hsent.
  change (assigned msg A) with (idCounter A) in Hsent.
  assert (wf A1) as Hwf1.
  { replace A1 with (react A (ISend now1 msg opts)) by (unfold react; by rewrite Heq).
    apply wf_react; [done|by left]. }
  set (ping := mkEnvelope "parent-ping" (Some (idCounter A)) (Some (actor_id A)) None) in *.
  assert (on_message now2 ping h B =
            (fst (fst (_send0 now2 (mkEnvelope "parent-pong" (Some (idCounter A)) None None)
                         no_options (set_received now2 B))), [])) as Hon.
  { unfold on_message, is_self. simpl.
    destruct (N.eqb_spec (idCounter A) 0) as [?|_]; [lia|].
    by rewrite Hsame, String.eqb_refl. }
  pose proof (send0_sent now2 (mkEnvelope "parent-pong" (Some (idCounter A)) None None)
                no_options (set_received now2 B)) as Hpong.
  destruct (send0_spec now2 (mkEnvelope "parent-pong" (Some (idCounter A)) None None)
              no_options (set_received now2 B)) as (B1 & ret & HeqB & HcB & _).
  rewrite HeqB in Hon, Hpong. simpl in Hon, Hpong, HcB.
  assert ((idCounter A =? 0)%N = false) as Hk0 by (apply N.eqb_neq; lia).
  unfold assigned, has_id in Hpong, HcB. simpl in Hpong, HcB. rewrite Hk0 in Hpong, HcB.
  set (pong := mkEnvelope "parent-pong" (Some (idCounter A)) (Some (actor_id B)) None) in *.
  destruct (response_settles now3 pong None A1 (idCounter A) (nextPending A) Hwf1)
    as (_ & Hans & _);
    [by rewrite Hrp, lookup_insert_eq|by rewrite Hps, lookup_insert_eq|done|done
    |simpl; congruence|by right|].
  exists A1, (nextPending A), ping, B1, pong.
  split_and!; try done.
  - by rewrite Hps, lookup_insert_eq.
  - apply (n_settled _ _ _ _ Hans).
  - apply (n_entry _ _ _ _ Hans).
Qed.

Lemma ping_answered_witness :
  ∃ A1 d ping B1 pong,
    _send0 0 (mkEnvelope "parent-ping" None None None)
      (mkOptions true (Some 15000%Z) None None) (constructor "a" None) = (A1, 1%N, Some d) ∧
    sent A1 = [(ping, None)] ∧
    on_message 3 ping None (constructor "a" (Some "root")) = (B1, []) ∧
    sent B1 = [(pong, None)] ∧
    pendings (fst (on_message 6 pong None A1)) !! d = Some (Resolved VUndefined).
Proof.
  destruct (ping_answered (constructor "a" None) (constructor "a" (Some "root")) 0 3 6
              (Some 15000%Z) None (wf_constructor "a" None) eq_refl)
    as (A1 & d & ping & B1 & pong & Heq & Hs & _ & Hon & Hp & _ & _ & _ & Hres & _).
  exists A1, d, ping, B1, pong.
  split_and!; [exact Heq|exact Hs|exact Hon|exact Hp|exact Hres].
Defined.

(** ** The registration of marshallers *)

Import JS ActorSystem Registry.

(** *** The registration *)

(** The heap after the names [ns] have been registered for [idx]. *)
Lemma each_type_names idx types h h' :
  each_type idx types h = Some h' →
  ∃ ns, mapM typeName_of types = Some ns ∧
    (∀ n, memo h' !! n = if bool_decide (n ∈ ns) then Some idx else memo h !! n) ∧
    (∀ j, type_of h' !! j =
            if bool_decide (j = idx) then
              match last ns with Some n => Some n | None => type_of h !! j end
            else type_of h !! j).
Proof.
  revert h. induction types as [|type rest IH]; intros h H.
  - simpl in H. simplify_eq. exists []. split_and!; [done|done|].
    intros j. by case_bool_decide.
  - simpl in H. destruct (typeName_of type) as [n0|] eqn:Hn; simpl in H; [|done].
    destruct (IH _ H) as (ns & Hns & Hmemo & Hty). simpl in Hmemo, Hty.
    exists (n0 :: ns). split_and!.
    + simpl. rewrite Hn. simpl. by rewrite Hns.
    + intros n. rewrite Hmemo.
      destruct (decide (n ∈ ns)) as [Hin|Hnin].
      * rewrite (bool_decide_eq_true_2 (n ∈ ns)) by done.
        rewrite bool_decide_eq_true_2; [done|by apply list_elem_of_further].
      * rewrite (bool_decide_eq_false_2 (n ∈ ns)) by done.
        destruct (decide (n = n0)) as [->|Hne].
        -- rewrite lookup_insert_eq.
           rewrite bool_decide_eq_true_2; [done|apply list_elem_of_here].
        -- rewrite lookup_insert_ne by done.
           rewrite bool_decide_eq_false_2; [done|].
           intros [?|?]%elem_of_cons; done.
    + intros j. rewrite Hty. case_bool_decide as Hj; [|by rewrite lookup_insert_ne].
      subst j. rewrite lookup_insert_eq, last_cons. by destruct (last ns).
Qed.


Lemma reduce_spec idx defs h h' :
  reduce idx defs h = Some h' →
  Forall (fun d => is_Some (names d)) defs ∧
  (∀ n, memo h' !! n =
          match holder n idx defs with Some j => Some j | None => memo h !! n end) ∧
  (∀ j, type_of h' !! j =
          match (if bool_decide (idx ≤ j)%nat then defs !! (j - idx)%nat else None) with
          | Some d =>
              match names d ≫= last with
              | Some n => Some n
              | None => type_of h !! j
              end
          | None => type_of h !! j
          end).
Proof.
  revert idx h. induction defs as [|def rest IH]; intros idx h H.
  - simpl in H. simplify_eq. split_and!; [done|done|].
    intros j. by case_bool_decide.
  - simpl in H.
    destruct (each_type idx (types_of (def_instance def)) h) as [h1|] eqn:H1;
      simpl in H; [|done].
    destruct (each_type_names _ _ _ _ H1) as (ns & Hns & Hmemo1 & Hty1).
    destruct (IH _ _ H) as (Hall & Hmemo & Hty).
    fold (names def) in Hns.
    split_and!.
    + apply Forall_cons. split; [by rewrite Hns|done].
    + intros n. rewrite Hmemo. simpl.
      destruct (holder n (S idx) rest); [done|].
      rewrite Hmemo1, Hns. by case_bool_decide.
    + intros j. rewrite Hty, Hty1.
      destruct (decide (j = idx)) as [->|Hne].
      * rewrite (bool_decide_eq_false_2 (S idx ≤ idx)%nat) by lia.
        rewrite !bool_decide_eq_true_2 by (done || lia).
        replace (idx - idx)%nat with 0%nat by lia. simpl. rewrite Hns. simpl.
        done.
      * rewrite (bool_decide_eq_false_2 (j = idx)) by done.
        destruct (decide (idx ≤ j)%nat) as [Hle|Hgt].
        -- rewrite !bool_decide_eq_true_2 by lia.
           replace (j - idx)%nat with (S (j - S idx)) by lia. done.
        -- rewrite !bool_decide_eq_false_2 by lia. done.
Qed.


Lemma holder_Some n idx defs j :
  holder n idx defs = Some j →
  (idx ≤ j)%nat ∧
  ∃ d ns, defs !! (j - idx)%nat = Some d ∧ names d = Some ns ∧ n ∈ ns.
Proof.
  revert idx. induction defs as [|def rest IH]; intros idx H; [done|].
  simpl in H. destruct (holder n (S idx) rest) as [j'|] eqn:Hrest.
  - simplify_eq. destruct (IH _ Hrest) as (Hle & d & ns & Hd & Hns & Hin).
    split; [lia|]. exists d, ns. split_and!; try done.
    by replace (j - idx)%nat with (S (j - S idx)) by lia.
  - destruct (names def) as [ns|] eqn:Hns; [|done].
    case_bool_decide; [|done]. simplify_eq.
    split; [lia|]. exists def, ns. split_and!; try done.
    by replace (j - j)%nat with 0%nat by lia.
Qed.

Lemma holder_named n idx defs k d ns :
  defs !! k = Some d → names d = Some ns → n ∈ ns →
  ∃ j, holder n idx defs = Some j ∧ (idx + k ≤ j)%nat.
Proof.
  revert idx k. induction defs as [|def rest IH]; intros idx k Hd Hns Hin; [done|].
  simpl. destruct k as [|k]; simpl in Hd.
  - simplify_eq. destruct (holder n (S idx) rest) as [j|] eqn:Hrest.
    + exists j. split; [done|]. apply holder_Some in Hrest as [? _]. lia.
    + rewrite Hns, bool_decide_eq_true_2 by done. exists idx. split; [done|lia].
  - destruct (IH (S idx) k Hd Hns Hin) as (j & -> & Hle). exists j. split; [done|lia].
Qed.

Lemma holder_last n idx defs j :
  holder n idx defs = Some j →
  ∀ j' d' ns', (j < j')%nat → defs !! (j' - idx)%nat = Some d' → names d' = Some ns' →
               n ∉ ns'.
Proof.
  revert idx. induction defs as [|def rest IH]; intros idx H j' d' ns' Hlt Hd' Hns' Hin;
    [done|].
  simpl in H. destruct (holder n (S idx) rest) as [j0|] eqn:Hrest.
  - simplify_eq. pose proof (holder_Some _ _ _ _ Hrest) as [Hle _].
    eapply (IH _ Hrest j'); [done| |done|done].
    by replace (j' - idx)%nat with (S (j' - S idx)) in Hd' by lia.
  - destruct (names def) as [ns|] eqn:Hns; [|done].
    case_bool_decide; [|done]. simplify_eq.
    replace (j' - j)%nat with (S (j' - S j)) in Hd' by lia. simpl in Hd'.
    destruct (holder_named n (S j) rest _ d' ns' Hd' Hns' Hin) as (x & Hx & _).
    congruence.
Qed.

Lemma mixed_spec defs :
  mixed defs = true ↔
  ∃ d1 d2, d1 ∈ defs ∧ d2 ∈ defs ∧ def_typeof d1 ≠ def_typeof d2.
Proof.
  destruct defs as [|def rest]; simpl.
  - split; [done|]. intros (d1 & _ & Hd1 & _). by apply elem_of_nil in Hd1.
  - rewrite negb_true_iff. split.
    + intros Hf.
      destruct (forallb (fun d => String.eqb (def_typeof d) (def_typeof def)) rest) eqn:Hall;
        [done|].
      assert (¬ Forall (fun d => def_typeof d = def_typeof def) rest) as Hnot.
      { intros HF. rewrite forallb_forall in Hall || (apply not_true_iff_false in Hall; apply Hall).
        apply forallb_forall. intros d Hd. apply String.eqb_eq.
        rewrite Forall_forall in HF. apply HF. by apply list_elem_of_In. }
      apply not_Forall_Exists in Hnot; [|intros d; apply _].
      apply Exists_exists in Hnot as (d & Hd & Hne).
      exists d, def. split_and!; [by apply list_elem_of_further|apply list_elem_of_here|done].
    + intros (d1 & d2 & Hd1 & Hd2 & Hne).
      apply not_true_iff_false. rewrite forallb_forall. intros Hall.
      assert (∀ d, d ∈ def :: rest → def_typeof d = def_typeof def) as Hsame.
      { intros d [->|Hd]%elem_of_cons; [done|].
        apply String.eqb_eq, Hall. by apply list_elem_of_In. }
      apply Hne. by rewrite (Hsame d1), (Hsame d2).
Qed.

Lemma initialized_lookup defs h n :
  reduce 0 defs (mkHeap ∅ ∅) = Some h →
  omap (entry defs h) (memo h) !! n =
    j ← holder n 0 defs;
    d ← defs !! j;
    ns ← names d;
    type ← last ns;
    Some (mkMarshaller type (i_marshall (def_instance d)) (i_unmarshall (def_instance d))).
Proof.
  intros H. destruct (reduce_spec _ _ _ _ H) as (Hall & Hmemo & Hty).
  rewrite lookup_omap, Hmemo. simpl.
  destruct (holder n 0 defs) as [j|] eqn:Hj; simpl; [|by rewrite lookup_empty].
  destruct (holder_Some _ _ _ _ Hj) as (_ & d & ns & Hd & Hns & Hin).
  replace (j - 0)%nat with j in Hd by lia.
  unfold entry. rewrite Hd. simpl. rewrite Hty.
  rewrite bool_decide_eq_true_2 by lia. replace (j - 0)%nat with j by lia.
  rewrite Hd, Hns. simpl.
  destruct (last ns) as [x|] eqn:Hlast; [done|].
  apply last_None in Hlast. subst ns. by apply elem_of_nil in Hin.
Qed.

Lemma typeName_of_truthy r n : typeName_of r = Some n → n ≠ "".
Proof.
  unfold typeName_of. intros H.
  repeat case_match; simplify_eq; by apply String.eqb_neq.
Qed.

Lemma names_truthy d ns : names d = Some ns → ∀ n, n ∈ ns → n ≠ "".
Proof.
  unfold names. intros H%mapM_Some n Hin.
  induction H as [|r x rs xs Hx _ IH]; [by apply elem_of_nil in Hin|].
  apply elem_of_cons in Hin as [->|Hin]; [by eapply typeName_of_truthy|by apply IH].
Qed.

Lemma registered_named defs h j d ns n :
  reduce 0 defs (mkHeap ∅ ∅) = Some h →
  defs !! j = Some d → names d = Some ns → n ∈ ns →
  is_Some (omap (entry defs h) (memo h) !! n).
Proof.
  intros Hr Hd Hns Hin. rewrite (initialized_lookup _ _ _ Hr).
  destruct (holder_named n 0 defs j d ns Hd Hns Hin) as (j' & Hj & _).
  rewrite Hj. simpl.
  destruct (holder_Some _ _ _ _ Hj) as (_ & d' & ns' & Hd' & Hns' & Hin').
  replace (j' - 0)%nat with j' in Hd' by lia.
  rewrite Hd'. simpl. rewrite Hns'. simpl.
  destruct (last ns') as [x|] eqn:Hlast; [by eexists|].
  apply last_None in Hlast. subst ns'. by apply elem_of_nil in Hin'.
Qed.

Lemma registered_entry defs h n m :
  reduce 0 defs (mkHeap ∅ ∅) = Some h →
  omap (entry defs h) (memo h) !! n = Some m →
  ∃ j d ns, holder n 0 defs = Some j ∧ defs !! j = Some d ∧ names d = Some ns ∧ n ∈ ns ∧
    last ns = Some (ActorSystem.type m) ∧
    marshall m = i_marshall (def_instance d) ∧
    unmarshall m = i_unmarshall (def_instance d) ∧
    ∀ j' d' ns', (j < j')%nat → defs !! j' = Some d' → names d' = Some ns' → n ∉ ns'.
Proof.
  intros Hr. rewrite (initialized_lookup _ _ _ Hr). intros Hm.
  apply bind_Some in Hm as (j & Hj & Hm).
  apply bind_Some in Hm as (d & Hd & Hm).
  apply bind_Some in Hm as (ns & Hns & Hm).
  apply bind_Some in Hm as (type & Hlast & Hm). simplify_eq.
  destruct (holder_Some _ _ _ _ Hj) as (_ & d' & ns' & Hd' & Hns' & Hin').
  replace (j - 0)%nat with j in Hd' by lia. simplify_eq.
  exists j, d, ns. split_and!; try done.
  intros j' d' ns'' Hlt Hd'' Hns'' Hin''.
  eapply (holder_last n 0 defs j Hj j'); [lia| |done|done].
  by replace (j' - 0)%nat with j' by lia.
Qed.


(** X22.  When no two marshaller definitions name the same type, none
    names a type of the two reference marshallers, and every marshaller
    restores what it has marshalled, then in the system that
    [_initializeMarshallers] sets up every marshaller is undone on the
    other side: the tag that the sender writes for a marshalled part
    leads the receiver to the marshaller that restores it. *)
Theorem registered_marshallers_consistent
  (defs : list marshallerDef) (sys sys' : ActorSystem.t) :
  _initializeMarshallers defs sys = Marshallers sys' →
  apart defs → Forall inverse defs →
  (∀ v, unmarshall (forkedActorReferenceMarshaller sys)
          (marshall (forkedActorReferenceMarshaller sys) v) = v) →
  Correlation.consistent sys'.
Proof.
  unfold _initializeMarshallers. intros Hinit [Hapart Hres] Hinv Href.
  destruct (mixed defs); [done|].
  destruct (reduce 0 defs (mkHeap ∅ ∅)) as [h|] eqn:Hr; [|done].
  simplify_eq. split.
  - split; [done|]. eexists. split; [reflexivity|]. done.
  - intros n m Hm. simpl in Hm.
    destruct (registered_entry _ _ _ _ Hr Hm)
      as (j & d & ns & Hj & Hd & Hns & Hin & Hlast & Hma & Hun & _).
    assert (ActorSystem.type m ∈ ns) as Hty.
    { apply last_Some in Hlast as [l' ->]. apply elem_of_app. right. apply list_elem_of_here. }
    assert (d ∈ defs) as Hdin by (by eapply list_elem_of_lookup_2).
    destruct (Hres d ns Hdin Hns) as [Hnf Hnr].
    split.
    + intros Hempty. rewrite Hempty in Hty.
      by apply (names_truthy _ _ Hns "").
    + assert (Correlation.decoder
                (mkSystem (omap (entry defs h) (memo h)) (forkedActorReferenceMarshaller sys)
                   (remoteActorReferenceMarshaller sys)) (ActorSystem.type m) = Some m) as Hdec.
      { unfold Correlation.decoder.
        destruct (String.eqb_spec (ActorSystem.type m) "InterProcessReference") as [He|_];
          [by rewrite He in Hty|].
        destruct (String.eqb_spec (ActorSystem.type m) "InterHostReference") as [He|_];
          [by rewrite He in Hty|].
        simpl.
        destruct (registered_named _ _ _ _ _ _ Hr Hd Hns Hty) as [m' Hm'].
        rewrite Hm'. f_equal.
        destruct (registered_entry _ _ _ _ Hr Hm')
          as (j' & d' & ns' & Hj' & Hd' & Hns' & Hin' & Hlast' & Hma' & Hun' & _).
        assert (j' = j) as -> by (by eapply (Hapart j' j d' d ns' ns (ActorSystem.type m))).
        simplify_eq.
        destruct m as [t1 f1 g1], m' as [t2 f2 g2]. simpl in *. congruence. }
      exists m. split; [done|].
      intros v. rewrite Hma, Hun.
      rewrite Forall_forall in Hinv. by apply Hinv.
Qed.

Lemma registered_marshallers_consistent_witness :
  ∃ sys',
    _initializeMarshallers [Cases.wrapper] Samples.plain_system = Marshallers sys' ∧
    (ActorSystem.type <$> getMarshallerForMessage sys' (VObj "TestMessage" []))
      = Some "TestMessage" ∧
    Correlation.consistent sys'.
Proof.
  destruct (_initializeMarshallers [Cases.wrapper] Samples.plain_system) as [sys'| |] eqn:Hinit;
    [|by vm_compute in Hinit..].
  exists sys'. split; [done|]. split.
  - unfold _initializeMarshallers in Hinit. simpl in Hinit. injection Hinit as <-.
    by vm_compute.
  - apply (registered_marshallers_consistent [Cases.wrapper] Samples.plain_system sys' Hinit).
    + split.
      * intros [|i] [|j] di dj nsi nsj n Hdi Hdj; simpl in *; try done.
      * intros d ns Hd%list_elem_of_singleton Hns. subst d.
        vm_compute in Hns. simplify_eq.
        split; intros Hin%list_elem_of_singleton; done.
    + apply Forall_cons. split; [|constructor]. intros v. reflexivity.
    + intros v. reflexivity.
Defined.
